(** * Feature location in a generated software product line

    A shallow embedding of [src/features/features.hpp] (namespace
    [features]) and of [src/fl/fl.cpp], followed by the properties of the
    taxonomy generator, of the combination generator and of the three
    isolation strategies.

    Conventions of the embedding:
    - [maxnat_t] (uintmax_t) is [N], every operation that can leave 64 bits
      is wrapped by [wrap64]; [feature_id_t] and [combination_element_t]
      (unsigned short) are [N] wrapped by [wrap16];
    - [std::vector] is [list], [std::set<std::string>] is [gset string],
      [std::map<std::string,_>] is [gmap string _];
    - a C++ exception is the [Throw] outcome of the [result] monad;
    - a counted loop is a fold over its index range, a [do ... while] loop
      whose trip count is not syntactic takes a bound on its iterations. *)

From stdpp Require Import gmap strings list fin_maps pretty sorting.
From Stdlib Require Import NArith Lia Ascii.

Open Scope N_scope.

Set Warnings "-clear-no-such-hyp".

(** ** Outcomes of fallible code *)

(** The exception classes the two programs throw, directly or through the
    standard library ([vector::at], [stoull]).  [fuel_exhausted] is not a
    C++ exception: it marks a bounded loop of the model that reached its
    bound before the source loop would have ended. *)
Inductive exn : Set :=
  | logic_error
  | length_error
  | domain_error
  | out_of_range
  | invalid_argument
  | fuel_exhausted.

Inductive result (A : Type) : Type :=
  | Ok (a : A)
  | Throw (e : exn).
Arguments Ok {A} a.
Arguments Throw {A} e.

#[global] Instance result_ret : MRet result := fun A a => Ok a.
#[global] Instance result_bind : MBind result := fun A B f r =>
  match r with
  | Ok a => f a
  | Throw e => Throw e
  end.
#[global] Instance result_fmap : FMap result := fun A B f r =>
  match r with
  | Ok a => Ok (f a)
  | Throw e => Throw e
  end.

Definition is_ok {A} (r : result A) : bool :=
  match r with Ok _ => true | Throw _ => false end.

Definition get_ok {A} (d : A) (r : result A) : A :=
  match r with Ok a => a | Throw _ => d end.

(** [v.at(i)]: bounds-checked access. *)
Definition at_ {A} (v : list A) (i : nat) : result A :=
  match v !! i with
  | Some x => Ok x
  | None => Throw out_of_range
  end.

(** [v.at(i)] for an index of 64 bits. *)
Definition at_N {A} (v : list A) (i : N) : result A :=
  if i <? N.of_nat (length v) then at_ v (N.to_nat i) else Throw out_of_range.

(** Left-to-right traversal of a vector by a fallible body. *)
Fixpoint for_each {A St} (body : St -> A -> result St) (l : list A) (st : St)
  : result St :=
  match l with
  | [] => Ok st
  | x :: l' => st' ← body st x; for_each body l' st'
  end.

Definition wrap64 (x : N) : N := x mod 2 ^ 64.
Definition wrap16 (x : N) : N := x mod 2 ^ 16.

(** The index range [lo, lo + 1, ..., lo + len - 1] of a counted loop. *)
Definition range (lo : N) (len : nat) : list N :=
  (fun i => lo + N.of_nat i) <$> seq 0 len.

(** [for (e = lo; e < hi; ++e) body], the body being fallible: an
    exception ends the loop. *)
Definition for_range {St} (lo hi : N) (body : N -> St -> result St) (st : St)
  : result St :=
  snd (N.iter (hi - lo)
         (fun p : N * result St => (N.succ (fst p), snd p ≫= body (fst p)))
         (lo, Ok st)).

(** The characters the programs write. *)
Definition tab : string := String (Ascii.ascii_of_N 9) EmptyString.
Definition endl : string := String (Ascii.ascii_of_N 10) EmptyString.

(** Order of [std::string::operator<], the order of [std::sort] on names
    and of iteration over a [std::set<std::string>]. *)
Definition string_le (a b : string) : Prop := String.leb a b = true.
#[global] Instance string_le_dec a b : Decision (string_le a b) :=
  decide (String.leb a b = true).

Definition sort (l : list string) : list string := merge_sort string_le l.

(** The elements of a [std::set<std::string>] in iteration order. *)
Definition set_elements (X : gset string) : list string := sort (elements X).

(** ** The state transition of the combination generators

    [combination_t::next()] has the same body in [features.hpp] (state of
    [std::size_t], bound [m_symbols.size()]) and in [fl.cpp] (state of
    [unsigned short], bound [m_n]).  The body is embedded once, over the
    wrap-around [wrap] of the element type, the bound [n] and the sample
    size [k]; the test [v + 1 + k() - i < n] is evaluated in [std::size_t]
    in both files. *)
Module combination.
Section next.
Variable wrap : N -> N.
Variables n k : N.

(** [for (j = i; j < m_state.size(); ++j)
       m_state.at(j) = m_state.at(j - 1) + 1;] *)
Definition refill (st : list N) (i : nat) : result (list N) :=
  for_each
    (fun st j =>
       prev ← at_ st (j - 1);
       _ ← at_ st j;
       Ok (<[j := wrap (prev + 1)]> st))
    (seq i (length st - i)) st.

(** The loop [for (i = m_state.size(); i > 0; --i)] entered with
    counter [i]; the outcome is the returned flag and the state. *)
Fixpoint next_from (st : list N) (i : nat) : result (bool * list N) :=
  match i with
  | O => Ok (false, st)
  | S i' =>
      v ← at_ st i';
      if (v <? n) && (wrap64 (v + 1 + k + 2 ^ 64 - N.of_nat i) <? n)
      then
        st' ← refill (<[i' := wrap (v + 1)]> st) i;
        Ok (true, st')
      else next_from st i'
  end.

Definition next_state (st : list N) : result (bool * list N) :=
  next_from st (length st).
End next.

(** [initialize()]: the indices [0 .. k-1]. *)
Definition initial_state (k : N) : list N := range 0 (N.to_nat k).
End combination.

Module features.

Definition set_intersection : string := "&".
Definition set_difference : string := "\".
Definition set_union : string := "|".
Definition set_separator : string := " ".
Definition feature_and : string := "*".
Definition feature_or : string := "+".
Definition feature_not : string := "!".
Definition feature : string := "f".
Definition feature_separator : string := " ".
Definition system : string := "S".
Definition difference_expression : string := "E".
Definition separator : string := tab.
Definition opening_parenthesis : string := "(".
Definition closing_parenthesis : string := ")".

Abbreviation feature_id_t := N (only parsing).
Abbreviation model_id_t := N (only parsing).
Abbreviation maxnat_t := N (only parsing).

Abbreviation feature_expression_t := (list (string * N)) (only parsing).
Abbreviation feature_names_t := (list string) (only parsing).
Abbreviation system_t := (list string) (only parsing).
Abbreviation systems_t := (list (list string)) (only parsing).

Record systems_difference_t := {
  intersections : gset string;
  unions : gset string
}.

Record system_feature_difference_t := {
  difference_id : maxnat_t;
  sfd_feature : string;
  difference : systems_difference_t
}.

Abbreviation features_isolation_t := (gmap string systems_difference_t)
  (only parsing).
Abbreviation differences_t := (list system_feature_difference_t) (only parsing).

Definition to_string (n : N) : string := pretty n.

(** [product]: the loop runs [to + 1 - from] times when [from <= to]. *)
Definition product (from to : maxnat_t) : maxnat_t :=
  if (from =? 0) || (to =? 0) then 0
  else fst (N.iter (to + 1 - from)
              (fun p : N * N => (wrap64 (fst p * snd p), snd p - 1))
              (1, to)).

Definition factorial (n : maxnat_t) : maxnat_t :=
  if n =? 0 then 1 else product 1 n.

(** An unsigned division by zero is undefined in C++ and ends the
    program.  It occurs where [factorial k] has wrapped around to 0,
    from k = 66 on; there the model follows the convention of [N], a
    quotient 0.  The model is the function for k <= 65. *)
Definition combinations (n k : maxnat_t) : maxnat_t :=
  product (wrap64 (n + 1 + 2 ^ 64 - k)) n / factorial k.

Definition sum_of_combinations (n k : maxnat_t) : maxnat_t :=
  fst (N.iter (n + 1 - k)
         (fun p : N * N => (wrap64 (fst p + combinations n (snd p)), snd p + 1))
         (0, k)).

Definition power (base exponent : maxnat_t) : maxnat_t :=
  N.iter exponent (fun r => wrap64 (r * base)) 1.

Definition power2 (exponent : maxnat_t) : maxnat_t := power 2 exponent.

Definition concat {T} (destination v : list T) : list T := destination ++ v.

(** [contains] is a template over the element type; it needs its
    [operator==], here the class [Equal]. *)
Class Equal (T : Type) := equal : T -> T -> bool.
#[global] Instance equal_N : Equal N := N.eqb.
#[global] Instance equal_string : Equal string := String.eqb.

Definition contains {T} `{Equal T} (v : list T) (e : T) : bool :=
  existsb (fun x => equal x e) v.

(** [negate v n]: the ids of [1, n] that are not in [v].  The counter
    of the loop is a [feature_id_t]: for n = 65535 it wraps around and
    the loop does not end.  The model is the function for n < 65535. *)
Definition negate (v : list feature_id_t) (n : feature_id_t)
  : list feature_id_t :=
  filter (fun i => contains v i = false) (range 1 (N.to_nat n)).

Definition hasO (M : model_id_t) : bool :=
  (M =? 2) || (M =? 4) || (M =? 6) || (M =? 8) || (M =? 11) || (M =? 13) ||
  (M =? 14) || (M =? 16) || (M =? 17) || (M =? 19).

Definition hasA (M : model_id_t) : bool :=
  (M =? 3) || (M =? 4) || (M =? 7) || (M =? 8) || (M =? 12) || (M =? 13) ||
  (M =? 15) || (M =? 16) || (M =? 18) || (M =? 19).

Definition hasN (M : model_id_t) : bool :=
  (M =? 5) || (M =? 6) || (M =? 7) || (M =? 8) || (M =? 9) || (M =? 10) ||
  (M =? 11) || (M =? 12) || (M =? 13) || (M =? 14) || (M =? 15) ||
  (M =? 16) || (M =? 17) || (M =? 18) || (M =? 19).

Definition hasON (M : model_id_t) : bool :=
  (M =? 9) || (M =? 11) || (M =? 12) || (M =? 13) || (M =? 17) ||
  (M =? 18) || (M =? 19).

Definition hasAN (M : model_id_t) : bool :=
  (M =? 10) || (M =? 14) || (M =? 15) || (M =? 16) || (M =? 17) ||
  (M =? 18) || (M =? 19).

Definition independent_feature_name (i : feature_id_t) : string :=
  feature +:+ to_string i.

(** The four composite names share one shape: the first operand, then
    for every further operand a separator, the operator, a separator and
    the operand.  [ids.at(0)] throws on an empty vector. *)
Definition joined_name (operand : feature_id_t -> string) (op : string)
    (ids : list feature_id_t) : result string :=
  first ← at_ ids 0;
  Ok (fold_left
        (fun res id =>
           res +:+ feature_separator +:+ op +:+ feature_separator
               +:+ operand id)
        (drop 1 ids) (operand first)).

Definition or_feature_name (ids : list feature_id_t) : result string :=
  joined_name (fun i => feature +:+ to_string i) feature_or ids.

Definition and_feature_name (ids : list feature_id_t) : result string :=
  joined_name (fun i => feature +:+ to_string i) feature_and ids.

Definition not_feature_name (i : feature_id_t) : string :=
  feature_not +:+ feature +:+ to_string i.

Definition or_not_feature_name (ids : list feature_id_t) : result string :=
  joined_name (fun i => feature_not +:+ feature +:+ to_string i)
    feature_or ids.

Definition and_not_feature_name (ids : list feature_id_t) : result string :=
  joined_name (fun i => feature_not +:+ feature +:+ to_string i)
    feature_and ids.

(** [system_name] and [difference_name] take a [feature_id_t]: a wider
    argument is truncated to 16 bits by the call. *)
Definition system_name (n : feature_id_t) : string :=
  system +:+ to_string n.

Definition difference_name (n : feature_id_t) : string :=
  difference_expression +:+ to_string n.

(** [idf.at(v - 1)]: for [v = 0] the index wraps around and [at]
    throws. *)
Definition at_pred {A} (idf : list A) (v : feature_id_t) : result A :=
  if v =? 0 then Throw out_of_range else at_ idf (N.to_nat (v - 1)).

Definition or_feature_value (ids : list feature_id_t)
    (idf : feature_expression_t) : result maxnat_t :=
  for_each (fun res v => e ← at_pred idf v; Ok (N.lor res (snd e))) ids 0.

Definition and_feature_value (ids : list feature_id_t)
    (idf : feature_expression_t) : result maxnat_t :=
  for_each (fun res v => e ← at_pred idf v; Ok (N.land res (snd e)))
    ids (N.lnot 0 64).

Definition or_not_feature_value (ids : list feature_id_t)
    (nf : feature_expression_t) : result maxnat_t :=
  for_each (fun res v => e ← at_pred nf v; Ok (N.lor res (snd e))) ids 0.

Definition and_not_feature_value (ids : list feature_id_t)
    (nf : feature_expression_t) (bitmask : maxnat_t) : result maxnat_t :=
  for_each (fun res v => e ← at_pred nf v; Ok (N.land res (snd e)))
    ids (N.lnot bitmask 64).

(** [unsigned2vector u]: the 1-based positions of the bits set in [u]. *)
Definition unsigned2vector (u : maxnat_t) : list feature_id_t :=
  (fun bit => bit + 1) <$>
    filter (fun bit => N.land u (N.shiftl 1 bit) ≠ 0) (range 0 64).

(** *** [combination_t<T>] *)

Record combination_t (T : Type) := {
  m_symbols : list T;
  m_state : list N;
  m_k : N
}.
Arguments m_symbols {T} _.
Arguments m_state {T} _.
Arguments m_k {T} _.

Definition new_combination {T} (symbols : list T) (k : N)
  : result (combination_t T) :=
  if N.of_nat (length symbols) <? k then Throw logic_error
  else Ok {| m_symbols := symbols;
             m_state := combination.initial_state k;
             m_k := k |}.

Definition next {T} (c : combination_t T) : result (bool * combination_t T) :=
  r ← combination.next_state wrap64 (N.of_nat (length (m_symbols c)))
        (m_k c) (m_state c);
  Ok (fst r, {| m_symbols := m_symbols c; m_state := snd r; m_k := m_k c |}).

(** [operator()]: the symbols selected by the state. *)
Definition call {T} (c : combination_t T) : result (list T) :=
  mapM (fun e => at_ (m_symbols c) (N.to_nat e)) (m_state c).

(** [do { out.push_back(body(c())); } while (c.next());] run for at most
    [fuel] iterations. *)
Fixpoint do_while_next {T A} (fuel : nat) (body : list T -> result A)
    (c : combination_t T) (out : list A) : result (list A) :=
  match fuel with
  | O => Throw fuel_exhausted
  | S fuel' =>
      syms ← call c;
      x ← body syms;
      '(more, c') ← next c;
      if (more : bool) then do_while_next fuel' body c' (out ++ [x])
      else Ok (out ++ [x])
  end.

(** [for (k = 2; k <= n; ++k) { combination_t c { symbols,k }; do ... }];
    every inner loop is given [2 ^ n] iterations, more than the
    [C(n,k)] it needs. *)
Definition for_all_combinations {T A} (symbols : list T) (n : N)
    (body : list T -> result A) (out : list A) : result (list A) :=
  for_each
    (fun out k =>
       c ← new_combination symbols k;
       do_while_next (2 ^ N.to_nat n)%nat body c out)
    (range 2 (N.to_nat n - 1)) out.

(** *** [feature_location_t], the base class *)

Module feature_location_t.

Record t := {
  m_n : feature_id_t;
  m_F : maxnat_t;
  m_M : feature_id_t;
  m_S : maxnat_t;
  m_O : maxnat_t;
  m_A : maxnat_t;
  m_N : maxnat_t;
  m_ON : maxnat_t;
  m_AN : maxnat_t;
  m_I : maxnat_t;
  m_T : maxnat_t;
  m_D : maxnat_t;
  m_raw_independent_features : list feature_id_t;
  m_raw_dependent_features : list (list feature_id_t);
  m_all_systems : systems_t
}.

Definition generate_independent_features (f : list feature_id_t)
  : feature_names_t :=
  independent_feature_name <$> f.

Definition generate_or_features (o : t) (f : list feature_id_t)
  : result feature_names_t :=
  if hasO (m_M o) then
    res ← for_each
            (fun res i =>
               for_each
                 (fun res j =>
                    t ← or_feature_name j;
                    Ok (if contains j i && negb (contains res t)
                        then res ++ [t] else res))
                 (m_raw_dependent_features o) res)
            f [];
    Ok (sort res)
  else Ok [].

Definition generate_and_features (o : t) (f : list feature_id_t)
  : result feature_names_t :=
  if hasA (m_M o) then
    res ← for_each
            (fun res i =>
               if forallb (contains f) i
               then t ← and_feature_name i; Ok (res ++ [t])
               else Ok res)
            (m_raw_dependent_features o) [];
    Ok (sort res)
  else Ok [].

Definition generate_not_features (o : t) (nf : list feature_id_t)
  : feature_names_t :=
  if hasN (m_M o) then not_feature_name <$> negate nf (m_n o) else [].

Definition generate_or_not_features (o : t) (nf : list feature_id_t)
  : result feature_names_t :=
  if hasON (m_M o) then
    res ← for_each
            (fun res i =>
               for_each
                 (fun res j =>
                    t ← or_not_feature_name j;
                    Ok (if contains j i && negb (contains res t)
                        then res ++ [t] else res))
                 (m_raw_dependent_features o) res)
            (negate nf (m_n o)) [];
    Ok (sort res)
  else Ok [].

Definition generate_and_not_features (o : t) (nf : list feature_id_t)
  : result feature_names_t :=
  if hasAN (m_M o) then
    let f := negate nf (m_n o) in
    res ← for_each
            (fun res i =>
               if forallb (contains f) i
               then t ← and_not_feature_name i; Ok (res ++ [t])
               else Ok res)
            (m_raw_dependent_features o) [];
    Ok (sort res)
  else Ok [].

Definition generate_system (o : t) (f : list feature_id_t)
  : result system_t :=
  ors ← generate_or_features o f;
  ands ← generate_and_features o f;
  or_nots ← generate_or_not_features o f;
  and_nots ← generate_and_not_features o f;
  Ok (sort (concat (concat (concat (concat (concat (concat []
        (generate_independent_features f)) ors) ands)
        (generate_not_features o f)) or_nots) and_nots)).

Definition generate_all_systems (o : t) : result systems_t :=
  mapM (fun s => generate_system o (unsigned2vector s))
    (range 0 (N.to_nat (m_S o))).

(** The constructor.  Its parameters are [feature_id_t]; the member
    initialisers are evaluated in [maxnat_t]. *)
Definition new (n_ m_ : feature_id_t) : result t :=
  let cO := if hasO m_ then sum_of_combinations n_ 2 else 0 in
  let cA := if hasA m_ then sum_of_combinations n_ 2 else 0 in
  let cN := if hasN m_ then n_ else 0 in
  let cON := if hasON m_ then sum_of_combinations n_ 2 else 0 in
  let cAN := if hasAN m_ then sum_of_combinations n_ 2 else 0 in
  let raw := range 1 (N.to_nat n_) in
  dependent ← for_all_combinations raw n_ Ok [];
  let o := {| m_n := n_; m_F := n_; m_M := m_;
              m_S := power2 n_;
              m_O := cO; m_A := cA; m_N := cN; m_ON := cON; m_AN := cAN;
              m_I := wrap64 (cO + cA + cN + cAN + cON);
              m_T := wrap64 (n_ + cO + cA + cN + cAN + cON);
              m_D := power2 (power2 n_);
              m_raw_independent_features := raw;
              m_raw_dependent_features := dependent;
              m_all_systems := [] |} in
  systems ← generate_all_systems o;
  Ok {| m_n := m_n o; m_F := m_F o; m_M := m_M o; m_S := m_S o;
        m_O := m_O o; m_A := m_A o; m_N := m_N o; m_ON := m_ON o;
        m_AN := m_AN o; m_I := m_I o; m_T := m_T o; m_D := m_D o;
        m_raw_independent_features := m_raw_independent_features o;
        m_raw_dependent_features := m_raw_dependent_features o;
        m_all_systems := systems |}.

End feature_location_t.

(** *** [feature_location_isolation_t], the enumeration strategy *)

Module feature_location_isolation_t.
Import feature_location_t.

Record t := {
  base : feature_location_t.t;
  m_independent_features : feature_names_t;
  m_or_features : feature_names_t;
  m_and_features : feature_names_t;
  m_not_features : feature_names_t;
  m_or_not_features : feature_names_t;
  m_and_not_features : feature_names_t;
  m_all_features : feature_names_t;
  m_feature_isolations : features_isolation_t
}.

Definition generate_independent_features (b : feature_location_t.t)
  : feature_names_t :=
  feature_location_t.generate_independent_features
    (m_raw_independent_features b).

Definition generate_or_features (b : feature_location_t.t)
  : result feature_names_t :=
  if hasO (m_M b) then
    for_all_combinations (m_raw_independent_features b) (m_n b)
      or_feature_name []
  else Ok [].

Definition generate_and_features (b : feature_location_t.t)
  : result feature_names_t :=
  if hasA (m_M b) then
    for_all_combinations (m_raw_independent_features b) (m_n b)
      and_feature_name []
  else Ok [].

Definition generate_not_features (b : feature_location_t.t)
  : feature_names_t :=
  if hasN (m_M b) then not_feature_name <$> m_raw_independent_features b
  else [].

(** The sample sizes of the or-not- and and-not-features run up to
    [N()], the number of not-features. *)
Definition generate_or_not_features (b : feature_location_t.t)
  : result feature_names_t :=
  if hasON (m_M b) then
    for_all_combinations (m_raw_independent_features b) (m_N b)
      or_not_feature_name []
  else Ok [].

Definition generate_and_not_features (b : feature_location_t.t)
  : result feature_names_t :=
  if hasAN (m_M b) then
    for_all_combinations (m_raw_independent_features b) (m_N b)
      and_not_feature_name []
  else Ok [].

(** The partition of the systems by membership of [f]; [system_no]
    counts from 1 and is truncated to 16 bits by [system_name]. *)
Definition isolate (systems : systems_t) (f : string)
  : systems_difference_t :=
  snd (fold_left
         (fun (st : N * systems_difference_t) s =>
            let system_no := wrap64 (fst st + 1) in
            let name := system_name (wrap16 system_no) in
            let d := snd st in
            (system_no,
             if contains s f
             then {| intersections := {[ name ]} ∪ intersections d;
                     unions := unions d |}
             else {| intersections := intersections d;
                     unions := {[ name ]} ∪ unions d |}))
         systems
         (0, {| intersections := ∅; unions := ∅ |})).

(** [std::map::insert] keeps the entry of a key that is present. *)
Definition generate_feature_isolations (b : feature_location_t.t)
    (all_features : feature_names_t) : features_isolation_t :=
  fold_left
    (fun (res : gmap string systems_difference_t) f =>
       match res !! f with
       | Some _ => res
       | None => <[ f := isolate (m_all_systems b) f ]> res
       end)
    all_features ∅.

Definition new (n_ m_ : feature_id_t) : result t :=
  b ← feature_location_t.new n_ m_;
  let independent := generate_independent_features b in
  ors ← generate_or_features b;
  ands ← generate_and_features b;
  let nots := generate_not_features b in
  or_nots ← generate_or_not_features b;
  and_nots ← generate_and_not_features b;
  let all := sort (concat (concat (concat (concat (concat (concat []
               independent) ors) ands) nots) or_nots) and_nots) in
  Ok {| base := b;
        m_independent_features := independent;
        m_or_features := ors;
        m_and_features := ands;
        m_not_features := nots;
        m_or_not_features := or_nots;
        m_and_not_features := and_nots;
        m_all_features := all;
        m_feature_isolations := generate_feature_isolations b all |}.

(** [print_intersections] and [print_unions] differ in the operator
    only: every element, followed by the operator between separators
    unless it is the last one, all between parentheses.  The text
    written to the stream is returned. *)
Definition print_operands (operator : string) (s : gset string) : string :=
  opening_parenthesis +:+ set_separator +:+
  snd (fold_left
         (fun (st : nat * string) e =>
            let counter := S (fst st) in
            (counter,
             snd st +:+ e +:+
             (if (counter <? size s)%nat
              then set_separator +:+ operator +:+ set_separator
              else ""%string)))
         (set_elements s) (0%nat, ""%string))
  +:+ set_separator +:+ closing_parenthesis.

Definition print_intersections (s : gset string) : string :=
  print_operands set_intersection s.

Definition print_unions (s : gset string) : string :=
  print_operands set_union s.

(** One line of [print_results]. *)
Definition print_result (name : string) (d : systems_difference_t)
  : string :=
  name +:+ separator +:+ print_intersections (intersections d)
  +:+ set_separator +:+ set_difference +:+ set_separator
  +:+ print_unions (unions d) +:+ endl.

(** [print_results]: the entries of the map in the order of their
    keys. *)
Definition print_results (isolations : features_isolation_t) : string :=
  fold_left
    (fun os name =>
       match isolations !! name with
       | Some d => os +:+ print_result name d
       | None => os
       end)
    (set_elements (dom isolations)) ""%string.

End feature_location_isolation_t.

(** *** [feature_location_differences_t], the exhaustive strategy *)

Module feature_location_differences_t.
Import feature_location_t.

Record t := {
  base : feature_location_isolation_t.t;
  m_non_empty_differences : differences_t
}.

(** [std::stoull] in base 10: leading white space, an optional sign,
    then the longest run of digits. *)
Definition is_space (c : ascii) : bool :=
  let n := Ascii.N_of_ascii c in (n =? 32) || ((9 <=? n) && (n <=? 13)).

Fixpoint skip_spaces (s : string) : string :=
  match s with
  | String c s' => if is_space c then skip_spaces s' else s
  | EmptyString => s
  end.

Definition digit_of (c : ascii) : option N :=
  let n := Ascii.N_of_ascii c in
  if (48 <=? n) && (n <=? 57) then Some (n - 48) else None.

Fixpoint digits (s : string) (acc : option N) : option N :=
  match s with
  | String c s' =>
      match digit_of c with
      | Some d => digits s' (Some (10 * default 0 acc + d))
      | None => acc
      end
  | EmptyString => acc
  end.

Definition stoull (s : string) : result N :=
  let s1 := skip_spaces s in
  let signed :=
    match s1 with
    | String c r =>
        if Ascii.eqb c "+" then (false, r)
        else if Ascii.eqb c "-" then (true, r)
        else (false, s1)
    | EmptyString => (false, s1)
    end in
  match digits (snd signed) None with
  | None => Throw invalid_argument
  | Some v =>
      if 2 ^ 64 <=? v then Throw out_of_range
      else Ok (if fst signed then wrap64 (2 ^ 64 - v) else v)
  end.

(** [s.erase(0,n)] *)
Fixpoint erase_front (n : nat) (s : string) : string :=
  match n, s with
  | S n', String _ s' => erase_front n' s'
  | _, _ => s
  end.

Definition system2features (o : feature_location_t.t) (s : string)
  : result (gset string) :=
  if (String.length s <? String.length system + 1)%nat
     || negb (String.prefix system s)
  then Throw logic_error
  else
    pos ← stoull (erase_front (String.length system) s);
    fs ← at_N (m_all_systems o) (wrap64 (pos + 2 ^ 64 - 1));
    Ok (list_to_set fs).

(** The shift [1ull << position] is defined for [position < 64]. *)
Definition generate_difference (o : feature_location_t.t) (s : maxnat_t)
  : systems_difference_t :=
  fold_left
    (fun d position =>
       let name := system_name (wrap16 (position + 1)) in
       if bool_decide (N.land s (N.shiftl 1 position) ≠ 0)
       then {| intersections := {[ name ]} ∪ intersections d;
               unions := unions d |}
       else {| intersections := intersections d;
               unions := {[ name ]} ∪ unions d |})
    (range 0 (N.to_nat (m_S o)))
    {| intersections := ∅; unions := ∅ |}.

(** The [while (++first != end)] loop of [evaluate_intersections],
    with its exit on an empty intermediate result. *)
Fixpoint intersect_rest (o : feature_location_t.t) (rest : list string)
    (left : gset string) : result (gset string) :=
  match rest with
  | [] => Ok left
  | s :: rest' =>
      right ← system2features o s;
      let res := left ∩ right in
      if (size res =? 0)%nat then Ok res
      else intersect_rest o rest' res
  end.

Definition evaluate_intersections (o : feature_location_t.t)
    (diff : systems_difference_t) : result (gset string) :=
  match set_elements (intersections diff) with
  | [] => Ok ∅
  | first :: rest =>
      res ← system2features o first;
      intersect_rest o rest res
  end.

Fixpoint unite_rest (o : feature_location_t.t) (rest : list string)
    (left : gset string) : result (gset string) :=
  match rest with
  | [] => Ok left
  | s :: rest' =>
      right ← system2features o s;
      unite_rest o rest' (left ∪ right)
  end.

Definition evaluate_unions (o : feature_location_t.t)
    (diff : systems_difference_t) : result (gset string) :=
  match set_elements (unions diff) with
  | [] => Ok ∅
  | first :: rest =>
      res ← system2features o first;
      unite_rest o rest res
  end.

Definition evaluate_difference (o : feature_location_t.t)
    (diff : systems_difference_t) : result (gset string) :=
  i ← evaluate_intersections o diff;
  u ← evaluate_unions o diff;
  Ok (i ∖ u).

(** The body of the loop over the difference ids. *)
Definition keep_non_empty (o : feature_location_t.t) (e : maxnat_t)
    (res : differences_t) : result differences_t :=
  let diff := generate_difference o e in
  r ← evaluate_difference o diff;
  if (0 <? size r)%nat then
    if negb (size r =? 1)%nat then Throw length_error
    else Ok (res ++ [ {| difference_id := e;
                         sfd_feature := default ""%string
                                          (head (set_elements r));
                         difference := diff |} ])
  else Ok res.

Definition generate_non_empty_differences (o : feature_location_t.t)
  : result differences_t :=
  for_range 1 (m_D o) (keep_non_empty o) [].

Definition new (n_ m_ : feature_id_t) : result t :=
  b ← feature_location_isolation_t.new n_ m_;
  ds ← generate_non_empty_differences (feature_location_isolation_t.base b);
  Ok {| base := b; m_non_empty_differences := ds |}.

End feature_location_differences_t.

(** *** [feature_location_calculation_t], the closed-form strategy *)

Module feature_location_calculation_t.
Import feature_location_t.

Record t := {
  base : feature_location_t.t;
  m_systems_bitmask : maxnat_t;
  m_differences : differences_t;
  m_independent_features : feature_expression_t;
  m_or_features : feature_expression_t;
  m_and_features : feature_expression_t;
  m_not_features : feature_expression_t;
  m_or_not_features : feature_expression_t;
  m_and_not_features : feature_expression_t;
  m_all_features : feature_expression_t
}.

(** The mask of the non-existent systems: the complement of the [S]
    low bits.  The shift [1llu << s] is defined for s < 64 only: the
    model is the function for at most 64 systems. *)
Definition initialize_bitmask (b : feature_location_t.t) : maxnat_t :=
  N.lnot
    (fold_left (fun bitmask s => N.lor bitmask (N.shiftl 1 s))
       (range 0 (N.to_nat (m_S b))) 0)
    64.

Definition calculate_difference (b : feature_location_t.t)
    (index : maxnat_t) (name : string) : system_feature_difference_t :=
  {| difference_id := index;
     sfd_feature := name;
     difference :=
       fold_left
         (fun d s =>
            let sname := system_name (wrap16 (s + 1)) in
            if bool_decide (N.land index (N.shiftl 1 s) ≠ 0)
            then {| intersections := {[ sname ]} ∪ intersections d;
                    unions := unions d |}
            else {| intersections := intersections d;
                    unions := {[ sname ]} ∪ unions d |})
         (range 0 (N.to_nat (m_S b)))
         {| intersections := ∅; unions := ∅ |} |}.

(** The comparison of [calculate_differences]' sort. *)
Definition id_le (a b : system_feature_difference_t) : Prop :=
  difference_id a <= difference_id b.
#[global] Instance id_le_dec a b : Decision (id_le a b) :=
  decide (difference_id a <= difference_id b).

Definition calculate_differences (b : feature_location_t.t)
    (all_features : feature_expression_t) : differences_t :=
  merge_sort id_le
    ((fun nv => calculate_difference b (snd nv) (fst nv)) <$> all_features).

(** One iteration of the inner loop of
    [calculate_independent_features] on (value, bit, counter). *)
Definition independent_step (stride : maxnat_t) (st : N * N * N)
  : N * N * N :=
  let '(value, bit, counter) := st in
  let value := N.lor value bit in
  let counter := wrap64 (counter + 2 ^ 64 - 1) in
  let value := wrap64 (N.shiftl value 1) in
  if counter =? 0
  then (value, if bit =? 1 then 0 else 1, stride)
  else (value, bit, counter).

Definition calculate_independent_features (b : feature_location_t.t)
  : feature_expression_t :=
  (fun f =>
     let stride := power2 f in
     let '(value, _, _) :=
       N.iter (wrap64 (power2 (m_n b) + 2 ^ 64 - 1))
         (independent_step stride) (0, 1, stride) in
     (independent_feature_name (wrap16 (f + 1)), value))
  <$> range 0 (N.to_nat (m_n b)).

Definition calculate_or_features (b : feature_location_t.t)
    (independent_features : feature_expression_t)
  : result feature_expression_t :=
  if hasO (m_M b) then
    for_all_combinations (m_raw_independent_features b) (m_n b)
      (fun c =>
         name ← or_feature_name c;
         value ← or_feature_value c independent_features;
         Ok (name, value))
      []
  else Ok [].

Definition calculate_and_features (b : feature_location_t.t)
    (independent_features : feature_expression_t)
  : result feature_expression_t :=
  if hasA (m_M b) then
    for_all_combinations (m_raw_independent_features b) (m_n b)
      (fun c =>
         name ← and_feature_name c;
         value ← and_feature_value c independent_features;
         Ok (name, value))
      []
  else Ok [].

(** The complement of a bitstring within the [S] bits of the mask. *)
Definition not_value (value bitmask : maxnat_t) : maxnat_t :=
  N.lnot (N.lxor value bitmask) 64.

Definition calculate_not_features (b : feature_location_t.t)
    (independent_features : feature_expression_t) (bitmask : maxnat_t)
  : feature_expression_t :=
  if hasN (m_M b) then
    (fun f => (feature_not +:+ fst f, not_value (snd f) bitmask))
      <$> independent_features
  else [].

Definition calculate_or_not_features (b : feature_location_t.t)
    (not_features : feature_expression_t)
  : result feature_expression_t :=
  if hasON (m_M b) then
    for_all_combinations (m_raw_independent_features b) (m_n b)
      (fun c =>
         name ← or_not_feature_name c;
         value ← or_not_feature_value c not_features;
         Ok (name, value))
      []
  else Ok [].

Definition calculate_and_not_features (b : feature_location_t.t)
    (not_features : feature_expression_t) (bitmask : maxnat_t)
  : result feature_expression_t :=
  if hasAN (m_M b) then
    for_all_combinations (m_raw_independent_features b) (m_n b)
      (fun c =>
         name ← and_not_feature_name c;
         value ← and_not_feature_value c not_features bitmask;
         Ok (name, value))
      []
  else Ok [].

Definition new (n_ m_ : feature_id_t) : result t :=
  b ← feature_location_t.new n_ m_;
  let bitmask := initialize_bitmask b in
  let independent := calculate_independent_features b in
  ors ← calculate_or_features b independent;
  ands ← calculate_and_features b independent;
  let nots := calculate_not_features b independent bitmask in
  or_nots ← calculate_or_not_features b nots;
  and_nots ← calculate_and_not_features b nots bitmask;
  let all := concat (concat (concat (concat (concat (concat []
               independent) ors) ands) nots) or_nots) and_nots in
  Ok {| base := b;
        m_systems_bitmask := bitmask;
        m_differences := calculate_differences b all;
        m_independent_features := independent;
        m_or_features := ors;
        m_and_features := ands;
        m_not_features := nots;
        m_or_not_features := or_nots;
        m_and_not_features := and_nots;
        m_all_features := all |}.

End feature_location_calculation_t.

End features.

(** ** [fl.cpp] *)

Module fl.

Abbreviation maxnat_t := N (only parsing).
Abbreviation combination_element_t := N (only parsing).
Abbreviation difference_expression_t := (list bool) (only parsing).

Definition prefix : string := "fl_".

Definition power (base exponent : maxnat_t) : maxnat_t :=
  N.iter exponent (fun r => wrap64 (r * base)) 1.

(** [x / y + !!(x % y)]; a division by zero is undefined in C++, the
    model follows [N]'s convention there. *)
Definition ceil_div (x y : maxnat_t) : maxnat_t :=
  wrap64 (x / y + (if x mod y =? 0 then 0 else 1)).

Record combination_t := {
  m_state : list combination_element_t;
  m_k : combination_element_t;
  m_n : combination_element_t
}.

Definition new_combination (n k : combination_element_t)
  : result combination_t :=
  if n <? k then Throw domain_error
  else if n =? 0 then Throw domain_error
  else Ok {| m_state := combination.initial_state k; m_k := k; m_n := n |}.

Definition next (c : combination_t) : result (bool * combination_t) :=
  r ← combination.next_state wrap16 (m_n c) (m_k c) (m_state c);
  Ok (fst r, {| m_state := snd r; m_k := m_k c; m_n := m_n c |}).

Definition call (c : combination_t) : list combination_element_t :=
  m_state c.

(** [do { out.push_back(body(c())); } while (c.next());], the loop of
    the printers of dependent features, run for at most [fuel]
    iterations. *)
Fixpoint do_while_next {A} (fuel : nat)
    (body : list combination_element_t -> result A)
    (c : combination_t) (out : list A) : result (list A) :=
  match fuel with
  | O => Throw fuel_exhausted
  | S fuel' =>
      x ← body (call c);
      '(more, c') ← next c;
      if (more : bool) then do_while_next fuel' body c' (out ++ [x])
      else Ok (out ++ [x])
  end.

(** [operator~] *)
Definition bit_not (de : difference_expression_t) : difference_expression_t :=
  foldl (fun de i => match de !! i with
                     | Some b => <[ i := negb b ]> de
                     | None => de
                     end)
    de (seq 0 (length de)).

(** [operator&=] and [operator|=], with the length check. *)
Definition bit_and_assign (left right : difference_expression_t)
  : result difference_expression_t :=
  if negb (length left =? length right)%nat then Throw length_error
  else Ok (zip_with andb left right).

Definition bit_or_assign (left right : difference_expression_t)
  : result difference_expression_t :=
  if negb (length left =? length right)%nat then Throw length_error
  else Ok (zip_with orb left right).

Definition show_bit (b : bool) : string := if b then "1" else "0".

(** [operator<<]: the elements from the last to the first. *)
Definition show (de : difference_expression_t) : string :=
  foldr (fun b out => out +:+ show_bit b) ""%string de.

Record difference_expression_generator := {
  m_F : maxnat_t;
  m_S : maxnat_t
}.

Definition new_generator (F : maxnat_t) : difference_expression_generator :=
  {| m_F := F; m_S := power 2 F |}.

(** [operator()(f)]: the bitstring of feature [f], system 1 first. *)
Definition bitstring_step (stride : maxnat_t)
    (st : list bool * N * bool) : list bool * N * bool :=
  let '(bitstring, counter, bit) := st in
  let bitstring := bitstring ++ [bit] in
  let counter := wrap64 (counter + 1) in
  if counter =? stride then (bitstring, 0, negb bit)
  else (bitstring, counter, bit).

Definition expression (dg : difference_expression_generator) (f : maxnat_t)
  : result difference_expression_t :=
  if m_F dg <? f then Throw invalid_argument
  else
    let stride := power 2 (wrap64 (f + 2 ^ 64 - 1)) in
    Ok (fst (fst (N.iter (m_S dg) (bitstring_step stride) ([], 0, false)))).

(** [operator()(f,s)]: the bit of system [s] in that bitstring. *)
Definition expression_bit (dg : difference_expression_generator)
    (f s : maxnat_t) : result bool :=
  if m_F dg <? f then Throw invalid_argument
  else if m_S dg <? s then Throw invalid_argument
  else
    let stride := power 2 (wrap64 (f + 2 ^ 64 - 1)) in
    Ok (ceil_div s stride mod 2 =? 0).

(** The text written to [fl_<F>_F.csv]. *)
Definition print_independent_features (dg : difference_expression_generator)
  : result string :=
  for_each
    (fun os f =>
       de ← expression dg f;
       Ok (os +:+ "f" +:+ pretty f +:+ tab +:+ show de +:+ endl))
    (range 1 (N.to_nat (m_F dg))) ""%string.

Definition print_independent_features_alt
    (dg : difference_expression_generator) : result string :=
  for_each
    (fun os f =>
       let os := os +:+ "f" +:+ pretty f +:+ tab in
       os ← for_each
              (fun os i =>
                 (* s runs from S down to 2 *)
                 b ← expression_bit dg f (m_S dg - i);
                 Ok (os +:+ show_bit b))
              (range 0 (N.to_nat (m_S dg) - 1)) os;
       Ok (os +:+ endl))
    (range 1 (N.to_nat (m_F dg))) ""%string.

(** The text written to [fl_<F>_N.csv]. *)
Definition print_not_features (dg : difference_expression_generator)
  : result string :=
  for_each
    (fun os f =>
       de ← expression dg f;
       Ok (os +:+ "!f" +:+ pretty f +:+ tab +:+ show (bit_not de) +:+ endl))
    (range 1 (N.to_nat (m_F dg))) ""%string.

(** The four printers of dependent features have one body: the
    expression of the first feature of the combination, complemented or
    not, combined with those of the further features by [&=] or [|=],
    and a name built from the prefixes [first] and [further].  The
    indices of the combination count from 0, the features from 1. *)
Definition dependent_line (dg : difference_expression_generator)
    (complement : bool)
    (assign : difference_expression_t -> difference_expression_t ->
              result difference_expression_t)
    (first further : string) (features : list combination_element_t)
  : result string :=
  let operand := fun e : N =>
    de ← expression dg (wrap64 (e + 1));
    Ok (if complement then bit_not de else de) in
  f0 ← at_ features 0;
  start ← operand f0;
  '(res, i) ← for_each
      (fun (st : difference_expression_t * string) e =>
         de ← operand e;
         res ← assign (fst st) de;
         Ok (res, snd st +:+ further +:+ pretty (e + 1)))
      (drop 1 features) (start, first +:+ pretty (f0 + 1));
  Ok (i +:+ tab +:+ show res +:+ endl).

(** [for (f = 2; f <= dg.F(); ++f) { combination_t c(dg.F(),f); do ...
    while (c.next()); }]; the arguments of the constructor are converted
    to [unsigned short]; every inner loop is given [2 ^ F] iterations. *)
Definition print_dependent (dg : difference_expression_generator)
    (line : list combination_element_t -> result string) : result string :=
  lines ← for_each
    (fun out f =>
       c ← new_combination (wrap16 (m_F dg)) (wrap16 f);
       do_while_next (2 ^ N.to_nat (m_F dg))%nat line c out)
    (range 2 (N.to_nat (m_F dg) - 1)) [];
  Ok (fold_left String.append lines ""%string).

Definition print_and_features (dg : difference_expression_generator)
  : result string :=
  print_dependent dg (dependent_line dg false bit_and_assign "f" "*f").

Definition print_or_features (dg : difference_expression_generator)
  : result string :=
  print_dependent dg (dependent_line dg false bit_or_assign "f" "+f").

Definition print_and_not_features (dg : difference_expression_generator)
  : result string :=
  print_dependent dg (dependent_line dg true bit_and_assign "!f" "*!f").

Definition print_or_not_features (dg : difference_expression_generator)
  : result string :=
  print_dependent dg (dependent_line dg true bit_or_assign "!f" "+!f").

End fl.

Import features.

(** * Auxiliary notions of the properties *)

(** The five predicates of a model. *)
Definition flags (M : N) : bool * bool * bool * bool * bool :=
  (hasO M, hasA M, hasN M, hasON M, hasAN M).

(** The model of the catalog whose five predicates are given, when there
    is one. *)
Definition model_of_flags (f : bool * bool * bool * bool * bool) : option N :=
  head (filter (fun M => flags M = f) (range 1 19)).

(** A fallible test that returned [true]. *)
Definition holds (r : result bool) : bool :=
  match r with Ok b => b | Throw _ => false end.

(** An object without features, the default of [get_ok]. *)
Definition no_location : feature_location_t.t :=
  {| feature_location_t.m_n := 0; feature_location_t.m_F := 0;
     feature_location_t.m_M := 0; feature_location_t.m_S := 0;
     feature_location_t.m_O := 0; feature_location_t.m_A := 0;
     feature_location_t.m_N := 0; feature_location_t.m_ON := 0;
     feature_location_t.m_AN := 0; feature_location_t.m_I := 0;
     feature_location_t.m_T := 0; feature_location_t.m_D := 0;
     feature_location_t.m_raw_independent_features := [];
     feature_location_t.m_raw_dependent_features := [];
     feature_location_t.m_all_systems := [] |}.

(** The base object built for [n] features and model [m]. *)
Definition location (n m : N) : feature_location_t.t :=
  get_ok no_location (feature_location_t.new n m).

(** An object with another model id. *)
Definition with_M (m : N) (o : feature_location_t.t) : feature_location_t.t :=
  {| feature_location_t.m_n := feature_location_t.m_n o;
     feature_location_t.m_F := feature_location_t.m_F o;
     feature_location_t.m_M := m;
     feature_location_t.m_S := feature_location_t.m_S o;
     feature_location_t.m_O := feature_location_t.m_O o;
     feature_location_t.m_A := feature_location_t.m_A o;
     feature_location_t.m_N := feature_location_t.m_N o;
     feature_location_t.m_ON := feature_location_t.m_ON o;
     feature_location_t.m_AN := feature_location_t.m_AN o;
     feature_location_t.m_I := feature_location_t.m_I o;
     feature_location_t.m_T := feature_location_t.m_T o;
     feature_location_t.m_D := feature_location_t.m_D o;
     feature_location_t.m_raw_independent_features :=
       feature_location_t.m_raw_independent_features o;
     feature_location_t.m_raw_dependent_features :=
       feature_location_t.m_raw_dependent_features o;
     feature_location_t.m_all_systems := feature_location_t.m_all_systems o |}.

(** What the constructor gives without features: one system, no feature. *)
Definition empty_taxonomy (r : result feature_location_t.t) : bool :=
  match r with
  | Ok o =>
      (feature_location_t.m_S o =? 1) && (feature_location_t.m_T o =? 0)
      && bool_decide (feature_location_t.m_all_systems o = [[]])
  | Throw _ => false
  end.

(** What the constructor gives for [n] features when no category of
    dependent features is active. *)
Definition independent_taxonomy (n : N) (r : result feature_location_t.t)
  : bool :=
  match r with
  | Ok o =>
      (feature_location_t.m_T o =? n) && (feature_location_t.m_I o =? 0)
      && (feature_location_t.m_S o =? 2 ^ n)
      && (N.of_nat (length (feature_location_t.m_all_systems o)) =? 2 ^ n)
  | Throw _ => false
  end.

(** The triple kept for the difference id [e] whose evaluation is [r]. *)
Definition kept (o : feature_location_t.t) (r : N -> gset string) (e : N)
  : system_feature_difference_t :=
  {| difference_id := e;
     sfd_feature := default ""%string (head (set_elements (r e)));
     difference := feature_location_differences_t.generate_difference o e |}.

(** The evaluation of the difference with id [e], empty if it throws. *)
Definition evaluation (o : feature_location_t.t) (e : N) : gset string :=
  get_ok ∅
    (feature_location_differences_t.evaluate_difference o
       (feature_location_differences_t.generate_difference o e)).

(** An inconsistent object: one system, S1, defined by two features that
    no other system tells apart. *)
Definition inconsistent_location : feature_location_t.t :=
  {| feature_location_t.m_n := 0; feature_location_t.m_F := 0;
     feature_location_t.m_M := 1; feature_location_t.m_S := 1;
     feature_location_t.m_O := 0; feature_location_t.m_A := 0;
     feature_location_t.m_N := 0; feature_location_t.m_ON := 0;
     feature_location_t.m_AN := 0; feature_location_t.m_I := 0;
     feature_location_t.m_T := 2; feature_location_t.m_D := 2;
     feature_location_t.m_raw_independent_features := [];
     feature_location_t.m_raw_dependent_features := [];
     feature_location_t.m_all_systems := [["a"; "b"]] |}.

(** ** Combinations *)

(** A strictly increasing list of elements of [lo, hi). *)
Fixpoint comb_in (lo hi : N) (st : list N) : Prop :=
  match st with
  | [] => True
  | x :: rest => lo <= x < hi /\ comb_in (x + 1) hi rest
  end.

(** A [k]-combination of {0 .. n-1}, as the generators represent it. *)
Definition is_combination (n k : N) (st : list N) : Prop :=
  N.of_nat (length st) = k /\ comb_in 0 n st.

(** The strict lexicographic order of index tuples. *)
Fixpoint lex_lt (a b : list N) : Prop :=
  match a, b with
  | [], _ :: _ => True
  | x :: a', y :: b' => x < y \/ (x = y /\ lex_lt a' b')
  | _, [] => False
  end.

(** The lexicographically last [k]-combination of {0 .. n-1}. *)
Definition last_combination (n k : N) : list N := range (n - k) (N.to_nat k).

(** The successor of a combination by the textbook rule: advance the
    rightmost position that can advance, restart the positions after it. *)
Fixpoint lex_next (n : N) (st : list N) : option (list N) :=
  match st with
  | [] => None
  | v :: rest =>
      match lex_next n rest with
      | Some rest' => Some (v :: rest')
      | None =>
          if v + 1 + N.of_nat (length rest) <? n
          then Some (range (v + 1) (S (length rest)))
          else None
      end
  end.

(** The [k]-combinations of [lo, lo + m) in lexicographic order. *)
Fixpoint combs_from (lo : N) (m k : nat) {struct m} : list (list N) :=
  match k with
  | O => [[]]
  | S k' =>
      match m with
      | O => []
      | S m' =>
          (cons lo <$> combs_from (lo + 1) m' k') ++ combs_from (lo + 1) m' k
      end
  end.

Definition all_combinations (n k : N) : list (list N) :=
  combs_from 0 (N.to_nat n) (N.to_nat k).

(** The number of [k]-subsets of a set of [n] elements, by Pascal's rule. *)
Fixpoint binomial (n k : nat) : nat :=
  match k with
  | O => 1
  | S k' =>
      match n with
      | O => 0
      | S n' => binomial n' k' + binomial n' k
      end
  end.

(** The symbols selected by a state. *)
Definition select {T} (symbols : list T) (st : list N) : list T :=
  omap (fun e => symbols !! N.to_nat e) st.

(** ** Evaluation of differences *)

(** [system2features] accepts the name of system [n] and reads [n] back. *)
Definition name_check (n : N) : bool :=
  let s := system_name n in
  negb ((String.length s <? String.length system + 1)%nat
        || negb (String.prefix system s))
  && match feature_location_differences_t.stoull
             (feature_location_differences_t.erase_front
                (String.length system) s) with
     | Ok v => v =? n
     | Throw _ => false
     end.

(** The features of the system named [x], none if [x] names no system. *)
Definition features_of (o : feature_location_t.t) (x : string) : gset string :=
  get_ok ∅ (feature_location_differences_t.system2features o x).

(** The membership of the feature [g] in the systems, as a bit pattern:
    bit [p] tells whether system [p + 1] contains [g]. *)
Definition membership (systems : list (list string)) (g : string) : N :=
  foldr (fun fs acc => 2 * acc + N.b2n (contains fs g)) 0 systems.

(** The step of the loops that split the systems by the bits of [e]: the
    system named [name position] goes to the intersection part when bit
    [position] of [e] is set, to the union part otherwise. *)
Definition split_step (name : N -> string) (e : N)
    (d : systems_difference_t) (position : N) : systems_difference_t :=
  if bool_decide (N.land e (N.shiftl 1 position) ≠ 0)
  then {| intersections := {[ name position ]} ∪ intersections d;
          unions := unions d |}
  else {| intersections := intersections d;
          unions := {[ name position ]} ∪ unions d |}.

(** ** The feature universes of the strategies *)

(** The sorted names of all features, as the constructor of the
    enumeration strategy collects them. *)
Definition isolation_names (b : feature_location_t.t) : result (list string) :=
  ors ← feature_location_isolation_t.generate_or_features b;
  ands ← feature_location_isolation_t.generate_and_features b;
  or_nots ← feature_location_isolation_t.generate_or_not_features b;
  and_nots ← feature_location_isolation_t.generate_and_not_features b;
  Ok (sort (concat (concat (concat (concat (concat (concat []
        (feature_location_isolation_t.generate_independent_features b))
        ors) ands)
        (feature_location_isolation_t.generate_not_features b))
        or_nots) and_nots)).

(** The names and bit patterns of all features, as the constructor of the
    closed-form strategy collects them. *)
Definition calculation_features (b : feature_location_t.t)
  : result (list (string * N)) :=
  let bitmask := feature_location_calculation_t.initialize_bitmask b in
  let independent :=
    feature_location_calculation_t.calculate_independent_features b in
  ors ← feature_location_calculation_t.calculate_or_features b independent;
  ands ← feature_location_calculation_t.calculate_and_features b independent;
  let nots :=
    feature_location_calculation_t.calculate_not_features b independent
      bitmask in
  or_nots ← feature_location_calculation_t.calculate_or_not_features b nots;
  and_nots ← feature_location_calculation_t.calculate_and_not_features b nots
               bitmask;
  Ok (concat (concat (concat (concat (concat (concat [] independent) ors)
        ands) nots) or_nots) and_nots).

(** The facts about the taxonomy of [n] features and model [m] that are
    decided by evaluation: the systems are as many as [S], at most 64;
    [D] is [2 ^ S], or 0 after the wrap-around for six features; every
    feature of a system is a feature of the universe; no two features
    have the same membership pattern and none is in no system; the
    closed-form strategy has the same names and, as bit patterns, the
    membership patterns. *)
Definition taxonomy_check (n m : N) : bool :=
  match feature_location_t.new n m with
  | Ok b =>
      match isolation_names b, calculation_features b with
      | Ok all, Ok call =>
          let systems := feature_location_t.m_all_systems b in
          let masks := membership systems <$> all in
          (N.of_nat (length systems) =? feature_location_t.m_S b)
          && (feature_location_t.m_S b <=? 64)
          && (feature_location_t.m_D b
              =? if n <? 6 then 2 ^ feature_location_t.m_S b else 0)
          && forallb (fun fs => forallb (contains all) fs) systems
          && bool_decide (NoDup masks)
          && forallb (fun v => 0 <? v) masks
          && bool_decide (sort (fst <$> call) = all)
          && forallb (fun gv => snd gv =? membership systems (fst gv)) call
      | _, _ => false
      end
  | Throw _ => false
  end.

(** The facts decided by [taxonomy_check], as propositions about the base
    object [b], the feature names [all] of the enumeration strategy and
    the features [call] of the closed-form strategy. *)
Record checked (n : N) (b : feature_location_t.t) (all : list string)
    (call : list (string * N)) : Prop := {
  checked_length :
    N.of_nat (length (feature_location_t.m_all_systems b))
    = feature_location_t.m_S b;
  checked_64 : feature_location_t.m_S b <= 64;
  checked_D :
    feature_location_t.m_D b
    = if n <? 6 then 2 ^ feature_location_t.m_S b else 0;
  checked_closed :
    forall fs g, fs ∈ feature_location_t.m_all_systems b -> g ∈ fs -> g ∈ all;
  checked_distinct :
    NoDup (membership (feature_location_t.m_all_systems b) <$> all);
  checked_present :
    forall g, g ∈ all -> 0 < membership (feature_location_t.m_all_systems b) g;
  checked_names : sort (fst <$> call) = all;
  checked_values :
    forall g v, (g, v) ∈ call ->
                v = membership (feature_location_t.m_all_systems b) g
}.

(** ** Auxiliary notions of the further properties *)

(** Row [n] of Pascal's triangle: the binomial coefficients of [n]. *)
Fixpoint pascal_row (n : nat) : list N :=
  match n with
  | O => [1]
  | S n' => let r := pascal_row n' in zip_with N.add (0 :: r) (r ++ [0])
  end.

(** The number whose set bits are at the positions [x - 1], [x] in [v]:
    the inverse of [unsigned2vector]. *)
Definition vector2unsigned (v : list N) : N :=
  foldr (fun x acc => N.lor (N.shiftl 1 (x - 1)) acc) 0 v.

(** The elements of [l] with [sep] between them. *)
Fixpoint join (sep : string) (l : list string) : string :=
  match l with
  | [] => ""
  | [x] => x
  | x :: l' => x +:+ sep +:+ join sep l'
  end.

(** The index tuples of the dependent features of [n] features: the
    combinations of the sizes 2 .. n, size after size. *)
Definition dependent_combinations (n : N) : list (list N) :=
  range 2 (N.to_nat n - 1) ≫= all_combinations n.

(** The same tuples over the feature ids 1 .. n. *)
Definition raw_dependent (n : N) : list (list N) :=
  (fun c : list N => N.succ <$> c) <$> dependent_combinations n.

(** [f 0 + ... + f (k - 1)] *)
Fixpoint sum_to (f : nat -> nat) (k : nat) : nat :=
  match k with
  | O => O
  | S k' => (sum_to f k' + f k')%nat
  end.

(** The bitstring of a dependent feature of [fl.cpp]: system [p + 1] has
    the feature when all, or when one, of the features of the combination
    [c] (counted from 0), complemented or not, are in the system. *)
Definition dependent_bits (quantifier : (N -> bool) -> list N -> bool)
    (complement : bool) (F : N) (c : list N) : list bool :=
  (fun p => quantifier (fun e => xorb complement (N.testbit p e)) c)
    <$> range 0 (N.to_nat (2 ^ F)).

(** Its name: the numbers of the features with their prefixes. *)
Definition dependent_name (first further : string) (c : list N) : string :=
  first +:+ join further ((fun e => pretty (e + 1)) <$> c).

(** A line of the files written by [fl.cpp]. *)
Definition csv_line (name : string) (bits : list bool) : string :=
  name +:+ tab +:+ fl.show bits +:+ endl.

(** The bitstring of the independent feature [f] of [fl.cpp], system 1
    first. *)
Definition independent_bits (F f : N) : list bool :=
  (fun p => N.testbit p (f - 1)) <$> range 0 (N.to_nat (2 ^ F)).

(** * Properties *)

(** ** Loops *)

Lemma for_each_app {A St} (body : St -> A -> result St) l1 l2 st :
  for_each body (l1 ++ l2) st = for_each body l1 st ≫= for_each body l2.
Proof.
  revert st. induction l1 as [|x l1 IH]; intros st; simpl; [done|].
  destruct (body st x); simpl; [apply IH | done].
Qed.

Lemma range_length lo len : length (range lo len) = len.
Proof. unfold range. by rewrite length_fmap, length_seq. Qed.

Lemma range_lookup lo len i :
  (i < len)%nat -> range lo len !! i = Some (lo + N.of_nat i).
Proof.
  intros H. unfold range. rewrite list_lookup_fmap, lookup_seq_lt by done.
  done.
Qed.

Lemma range_snoc lo len :
  range lo (S len) = range lo len ++ [lo + N.of_nat len].
Proof. unfold range. by rewrite seq_S, fmap_app. Qed.

Lemma elem_of_range lo len x :
  x ∈ range lo len ↔ lo <= x < lo + N.of_nat len.
Proof.
  unfold range. rewrite list_elem_of_fmap. split.
  - intros (i & -> & Hi). apply elem_of_seq in Hi. lia.
  - intros H. exists (N.to_nat (x - lo)). split; [lia|].
    apply elem_of_seq. lia.
Qed.

Lemma for_range_iter {St} (body : N -> St -> result St) n lo st :
  N.iter n
    (fun p : N * result St => (N.succ (fst p), snd p ≫= body (fst p)))
    (lo, Ok st)
  = (lo + n, for_each (fun st e => body e st) (range lo (N.to_nat n)) st).
Proof.
  induction n as [|n IH] using N.peano_ind.
  - simpl. by rewrite N.add_0_r.
  - rewrite N.iter_succ, IH. simpl.
    rewrite N2Nat.inj_succ, range_snoc, for_each_app, N2Nat.id.
    f_equal; [lia|].
    destruct (for_each _ _ st) as [st'|e]; simpl; [|done].
    by destruct (body (lo + n) st').
Qed.

(** A counted loop is the traversal of its index range. *)
Lemma for_range_for_each {St} lo hi (body : N -> St -> result St) st :
  for_range lo hi body st
  = for_each (fun st e => body e st) (range lo (N.to_nat (hi - lo))) st.
Proof. unfold for_range. by rewrite for_range_iter. Qed.

(** ** Bit patterns *)

(** A number is below [2 ^ S] when it has no bit from position [S] on. *)
Lemma below_pow2_bits x S :
  x < 2 ^ S <-> (forall i, S <= i -> N.testbit x i = false).
Proof.
  split.
  - intros Hx i Hi. rewrite <- (N.mod_small x (2 ^ S)) by done.
    by apply N.mod_pow2_bits_high.
  - intros Hbits.
    assert (E : x = x mod 2 ^ S).
    { apply N.bits_inj. intros i. destruct (N.lt_ge_cases i S).
      - by rewrite N.mod_pow2_bits_low.
      - by rewrite N.mod_pow2_bits_high, Hbits. }
    rewrite E. apply N.mod_lt. by apply N.pow_nonzero.
Qed.

(** ** The model catalog *)

(** A property of the models 1..19 is checked on the list of them. *)
Lemma model_cases (P : N -> bool) (M : N) :
  forallb P (range 1 19) = true -> 1 <= M <= 19 -> P M = true.
Proof.
  intros HP HM. rewrite forallb_forall in HP. apply HP.
  apply list_elem_of_In, elem_of_range. lia.
Qed.

Lemma model_of_flags_flags M :
  1 <= M <= 19 -> model_of_flags (flags M) = Some M.
Proof.
  intros HM.
  pose (P := fun x : N => bool_decide (model_of_flags (flags x) = Some x)).
  assert (H : P M = true)
    by (apply model_cases; [vm_compute; reflexivity | done]).
  by apply bool_decide_eq_true in H.
Qed.

(** C10: in every model of the catalog the or-not- and the and-not-features
    come with the not-features, and no two of the 19 models have the same
    five predicates. *)
Theorem catalog_prerequisites_and_distinct :
  (forall M, 1 <= M <= 19 ->
     (hasON M = true -> hasN M = true) /\ (hasAN M = true -> hasN M = true)) /\
  (forall M M', 1 <= M <= 19 -> 1 <= M' <= 19 ->
     (hasO M, hasA M, hasN M, hasON M, hasAN M)
     = (hasO M', hasA M', hasN M', hasON M', hasAN M') -> M = M').
Proof.
  split.
  - intros M HM.
    pose (P := fun x : N =>
                 implb (hasON x) (hasN x) && implb (hasAN x) (hasN x)).
    assert (H : P M = true)
      by (apply model_cases; [vm_compute; reflexivity | done]).
    unfold P in H. apply andb_true_iff in H as [H1 H2].
    split; intros E; rewrite E in *; simpl in *; done.
  - intros M M' HM HM' Heq.
    assert (H : model_of_flags (flags M) = model_of_flags (flags M'))
      by (unfold flags; by rewrite Heq).
    rewrite !model_of_flags_flags in H by done. congruence.
Qed.

Lemma catalog_prerequisites_and_distinct_witness :
  ((hasON 9 = true -> hasN 9 = true) /\ (hasAN 9 = true -> hasN 9 = true)) /\
  ((hasO 9, hasA 9, hasN 9, hasON 9, hasAN 9)
   = (hasO 9, hasA 9, hasN 9, hasON 9, hasAN 9) -> 9 = 9).
Proof.
  split.
  - apply (proj1 catalog_prerequisites_and_distinct 9). lia.
  - apply (proj2 catalog_prerequisites_and_distinct 9 9); lia.
Defined.

(** ** Concrete scenarios *)

(** C5, as the code has it: with two independent features and model 8 the
    catalog activates the or-, and- and not-features only; there are four
    systems, the features f1, f2, "f1 + f2", "f1 * f2", !f1 and !f2, six
    in total; the system without features is defined by !f1 and !f2 and
    the system with both by f1, f2, "f1 + f2" and "f1 * f2". *)
Theorem scenario_two_features_model_8 :
  let iso := feature_location_isolation_t.new 2 8 in
  let b := feature_location_t.new 2 8 in
  hasO 8 = true /\ hasA 8 = true /\ hasN 8 = true /\
  hasON 8 = false /\ hasAN 8 = false /\
  feature_location_t.m_S <$> b = Ok 4 /\
  feature_location_isolation_t.m_independent_features <$> iso
    = Ok ["f1"; "f2"] /\
  feature_location_isolation_t.m_or_features <$> iso = Ok ["f1 + f2"] /\
  feature_location_isolation_t.m_and_features <$> iso = Ok ["f1 * f2"] /\
  feature_location_isolation_t.m_not_features <$> iso = Ok ["!f1"; "!f2"] /\
  feature_location_isolation_t.m_or_not_features <$> iso = Ok [] /\
  feature_location_isolation_t.m_and_not_features <$> iso = Ok [] /\
  feature_location_t.m_T <$> b = Ok 6 /\
  (fun b => feature_location_t.m_all_systems b !! 0%nat) <$> b
    = Ok (Some ["!f1"; "!f2"]) /\
  (fun b => feature_location_t.m_all_systems b !! 3%nat) <$> b
    = Ok (Some ["f1"; "f1 * f2"; "f1 + f2"; "f2"]) /\
  ["f1"; "f1 * f2"; "f1 + f2"; "f2"] ≡ₚ ["f1"; "f2"; "f1 + f2"; "f1 * f2"].
Proof.
  vm_compute. repeat split.
  apply perm_skip.
  change (reverse ["f2"; "f1 + f2"; "f1 * f2"] ≡ₚ ["f2"; "f1 + f2"; "f1 * f2"]).
  apply reverse_Permutation.
Qed.

(** C5 as stated fails on the total: the six features are not five. *)
Lemma scenario_two_features_total_not_5 :
  ~ exists b, feature_location_t.new 2 8 = Ok b /\ feature_location_t.m_T b = 5.
Proof.
  intros (b & Hb & HT). vm_compute in Hb.
  injection Hb as <-. vm_compute in HT. discriminate.
Qed.

(** C6, as the code has it: for three features the bitstring of f2 has
    stride 2 and reads 00110011 from system 1 to system 8, printed
    11001100; the systems 3, 4, 7 and 8 are marked.  The per-system
    closed form, the bit pattern 204 of the closed-form strategy and the
    membership of f2 in the systems of every model agree with it. *)
Theorem scenario_f2_of_three :
  let dg := fl.new_generator 3 in
  fl.power 2 (2 - 1) = 2 /\
  fl.m_S dg = 8 /\
  fl.expression dg 2
    = Ok [false; false; true; true; false; false; true; true] /\
  fl.show <$> fl.expression dg 2 = Ok "11001100"%string /\
  mapM (fl.expression_bit dg 2) (range 1 8)
    = Ok [false; false; true; true; false; false; true; true] /\
  filter (fun s => holds (fl.expression_bit dg 2 s) = true) (range 1 8)
    = [3; 4; 7; 8] /\
  Forall
    (fun M =>
       (fun b => (fun s => contains s "f2"%string)
                   <$> feature_location_t.m_all_systems b)
         <$> feature_location_t.new 3 M
       = Ok [false; false; true; true; false; false; true; true] /\
       (fun c => feature_location_calculation_t.m_independent_features c !! 1%nat)
         <$> feature_location_calculation_t.new 3 M
       = Ok (Some ("f2"%string, 204)))
    (range 1 19) /\
  N.testbit 204 <$> range 0 8
    = [false; false; true; true; false; false; true; true].
Proof.
  intros dg. do 6 (split; [vm_compute; reflexivity|]).
  split; [|vm_compute; reflexivity].
  repeat (constructor; [split; vm_compute; reflexivity|]). constructor.
Qed.

(** C6 as stated fails: the bitstring is not 01100110. *)
Lemma scenario_f2_of_three_not_01100110 :
  fl.expression (fl.new_generator 3) 2
  <> Ok [false; true; true; false; false; true; true; false].
Proof. vm_compute. discriminate. Qed.

(** C7 at its failing input: for one feature the first printer writes the
    two bits of the two systems, the alternative printer writes only the
    bit of system 2; for three features it writes seven bits, not eight. *)
Theorem print_independent_features_alt_drops_system_1 :
  fl.print_independent_features (fl.new_generator 1)
    = Ok ("f1" +:+ tab +:+ "10" +:+ endl) /\
  fl.print_independent_features_alt (fl.new_generator 1)
    = Ok ("f1" +:+ tab +:+ "1" +:+ endl) /\
  fl.print_independent_features (fl.new_generator 3)
    = Ok ("f1" +:+ tab +:+ "10101010" +:+ endl +:+
          "f2" +:+ tab +:+ "11001100" +:+ endl +:+
          "f3" +:+ tab +:+ "11110000" +:+ endl) /\
  fl.print_independent_features_alt (fl.new_generator 3)
    = Ok ("f1" +:+ tab +:+ "1010101" +:+ endl +:+
          "f2" +:+ tab +:+ "1100110" +:+ endl +:+
          "f3" +:+ tab +:+ "1111000" +:+ endl).
Proof. vm_compute. repeat split. Qed.

(** ** Complementation *)

Lemma low_bits_ones n :
  fold_left (fun bitmask s => N.lor bitmask (N.shiftl 1 s)) (range 0 n) 0
  = N.ones (N.of_nat n).
Proof.
  induction n as [|n IH]; [done|].
  rewrite range_snoc, fold_left_app, IH. simpl.
  apply N.bits_inj. intros i.
  rewrite N.lor_spec, N.shiftl_1_l, N.pow2_bits_eqb, N.add_0_l.
  destruct (N.lt_ge_cases i (N.of_nat (S n))) as [Hi|Hi].
  - rewrite (N.ones_spec_low (N.of_nat (S n))) by done.
    destruct (N.lt_ge_cases i (N.of_nat n)).
    + by rewrite N.ones_spec_low.
    + rewrite N.ones_spec_high by done.
      replace i with (N.of_nat n) by lia. by rewrite N.eqb_refl.
  - rewrite !N.ones_spec_high by lia.
    destruct (N.eqb_spec (N.of_nat n) i); [lia|done].
Qed.

Lemma initialize_bitmask_ones b :
  feature_location_calculation_t.initialize_bitmask b
  = N.lnot (N.ones (feature_location_t.m_S b)) 64.
Proof.
  unfold feature_location_calculation_t.initialize_bitmask.
  by rewrite low_bits_ones, N2Nat.id.
Qed.

(** Within the [S] low bits the not-transform is the complement. *)
Lemma not_value_lnot S v :
  S <= 64 -> v < 2 ^ S ->
  feature_location_calculation_t.not_value v (N.lnot (N.ones S) 64)
  = N.lnot v S.
Proof.
  intros HS Hv. unfold feature_location_calculation_t.not_value.
  pose proof (proj1 (below_pow2_bits v S) Hv) as Hhigh.
  apply N.bits_inj. intros i.
  destruct (N.lt_ge_cases i S) as [Hi|Hi].
  - rewrite (N.lnot_spec_low _ S) by done.
    rewrite N.lnot_spec_low, N.lxor_spec, N.lnot_spec_low by lia.
    rewrite N.ones_spec_low by done. simpl. by rewrite xorb_false_r.
  - rewrite (N.lnot_spec_high _ S) by done. rewrite Hhigh by done.
    destruct (N.lt_ge_cases i 64) as [Hi'|Hi'].
    + rewrite N.lnot_spec_low, N.lxor_spec, N.lnot_spec_low by lia.
      rewrite N.ones_spec_high, Hhigh by done. done.
    + rewrite N.lnot_spec_high, N.lxor_spec, N.lnot_spec_high by lia.
      rewrite N.ones_spec_high, Hhigh by lia. done.
Qed.

Lemma lnot_below S v : v < 2 ^ S -> N.lnot v S < 2 ^ S.
Proof.
  intros Hv. apply below_pow2_bits. intros i Hi.
  rewrite N.lnot_spec_high by done. by apply (below_pow2_bits v S).
Qed.

Lemma bit_not_negb_from (pre l : list bool) :
  foldl (fun de i => match de !! i with
                     | Some b => <[ i := negb b ]> de
                     | None => de
                     end)
    (pre ++ l) (seq (length pre) (length l))
  = pre ++ (negb <$> l).
Proof.
  revert pre. induction l as [|x l IH]; intros pre; [done|].
  simpl. rewrite list_lookup_middle by done.
  rewrite insert_app_r_alt, Nat.sub_diag by done. simpl.
  specialize (IH (pre ++ [negb x])).
  rewrite length_app, Nat.add_1_r, <- !(assoc_L (++)) in IH. apply IH.
Qed.

(** [operator~] negates every element. *)
Lemma bit_not_negb de : fl.bit_not de = negb <$> de.
Proof. apply (bit_not_negb_from [] de). Qed.

(** C9: applied twice to a bitstring of [S] bits, the not-transform of the
    closed-form strategy gives the bitstring back, and its result has no
    bit above the [S] low ones; [operator~] of [fl.cpp] applied twice gives
    the vector back and keeps its length. *)
Theorem complement_involutive :
  (forall (b : feature_location_t.t) (v : N),
     feature_location_t.m_S b <= 64 ->
     v < 2 ^ feature_location_t.m_S b ->
     let mask := feature_location_calculation_t.initialize_bitmask b in
     feature_location_calculation_t.not_value
       (feature_location_calculation_t.not_value v mask) mask = v /\
     feature_location_calculation_t.not_value v mask
       < 2 ^ feature_location_t.m_S b) /\
  (forall de : list bool,
     fl.bit_not (fl.bit_not de) = de /\
     length (fl.bit_not de) = length de).
Proof.
  split.
  - intros b v HS Hv mask. unfold mask.
    rewrite initialize_bitmask_ones.
    rewrite (not_value_lnot _ v) by done.
    rewrite not_value_lnot by (done || by apply lnot_below).
    split; [apply N.lnot_involutive | by apply lnot_below].
  - intros de. rewrite !bit_not_negb. split.
    + rewrite <- list_fmap_compose. rewrite <- (list_fmap_id de) at 2.
      apply list_fmap_ext. intros _ x _. apply negb_involutive.
    + apply length_fmap.
Qed.

Lemma complement_involutive_witness :
  let mask := feature_location_calculation_t.initialize_bitmask (location 2 8) in
  feature_location_calculation_t.not_value
    (feature_location_calculation_t.not_value 10 mask) mask = 10 /\
  feature_location_calculation_t.not_value 10 mask < 2 ^ 4.
Proof.
  apply (proj1 complement_involutive (location 2 8) 10); vm_compute; done.
Defined.

(** ** Construction *)

Lemma flags_outside_catalog m : ~ (1 <= m <= 19) -> flags m = flags 1.
Proof.
  intros Hm. unfold flags, hasO, hasA, hasN, hasON, hasAN.
  repeat match goal with
         | |- context [m =? ?c] =>
             rewrite (proj2 (N.eqb_neq m c)) by lia
         end.
  reflexivity.
Qed.

Lemma flags_in_catalog m : exists m', 1 <= m' <= 19 /\ flags m = flags m'.
Proof.
  destruct (decide (1 <= m <= 19)) as [Hm|Hm].
  - by exists m.
  - exists 1. split; [lia | by apply flags_outside_catalog].
Qed.

(** The per-system derivation reads the model only through the five
    predicates. *)
Lemma generate_system_flags o m f :
  flags (feature_location_t.m_M o) = flags m ->
  feature_location_t.generate_system (with_M m o) f
  = feature_location_t.generate_system o f.
Proof.
  unfold flags. intros [= HO HA HN HON HAN].
  unfold feature_location_t.generate_system,
    feature_location_t.generate_or_features,
    feature_location_t.generate_and_features,
    feature_location_t.generate_not_features,
    feature_location_t.generate_or_not_features,
    feature_location_t.generate_and_not_features.
  cbn [with_M feature_location_t.m_M feature_location_t.m_n
       feature_location_t.m_raw_dependent_features].
  by rewrite HO, HA, HN, HON, HAN.
Qed.

Lemma mapM_result_ext {A B} (f g : A -> result B) l :
  (forall x, f x = g x) -> mapM f l = mapM g l.
Proof.
  intros H. induction l as [|x l IH]; [done|].
  simpl. by rewrite H, IH.
Qed.

(** Two model ids with the same predicates give the same taxonomy. *)
Lemma new_flags n m m' :
  flags m = flags m' ->
  feature_location_t.new n m = with_M m <$> feature_location_t.new n m'.
Proof.
  intros Hf. pose proof Hf as Hf'. unfold flags in Hf'.
  injection Hf' as HO HA HN HON HAN.
  unfold feature_location_t.new. rewrite HO, HA, HN, HON, HAN.
  destruct (for_all_combinations _ _ _ _) as [dep|e]; [|done].
  cbn [mbind result_bind].
  unfold feature_location_t.generate_all_systems.
  cbn [feature_location_t.m_S].
  match goal with
  | |- context [mapM (fun s => feature_location_t.generate_system ?o _) _] =>
      rewrite (mapM_result_ext
                 (fun s => feature_location_t.generate_system o
                             (unsigned2vector s))
                 (fun s => feature_location_t.generate_system (with_M m' o)
                             (unsigned2vector s)))
        by (intros s; symmetry; apply generate_system_flags; exact Hf)
  end.
  unfold with_M at 1.
  cbn [feature_location_t.m_M feature_location_t.m_n
       feature_location_t.m_F feature_location_t.m_S
       feature_location_t.m_O feature_location_t.m_A feature_location_t.m_N
       feature_location_t.m_ON feature_location_t.m_AN feature_location_t.m_I
       feature_location_t.m_T feature_location_t.m_D
       feature_location_t.m_raw_independent_features
       feature_location_t.m_raw_dependent_features
       feature_location_t.m_all_systems].
  destruct (mapM _ _) as [systems|e]; done.
Qed.

(** C4, as the code has it: the constructor validates nothing.  Without
    features it succeeds for every model id, with one system and no
    feature; with a model id outside 1..19 and up to six features it
    succeeds as for model 1, no category of dependent features being
    active. *)
Theorem construction_is_unchecked :
  (forall m, exists o,
     feature_location_t.new 0 m = Ok o /\
     feature_location_t.m_S o = 1 /\ feature_location_t.m_T o = 0 /\
     feature_location_t.m_all_systems o = [[]]) /\
  (forall n m, n <= 6 -> ~ (1 <= m <= 19) -> exists o,
     feature_location_t.new n m = Ok o /\
     feature_location_t.m_M o = m /\
     feature_location_t.new n 1 = Ok (with_M 1 o) /\
     feature_location_t.m_T o = n /\ feature_location_t.m_I o = 0 /\
     feature_location_t.m_S o = 2 ^ n /\
     N.of_nat (length (feature_location_t.m_all_systems o)) = 2 ^ n).
Proof.
  split.
  - intros m. destruct (flags_in_catalog m) as (m' & Hm' & Hf).
    rewrite (new_flags 0 m m' Hf).
    pose (P := fun x : N => empty_taxonomy (feature_location_t.new 0 x)).
    assert (H : P m' = true)
      by (apply model_cases; [vm_compute; reflexivity | done]).
    unfold P, empty_taxonomy in H.
    destruct (feature_location_t.new 0 m') as [o|e]; [|done].
    exists (with_M m o). split; [done|].
    apply andb_true_iff in H as [H H3]. apply andb_true_iff in H as [H1 H2].
    apply N.eqb_eq in H1, H2. by apply bool_decide_eq_true in H3.
  - intros n m Hn Hm.
    rewrite (new_flags n m 1 (flags_outside_catalog m Hm)).
    pose (P := fun x : N => independent_taxonomy x (feature_location_t.new x 1)).
    assert (H : P n = true).
    { assert (Hall : forallb P (range 0 7) = true) by (vm_compute; reflexivity).
      rewrite forallb_forall in Hall. apply Hall.
      apply list_elem_of_In, elem_of_range. lia. }
    unfold P, independent_taxonomy in H.
    destruct (feature_location_t.new n 1) as [o|e] eqn:Hnew; [|done].
    exists (with_M m o).
    repeat (apply andb_true_iff in H as [H ?]).
    repeat match goal with E : (_ =? _) = true |- _ => apply N.eqb_eq in E end.
    assert (HM : with_M 1 (with_M m o) = o).
    { pose proof (new_flags n 1 1 eq_refl) as E. rewrite Hnew in E.
      injection E as E. destruct o; unfold with_M in *; simpl in *.
      by rewrite <- E. }
    rewrite HM. done.
Qed.

Lemma construction_is_unchecked_witness :
  exists o,
    feature_location_t.new 2 20 = Ok o /\
    feature_location_t.m_M o = 20 /\
    feature_location_t.new 2 1 = Ok (with_M 1 o) /\
    feature_location_t.m_T o = 2 /\ feature_location_t.m_I o = 0 /\
    feature_location_t.m_S o = 2 ^ 2 /\
    N.of_nat (length (feature_location_t.m_all_systems o)) = 2 ^ 2.
Proof. apply (proj2 construction_is_unchecked 2 20); lia. Defined.

(** C4 as stated fails: neither the absence of features nor an unknown
    model id makes the constructor throw. *)
Lemma construction_without_features_succeeds :
  is_ok (feature_location_t.new 0 8) = true /\
  is_ok (feature_location_t.new 2 0) = true /\
  is_ok (feature_location_t.new 2 20) = true.
Proof. vm_compute. done. Qed.

(** ** The loop of the exhaustive strategy *)

Lemma is_ok_get_ok {A} (d : A) (r : result A) :
  is_ok r = true -> r = Ok (get_ok d r).
Proof. by destruct r. Qed.

Lemma set_elements_perm (X : gset string) : set_elements X ≡ₚ elements X.
Proof. apply merge_sort_Permutation. Qed.

Lemma elem_of_set_elements (X : gset string) x : x ∈ set_elements X <-> x ∈ X.
Proof. by rewrite set_elements_perm, elem_of_elements. Qed.

Lemma set_elements_length (X : gset string) : length (set_elements X) = size X.
Proof. by rewrite set_elements_perm. Qed.

(** The first element of a set of size one is its only element. *)
Lemma size_1_sole (X : gset string) :
  size X = 1%nat -> X = {[ default ""%string (head (set_elements X)) ]}.
Proof.
  intros HX. apply size_1_elem_of in HX as [x Hx].
  apply leibniz_equiv in Hx. subst X.
  pose proof (set_elements_perm {[ x ]}) as Hp.
  rewrite elements_singleton in Hp.
  apply Permutation_singleton_r in Hp. by rewrite Hp.
Qed.

Section keep_loop.
Variable o : feature_location_t.t.
Variable r : N -> gset string.

Local Abbreviation body :=
  (fun res e => feature_location_differences_t.keep_non_empty o e res).

Lemma keep_non_empty_ok e res :
  feature_location_differences_t.evaluate_difference o
    (feature_location_differences_t.generate_difference o e) = Ok (r e) ->
  feature_location_differences_t.keep_non_empty o e res
  = if decide (size (r e) = 0%nat) then Ok res
    else if decide (size (r e) = 1%nat) then Ok (res ++ [kept o r e])
    else Throw length_error.
Proof.
  intros He. unfold feature_location_differences_t.keep_non_empty.
  rewrite He. cbn [mbind result_bind].
  destruct (decide (size (r e) = 0%nat)) as [E|E].
  - by rewrite E.
  - destruct (Nat.ltb_spec 0 (size (r e))); [|lia].
    destruct (decide (size (r e) = 1%nat)) as [E1|E1].
    + by rewrite E1.
    + by destruct (Nat.eqb_spec (size (r e)) 1).
Qed.

Lemma keep_loop_ok l res :
  (forall e, e ∈ l ->
     feature_location_differences_t.evaluate_difference o
       (feature_location_differences_t.generate_difference o e) = Ok (r e)) ->
  (forall e, e ∈ l -> (size (r e) <= 1)%nat) ->
  for_each body l res
  = Ok (res ++ (kept o r <$> filter (fun e => size (r e) = 1%nat) l)).
Proof.
  revert res. induction l as [|e l IH]; intros res Hev Hsz.
  - simpl. by rewrite app_nil_r.
  - simpl. rewrite keep_non_empty_ok by (apply Hev; left).
    assert (Hl : forall e', e' ∈ l ->
               feature_location_differences_t.evaluate_difference o
                 (feature_location_differences_t.generate_difference o e')
               = Ok (r e')) by (intros; apply Hev; by right).
    assert (Hs : forall e', e' ∈ l -> (size (r e') <= 1)%nat)
      by (intros; apply Hsz; by right).
    rewrite filter_cons.
    destruct (decide (size (r e) = 0%nat)) as [E|E].
    + cbn [mbind result_bind]. rewrite IH by done.
      destruct (decide (size (r e) = 1%nat)); [lia|done].
    + pose proof (Hsz e ltac:(left)).
      destruct (decide (size (r e) = 1%nat)); [|lia].
      cbn [mbind result_bind]. rewrite IH by done.
      by rewrite fmap_cons, <- (assoc_L (++)).
Qed.

Lemma keep_loop_throw l res e :
  (forall e, e ∈ l ->
     feature_location_differences_t.evaluate_difference o
       (feature_location_differences_t.generate_difference o e) = Ok (r e)) ->
  e ∈ l -> (1 < size (r e))%nat ->
  for_each body l res = Throw length_error.
Proof.
  revert res. induction l as [|e' l IH]; intros res Hev Hin Hsz.
  - by apply elem_of_nil in Hin.
  - simpl. rewrite keep_non_empty_ok by (apply Hev; left).
    assert (Hl : forall e', e' ∈ l ->
               feature_location_differences_t.evaluate_difference o
                 (feature_location_differences_t.generate_difference o e')
               = Ok (r e')) by (intros; apply Hev; by right).
    destruct (decide (size (r e') = 0%nat)) as [E|E];
      [|destruct (decide (size (r e') = 1%nat)) as [E1|E1]];
      cbn [mbind result_bind]; [| |done].
    + apply elem_of_cons in Hin as [->|Hin]; [lia|]. by apply IH.
    + apply elem_of_cons in Hin as [->|Hin]; [lia|]. by apply IH.
Qed.
End keep_loop.

(** C3: the loop visits the ids 1 .. D-1 in order.  When every difference
    evaluates to at most one feature it returns, for exactly the ids whose
    evaluation has size 1, the id, the only feature of the evaluation and
    the difference, skipping the ids with an empty evaluation; when some
    evaluation has more than one feature it throws a length error. *)
Theorem non_empty_differences_keeps_singletons
    (o : feature_location_t.t) (r : N -> gset string) :
  let ids := range 1 (N.to_nat (feature_location_t.m_D o - 1)) in
  (forall e, e ∈ ids ->
     feature_location_differences_t.evaluate_difference o
       (feature_location_differences_t.generate_difference o e) = Ok (r e)) ->
  (forall e, e ∈ ids <-> 1 <= e < feature_location_t.m_D o) /\
  ((forall e, e ∈ ids -> (size (r e) <= 1)%nat) ->
     feature_location_differences_t.generate_non_empty_differences o
     = Ok (kept o r <$> filter (fun e => size (r e) = 1%nat) ids) /\
     (forall e, e ∈ ids -> size (r e) = 1%nat ->
        r e = {[ sfd_feature (kept o r e) ]})) /\
  (forall e, e ∈ ids -> (1 < size (r e))%nat ->
     feature_location_differences_t.generate_non_empty_differences o
     = Throw length_error).
Proof.
  intros ids Hev.
  unfold feature_location_differences_t.generate_non_empty_differences.
  rewrite for_range_for_each. fold ids.
  split; [|split].
  - intros e. unfold ids. rewrite elem_of_range. lia.
  - intros Hsz. split.
    + by rewrite (keep_loop_ok o r ids []).
    + intros e _ He. by apply size_1_sole.
  - intros e He Hsz. by apply (keep_loop_throw o r ids [] e).
Qed.

Lemma non_empty_differences_keeps_singletons_witness :
  (let o := location 2 8 in
   let ids := range 1 (N.to_nat (feature_location_t.m_D o - 1)) in
   (forall e, e ∈ ids -> (size (evaluation o e) <= 1)%nat) ->
   feature_location_differences_t.generate_non_empty_differences o
   = Ok (kept o (evaluation o)
           <$> filter (fun e => size (evaluation o e) = 1%nat) ids)) /\
  ((1 < size (evaluation inconsistent_location 1))%nat ->
   feature_location_differences_t.generate_non_empty_differences
     inconsistent_location = Throw length_error).
Proof.
  split.
  - intros o ids Hsz.
    apply (non_empty_differences_keeps_singletons o (evaluation o)); [|done].
    intros e He. apply is_ok_get_ok.
    assert (H : forallb
                  (fun e => is_ok
                     (feature_location_differences_t.evaluate_difference o
                        (feature_location_differences_t.generate_difference o e)))
                  ids = true) by (vm_compute; reflexivity).
    rewrite forallb_forall in H. by apply H, list_elem_of_In.
  - intros Hsz.
    apply (non_empty_differences_keeps_singletons inconsistent_location
             (evaluation inconsistent_location)) with (e := 1); [| |done].
    + intros e He. apply is_ok_get_ok.
      assert (e = 1) as -> by (vm_compute in He; by apply list_elem_of_singleton in He).
      vm_compute. reflexivity.
    + vm_compute. left.
Defined.

(** ** The combination generators *)

Lemma range_cons lo len : range lo (S len) = lo :: range (lo + 1) len.
Proof.
  unfold range. simpl. rewrite N.add_0_r. f_equal.
  rewrite <- fmap_S_seq, <- list_fmap_compose.
  apply list_fmap_ext. intros _ i _. simpl. lia.
Qed.

Lemma at_middle {A} (pre : list A) x suf :
  at_ (pre ++ x :: suf) (length pre) = Ok x.
Proof. unfold at_. by rewrite list_lookup_middle. Qed.

(** *** The code against the textbook rule *)

Section next_state.
Variable wrap : N -> N.
Variables n k : N.
Hypothesis wrap_small : forall x, x <= n -> wrap x = x.
Hypothesis n_small : n + k < 2 ^ 64.

Lemma refill_consecutive junk : forall pre w,
  w + N.of_nat (length junk) <= n ->
  for_each
    (fun st j =>
       prev ← at_ st (j - 1);
       _ ← at_ st j;
       Ok (<[j := wrap (prev + 1)]> st))
    (seq (S (length pre)) (length junk)) (pre ++ w :: junk)
  = Ok (pre ++ range w (S (length junk))).
Proof.
  induction junk as [|x junk IH]; intros pre w Hw.
  - simpl. by rewrite range_cons.
  - cbn [length seq for_each].
    replace (S (length pre) - 1)%nat with (length pre) by lia.
    rewrite at_middle. cbn [mbind result_bind].
    replace (pre ++ w :: x :: junk) with ((pre ++ [w]) ++ x :: junk)
      by (by rewrite <- (assoc_L (++))).
    replace (S (length pre)) with (length (pre ++ [w]))
      by (rewrite length_app; simpl; lia).
    rewrite at_middle. cbn [mbind result_bind].
    rewrite insert_app_r_alt, Nat.sub_diag by done.
    cbn [insert list_insert].
    rewrite wrap_small by (simpl in Hw; lia).
    rewrite (IH (pre ++ [w]) (w + 1)) by (simpl in Hw; lia).
    by rewrite <- (assoc_L (++)), (range_cons w).
Qed.

Lemma refill_spec pre w junk :
  w + N.of_nat (length junk) <= n ->
  combination.refill wrap (pre ++ w :: junk) (S (length pre))
  = Ok (pre ++ range w (S (length junk))).
Proof.
  intros Hw. unfold combination.refill.
  replace (length (pre ++ w :: junk) - S (length pre))%nat
    with (length junk) by (rewrite length_app; simpl; lia).
  by apply refill_consecutive.
Qed.

(** Scanning the positions of [suf] from the right is one step of
    [lex_next] on [suf]. *)
Lemma next_from_lex_next suf : forall pre,
  N.of_nat (length pre + length suf) = k ->
  Forall (fun x => x < n) suf ->
  combination.next_from wrap n k (pre ++ suf) (length pre + length suf)
  = match lex_next n suf with
    | Some suf' => Ok (true, pre ++ suf')
    | None => combination.next_from wrap n k (pre ++ suf) (length pre)
    end.
Proof.
  induction suf as [|v rest IH]; intros pre Hk Hlt.
  - simpl. by rewrite Nat.add_0_r.
  - apply Forall_cons in Hlt as [Hv Hrest].
    cbn [lex_next length].
    replace (pre ++ v :: rest) with ((pre ++ [v]) ++ rest)
      by (by rewrite <- (assoc_L (++))).
    replace (length pre + S (length rest))%nat
      with (length (pre ++ [v]) + length rest)%nat
      by (rewrite length_app; simpl; lia).
    rewrite IH; [|rewrite length_app; simpl in *; lia|done].
    destruct (lex_next n rest) as [rest'|].
    { by rewrite <- (assoc_L (++)). }
    rewrite length_app. cbn [length]. rewrite Nat.add_1_r.
    cbn [combination.next_from].
    rewrite <- (assoc_L (++)). cbn [app].
    rewrite at_middle. cbn [mbind result_bind].
    assert (Hw : wrap64 (v + 1 + k + 2 ^ 64 - N.of_nat (S (length pre)))
                 = v + 1 + N.of_nat (length rest)).
    { unfold wrap64. simpl in Hk.
      replace (v + 1 + k + 2 ^ 64 - N.of_nat (S (length pre)))
        with (v + 1 + N.of_nat (length rest) + 1 * 2 ^ 64) by lia.
      rewrite N.Div0.mod_add. apply N.mod_small. lia. }
    rewrite Hw.
    destruct (N.ltb_spec (v + 1 + N.of_nat (length rest)) n) as [Hc|Hc].
    + destruct (N.ltb_spec v n); [|lia]. cbn [andb].
      rewrite insert_app_r_alt, Nat.sub_diag by done.
      cbn [insert list_insert].
      rewrite wrap_small by lia.
      rewrite refill_spec by lia. done.
    + by rewrite andb_false_r.
Qed.

(** On a state of [k] indices below [n], [next()] returns the successor
    and [true], or the unchanged state and [false]. *)
Lemma next_state_lex_next st :
  N.of_nat (length st) = k ->
  Forall (fun x => x < n) st ->
  combination.next_state wrap n k st
  = Ok (match lex_next n st with
        | Some st' => (true, st')
        | None => (false, st)
        end).
Proof.
  intros Hk Hlt. unfold combination.next_state.
  pose proof (next_from_lex_next st [] Hk Hlt) as H. simpl in H.
  rewrite H. by destruct (lex_next n st).
Qed.
End next_state.

(** *** The textbook rule *)

Lemma comb_in_weaken lo lo' hi st : lo' <= lo -> comb_in lo hi st -> comb_in lo' hi st.
Proof. destruct st; simpl; [done|]. intros ? [? ?]. split; [lia|done]. Qed.

Lemma comb_in_below lo hi st : comb_in lo hi st -> Forall (fun x => x < hi) st.
Proof.
  revert lo. induction st as [|x st IH]; intros lo; simpl; [done|].
  intros [? H]. constructor; [lia | by apply (IH (x + 1))].
Qed.

(** A combination leaves room for its later elements. *)
Lemma comb_in_room lo hi v rest :
  comb_in lo hi (v :: rest) -> v + N.of_nat (length rest) < hi.
Proof.
  revert lo v. induction rest as [|x rest IH]; intros lo v [Hv Hr].
  - simpl. lia.
  - specialize (IH _ _ Hr). destruct Hr as [Hx _]. simpl length. lia.
Qed.

Lemma comb_in_range lo hi a m :
  lo <= a -> a + N.of_nat m <= hi -> comb_in lo hi (range a m).
Proof.
  revert lo a. induction m as [|m IH]; intros lo a Ha Hm; [exact I|].
  rewrite range_cons. split; [lia|]. apply IH; lia.
Qed.

Lemma lex_lt_irrefl a : ~ lex_lt a a.
Proof.
  induction a as [|x a IH]; simpl; [tauto|]. intros [?|[_ ?]]; [lia|tauto].
Qed.

Lemma lex_lt_trans a b c : lex_lt a b -> lex_lt b c -> lex_lt a c.
Proof.
  revert b c. induction a as [|x a IH]; intros [|y b] [|z c]; simpl; try done.
  intros [?|[-> Hab]] [?|[-> Hbc]]; [left; lia..|].
  right. split; [done|]. by apply (IH b).
Qed.

(** The consecutive indices from [lo] are the first combination. *)
Lemma first_is_least lo hi c :
  comb_in lo hi c -> c = range lo (length c) \/ lex_lt (range lo (length c)) c.
Proof.
  revert lo. induction c as [|y c IH]; intros lo; [by left|].
  intros [Hy Hc]. simpl length. rewrite range_cons.
  destruct (decide (y = lo)) as [->|Hne].
  - destruct (IH _ Hc) as [E|L]; [left; by rewrite <- E | right; simpl; auto].
  - right. simpl. left. lia.
Qed.

(** The indices up to [hi - 1] are the last combination. *)
Lemma last_is_greatest lo hi c :
  comb_in lo hi c ->
  ~ lex_lt (range (hi - N.of_nat (length c)) (length c)) c.
Proof.
  revert lo. induction c as [|y c IH]; intros lo Hc; [intros H; exact H|].
  pose proof (comb_in_room _ _ _ _ Hc) as Hroom. destruct Hc as [Hy Hc].
  simpl length. rewrite range_cons. simpl.
  intros [Hlt|[Heq Hlt]]; [lia|].
  apply (IH _ Hc).
  replace (hi - N.of_nat (length c)) with (hi - N.of_nat (S (length c)) + 1)
    by lia.
  done.
Qed.

Lemma lex_next_last n m : forall lo,
  lo + N.of_nat m = n -> lex_next n (range lo m) = None.
Proof.
  induction m as [|m IH]; intros lo Hlo; [done|].
  rewrite range_cons. simpl. rewrite IH by lia.
  rewrite range_length.
  destruct (N.ltb_spec (lo + 1 + N.of_nat m) n); [lia|done].
Qed.

Lemma lex_next_None lo n st :
  comb_in lo n st -> lex_next n st = None ->
  st = range (n - N.of_nat (length st)) (length st).
Proof.
  revert lo. induction st as [|v rest IH]; intros lo Hc; [done|].
  pose proof (comb_in_room _ _ _ _ Hc) as Hroom. destruct Hc as [Hv Hc].
  simpl. destruct (lex_next n rest) eqn:Hrest; [done|].
  destruct (N.ltb_spec (v + 1 + N.of_nat (length rest)) n); [done|].
  intros _. rewrite range_cons.
  replace (n - N.of_nat (S (length rest))) with v by lia.
  f_equal. rewrite (IH _ Hc eq_refl) at 1. f_equal. lia.
Qed.

Lemma lex_next_length n st st' :
  lex_next n st = Some st' -> length st' = length st.
Proof.
  revert st'. induction st as [|v rest IH]; intros st'; simpl; [done|].
  destruct (lex_next n rest) as [rest'|].
  - intros [= <-]. simpl. by rewrite (IH rest').
  - destruct (_ <? _); [|done]. intros [= <-]. by rewrite range_length.
Qed.

(** The successor is a combination, it is greater, and no combination
    lies between. *)
Lemma lex_next_Some n st : forall lo st',
  comb_in lo n st -> lex_next n st = Some st' ->
  comb_in lo n st' /\ lex_lt st st' /\
  (forall c, comb_in lo n c -> length c = length st -> lex_lt st c ->
             c = st' \/ lex_lt st' c).
Proof.
  induction st as [|v rest IH]; intros lo st' Hc; [done|].
  destruct Hc as [Hv Hc]. simpl.
  destruct (lex_next n rest) as [rest'|] eqn:Hrest.
  - intros [= <-]. destruct (IH _ _ Hc eq_refl) as (Hc' & Hlt & Hmin).
    split; [done|]. split; [simpl; auto|].
    intros c Hcc Hlen. destruct c as [|y c]; [done|].
    destruct Hcc as [Hy Hcc]. simpl.
    intros [?|[<- Hl]]; [right; left; done|].
    destruct (Hmin c Hcc ltac:(simpl in Hlen; lia) Hl) as [->|?]; auto.
  - destruct (N.ltb_spec (v + 1 + N.of_nat (length rest)) n) as [Hroom|];
      [|done].
    intros [= <-]. split; [|split].
    + apply comb_in_range; [lia|]. simpl length. lia.
    + rewrite range_cons. simpl. left. lia.
    + intros c Hcc Hlen. destruct c as [|y c]; [done|].
      destruct Hcc as [Hy Hcc]. simpl in Hlen.
      rewrite range_cons. simpl.
      intros [Hlt|[<- Hl]].
      * destruct (decide (y = v + 1)) as [->|Hne]; [|right; left; lia].
        replace (length rest) with (length c) by lia.
        destruct (first_is_least _ _ _ Hcc) as [<-|?]; auto.
      * exfalso. apply (last_is_greatest _ _ _ Hcc).
        rewrite (lex_next_None _ _ _ Hc Hrest) in Hl.
        by replace (length c) with (length rest) by lia.
Qed.

(** *** The list of all combinations *)

Lemma elem_of_combs_from m : forall lo k c,
  c ∈ combs_from lo m k
  <-> length c = k /\ comb_in lo (lo + N.of_nat m) c.
Proof.
  induction m as [|m IH]; intros lo k c.
  - destruct k as [|k]; simpl.
    + rewrite list_elem_of_singleton. split.
      * by intros ->.
      * intros [Hl _]. by destruct c.
    + rewrite elem_of_nil. split; [done|].
      intros [Hl Hc]. destruct c as [|x c]; [done|].
      destruct Hc as [? _]. lia.
  - destruct k as [|k]; simpl.
    + rewrite list_elem_of_singleton. split.
      * by intros ->.
      * intros [Hl _]. by destruct c.
    + rewrite elem_of_app, list_elem_of_fmap. setoid_rewrite IH. split.
      * intros [(c' & -> & Hl & Hc)|[Hl Hc]].
        -- split; [simpl; lia|]. split; [lia|].
           replace (lo + N.of_nat (S m)) with (lo + 1 + N.of_nat m) by lia.
           done.
        -- split; [done|]. apply (comb_in_weaken (lo + 1)); [lia|].
           replace (lo + N.of_nat (S m)) with (lo + 1 + N.of_nat m) by lia.
           done.
      * intros [Hl Hc]. destruct c as [|x c]; [done|].
        replace (lo + N.of_nat (S m)) with (lo + 1 + N.of_nat m) in Hc by lia.
        destruct (decide (x = lo)) as [->|Hne].
        -- left. exists c. destruct Hc as [_ Hc].
           split; [done|]. split; [simpl in Hl; lia | done].
        -- right. split; [done|]. destruct Hc as [Hx Hc].
           split; [lia|done].
Qed.

Lemma combs_from_sorted m : forall lo k,
  StronglySorted lex_lt (combs_from lo m k).
Proof.
  induction m as [|m IH]; intros lo k.
  - destruct k; simpl; repeat constructor.
  - destruct k as [|k]; simpl; [repeat constructor|].
    apply StronglySorted_app_2.
    + intros a b Ha Hb. apply list_elem_of_fmap in Ha as (a' & -> & _).
      apply elem_of_combs_from in Hb as [Hl Hc].
      destruct b as [|y b]; [done|]. destruct Hc as [Hy _].
      simpl. left. lia.
    + apply (StronglySorted_fmap _ lex_lt); [|apply IH].
      intros a b Hab. simpl. by right.
    + apply IH.
Qed.

Lemma combs_from_length m : forall lo k,
  length (combs_from lo m k) = binomial m k.
Proof.
  induction m as [|m IH]; intros lo k; destruct k as [|k]; simpl; try done.
  by rewrite length_app, length_fmap, !IH.
Qed.

(** The list holds exactly the [k]-combinations of {0 .. n-1}. *)
Lemma elem_of_all_combinations n k c :
  c ∈ all_combinations n k <-> is_combination n k c.
Proof.
  unfold all_combinations, is_combination.
  rewrite elem_of_combs_from, N.add_0_l, N2Nat.id.
  split; intros [Hl Hc]; (split; [lia|done]).
Qed.

(** In the list every combination is followed by its successor, and the
    last one has none. *)
Lemma next_in_enumeration n k pre st rest :
  all_combinations n k = pre ++ st :: rest ->
  lex_next n st = head rest.
Proof.
  intros Hall.
  pose proof (combs_from_sorted (N.to_nat n) 0 (N.to_nat k)) as Hs.
  fold (all_combinations n k) in Hs. rewrite Hall in Hs.
  assert (Hin : forall c, is_combination n k c -> c ∈ pre ++ st :: rest)
    by (intros c Hc; rewrite <- Hall; by apply elem_of_all_combinations).
  assert (Hval : forall c, c ∈ pre ++ st :: rest -> is_combination n k c)
    by (intros c Hc; rewrite <- Hall in Hc; by apply elem_of_all_combinations).
  assert (Hpre : forall c, c ∈ pre -> lex_lt c st).
  { intros c Hc. apply (StronglySorted_app_1_elem_of _ _ _ _ _ Hs Hc). left. }
  apply StronglySorted_app_1_r, StronglySorted_inv in Hs as [Hrs Hst].
  rewrite Forall_forall in Hst.
  destruct (Hval st) as [Hl Hc]; [apply elem_of_app; right; left|].
  destruct (lex_next n st) as [st'|] eqn:Hnext.
  - destruct (lex_next_Some _ _ _ _ Hc Hnext) as (Hc' & Hlt & Hmin).
    pose proof (lex_next_length _ _ _ Hnext) as Hl'.
    assert (Hst' : st' ∈ pre ++ st :: rest)
      by (apply Hin; split; [lia|done]).
    apply elem_of_app in Hst' as [Hst'|Hst'].
    { exfalso. apply (lex_lt_irrefl st).
      apply (lex_lt_trans _ st'); [done | by apply Hpre]. }
    apply elem_of_cons in Hst' as [->|Hst']; [by apply lex_lt_irrefl in Hlt|].
    destruct rest as [|c rest]; [by apply elem_of_nil in Hst'|].
    simpl. f_equal.
    destruct (Hval c) as [Hlc Hcc]; [apply elem_of_app; right; right; left|].
    destruct (Hmin c Hcc ltac:(lia) (Hst c ltac:(left))) as [->|Hlt']; [done|].
    exfalso. apply elem_of_cons in Hst' as [->|Hst'].
    + by apply lex_lt_irrefl in Hlt'.
    + apply StronglySorted_inv in Hrs as [_ Hcr].
      rewrite Forall_forall in Hcr.
      apply (lex_lt_irrefl st'), (lex_lt_trans _ c); [done | by apply Hcr].
  - destruct rest as [|c rest]; [done|]. exfalso.
    destruct (Hval c) as [Hlc Hcc]; [apply elem_of_app; right; right; left|].
    apply (last_is_greatest _ _ _ Hcc).
    replace (length c) with (length st) by lia.
    rewrite <- (lex_next_None _ _ _ Hc Hnext). apply Hst. left.
Qed.

(** The list starts with the consecutive indices [0 .. k-1]. *)
Lemma first_in_enumeration n k :
  k <= n ->
  exists rest,
    all_combinations n k = combination.initial_state k :: rest.
Proof.
  intros Hk. unfold combination.initial_state.
  assert (Hi : range 0 (N.to_nat k) ∈ all_combinations n k).
  { apply elem_of_all_combinations. split.
    - rewrite range_length. lia.
    - apply comb_in_range; lia. }
  apply list_elem_of_split in Hi as (pre & rest & Hall).
  destruct pre as [|c pre]; [by exists rest|]. exfalso.
  pose proof (combs_from_sorted (N.to_nat n) 0 (N.to_nat k)) as Hs.
  fold (all_combinations n k) in Hs. rewrite Hall in Hs.
  assert (Hlt : lex_lt c (range 0 (N.to_nat k))).
  { apply (StronglySorted_app_1_elem_of _ _ _ _ _ Hs); left. }
  assert (Hc : is_combination n k c).
  { apply elem_of_all_combinations. rewrite Hall. left. }
  destruct Hc as [Hl Hc].
  replace (N.to_nat k) with (length c) in Hlt by lia.
  destruct (first_is_least _ _ _ Hc) as [E|L].
  - rewrite <- E in Hlt. by apply lex_lt_irrefl in Hlt.
  - apply (lex_lt_irrefl c). by apply (lex_lt_trans _ _ _ Hlt).
Qed.

(** *** The two generators *)

Lemma lex_next_None_iff n k st :
  is_combination n k st ->
  lex_next n st = None <-> st = last_combination n k.
Proof.
  intros [Hl Hc]. unfold last_combination. split.
  - intros H. rewrite (lex_next_None _ _ _ Hc H) at 1.
    f_equal; lia.
  - intros ->. apply lex_next_last.
    rewrite range_length in Hl.
    destruct (N.to_nat k) as [|k'] eqn:Hk; [lia|].
    rewrite range_cons in Hc. apply comb_in_room in Hc.
    rewrite range_length in Hc. lia.
Qed.

Lemma wrap16_small n x : n < 2 ^ 16 -> x <= n -> wrap16 x = x.
Proof. intros. unfold wrap16. apply N.mod_small. lia. Qed.

Lemma wrap64_small n x : n < 2 ^ 63 -> x <= n -> wrap64 x = x.
Proof.
  intros. unfold wrap64. apply N.mod_small.
  assert (2 ^ 63 < 2 ^ 64) by (by apply N.pow_lt_mono_r). lia.
Qed.

Lemma fl_next_spec n k st :
  n < 2 ^ 16 -> is_combination n k st ->
  fl.next {| fl.m_state := st; fl.m_k := k; fl.m_n := n |}
  = Ok (match lex_next n st with
        | Some st' =>
            (true, {| fl.m_state := st'; fl.m_k := k; fl.m_n := n |})
        | None => (false, {| fl.m_state := st; fl.m_k := k; fl.m_n := n |})
        end).
Proof.
  intros Hn [Hl Hc]. unfold fl.next. cbn [fl.m_state fl.m_k fl.m_n].
  pose proof (comb_in_below _ _ _ Hc) as Hlt.
  assert (k <= n).
  { destruct st as [|v rest]; [simpl in Hl; lia|].
    pose proof (comb_in_room _ _ _ _ Hc). simpl in Hl. lia. }
  rewrite (next_state_lex_next wrap16 n k); try done.
  - by destruct (lex_next n st).
  - intros x. by apply wrap16_small.
  - assert (2 ^ 16 + 2 ^ 16 < 2 ^ 64) by done. lia.
Qed.

Lemma features_next_spec {T} (symbols : list T) k st :
  N.of_nat (length symbols) < 2 ^ 63 ->
  is_combination (N.of_nat (length symbols)) k st ->
  next {| m_symbols := symbols; m_state := st; m_k := k |}
  = Ok (match lex_next (N.of_nat (length symbols)) st with
        | Some st' =>
            (true, {| m_symbols := symbols; m_state := st'; m_k := k |})
        | None => (false, {| m_symbols := symbols; m_state := st; m_k := k |})
        end).
Proof.
  intros Hn [Hl Hc]. unfold next. cbn [m_symbols m_state m_k].
  pose proof (comb_in_below _ _ _ Hc) as Hlt.
  assert (k <= N.of_nat (length symbols)).
  { destruct st as [|v rest]; [simpl in Hl; lia|].
    pose proof (comb_in_room _ _ _ _ Hc). simpl in Hl. lia. }
  rewrite (next_state_lex_next wrap64 (N.of_nat (length symbols)) k);
    try done.
  - by destruct (lex_next _ st).
  - intros x. by apply wrap64_small.
  - assert (2 ^ 63 + 2 ^ 63 = 2 ^ 64) by done. lia.
Qed.

(** [operator()] on a state of valid indices. *)
Lemma call_select {T} (symbols : list T) k st :
  Forall (fun x => x < N.of_nat (length symbols)) st ->
  call {| m_symbols := symbols; m_state := st; m_k := k |}
  = Ok (select symbols st).
Proof.
  unfold call, select. cbn [m_symbols m_state].
  induction st as [|x st IH]; intros Hlt; [done|].
  apply Forall_cons in Hlt as [Hx Hst].
  destruct (lookup_lt_is_Some_2 symbols (N.to_nat x) ltac:(lia)) as [y Hy].
  assert (Hat : at_ symbols (N.to_nat x) = Ok y)
    by (unfold at_; by rewrite Hy).
  simpl. rewrite Hat, Hy. cbn [mbind result_bind]. by rewrite IH.
Qed.

Lemma fl_do_while_enumerates n k rest : forall pre st fuel out,
  n < 2 ^ 16 ->
  all_combinations n k = pre ++ st :: rest ->
  (length rest < fuel)%nat ->
  fl.do_while_next fuel Ok
    {| fl.m_state := st; fl.m_k := k; fl.m_n := n |} out
  = Ok (out ++ st :: rest).
Proof.
  induction rest as [|c rest IH]; intros pre st fuel out Hn Hall Hfuel.
  - destruct fuel as [|fuel]; [simpl in Hfuel; lia|].
    cbn [fl.do_while_next]. unfold fl.call at 1. cbn [fl.m_state].
    cbn [mbind result_bind].
    rewrite fl_next_spec;
      [|done|apply elem_of_all_combinations; rewrite Hall;
             apply elem_of_app; right; left].
    by rewrite (next_in_enumeration _ _ _ _ _ Hall).
  - destruct fuel as [|fuel]; [simpl in Hfuel; lia|].
    cbn [fl.do_while_next]. unfold fl.call at 1. cbn [fl.m_state].
    cbn [mbind result_bind].
    rewrite fl_next_spec;
      [|done|apply elem_of_all_combinations; rewrite Hall;
             apply elem_of_app; right; left].
    rewrite (next_in_enumeration _ _ _ _ _ Hall). cbn [head mbind result_bind].
    rewrite (IH (pre ++ [st]) c fuel (out ++ [st])); try done.
    + by rewrite <- (assoc_L (++)).
    + by rewrite <- (assoc_L (++)).
    + simpl in Hfuel. lia.
Qed.

Lemma features_do_while_enumerates {T A} (symbols : list T)
    (body : list T -> result A) (g : list N -> A) k rest :
  forall pre st fuel out,
  N.of_nat (length symbols) < 2 ^ 63 ->
  all_combinations (N.of_nat (length symbols)) k = pre ++ st :: rest ->
  (forall c, c ∈ st :: rest -> body (select symbols c) = Ok (g c)) ->
  (length rest < fuel)%nat ->
  do_while_next fuel body
    {| m_symbols := symbols; m_state := st; m_k := k |} out
  = Ok (out ++ (g <$> st :: rest)).
Proof.
  induction rest as [|c rest IH]; intros pre st fuel out Hn Hall Hbody Hfuel.
  - destruct fuel as [|fuel]; [simpl in Hfuel; lia|].
    assert (Hst : is_combination (N.of_nat (length symbols)) k st)
      by (apply elem_of_all_combinations; rewrite Hall;
          apply elem_of_app; right; left).
    cbn [do_while_next].
    rewrite call_select by (apply (comb_in_below 0), Hst).
    cbn [mbind result_bind]. rewrite Hbody by left.
    cbn [mbind result_bind]. rewrite features_next_spec by done.
    by rewrite (next_in_enumeration _ _ _ _ _ Hall).
  - destruct fuel as [|fuel]; [simpl in Hfuel; lia|].
    assert (Hst : is_combination (N.of_nat (length symbols)) k st)
      by (apply elem_of_all_combinations; rewrite Hall;
          apply elem_of_app; right; left).
    cbn [do_while_next].
    rewrite call_select by (apply (comb_in_below 0), Hst).
    cbn [mbind result_bind]. rewrite Hbody by left.
    cbn [mbind result_bind]. rewrite features_next_spec by done.
    rewrite (next_in_enumeration _ _ _ _ _ Hall). cbn [head mbind result_bind].
    rewrite (IH (pre ++ [st]) c fuel (out ++ [g st])); try done.
    + by rewrite <- (assoc_L (++)).
    + by rewrite <- (assoc_L (++)).
    + intros c' Hc'. apply Hbody. by right.
    + simpl in Hfuel. lia.
Qed.

(** C8: the [k]-combinations of {0 .. n-1} form a list that is strictly
    increasing in the lexicographic order and has C(n,k) elements.  For
    1 <= k <= n both generators start in [0 .. k-1]; on a combination that
    is not the last, [next()] returns [true] and moves to the
    combination that follows immediately; on the last one it returns
    [false] and keeps the state; the loop [do ... while (c.next())]
    produces exactly the list of all combinations.  A sample size above
    the number of elements makes the constructors throw. *)
Theorem combination_generator_lexicographic :
  (forall n k,
     StronglySorted lex_lt (all_combinations n k) /\
     (forall c, c ∈ all_combinations n k <-> is_combination n k c) /\
     length (all_combinations n k) = binomial (N.to_nat n) (N.to_nat k)) /\
  (forall n k st,
     1 <= k <= n -> n < 2 ^ 16 -> is_combination n k st ->
     let c := {| fl.m_state := st; fl.m_k := k; fl.m_n := n |} in
     (st = last_combination n k -> fl.next c = Ok (false, c)) /\
     (st <> last_combination n k ->
      exists st',
        fl.next c
        = Ok (true, {| fl.m_state := st'; fl.m_k := k; fl.m_n := n |}) /\
        is_combination n k st' /\ lex_lt st st' /\
        (forall c', is_combination n k c' -> lex_lt st c' ->
                    c' = st' \/ lex_lt st' c'))) /\
  (forall (T : Type) (symbols : list T) k st,
     let n := N.of_nat (length symbols) in
     1 <= k <= n -> n < 2 ^ 63 -> is_combination n k st ->
     let c := {| m_symbols := symbols; m_state := st; m_k := k |} in
     (st = last_combination n k -> next c = Ok (false, c)) /\
     (st <> last_combination n k ->
      exists st',
        next c
        = Ok (true, {| m_symbols := symbols; m_state := st'; m_k := k |}) /\
        is_combination n k st' /\ lex_lt st st' /\
        (forall c', is_combination n k c' -> lex_lt st c' ->
                    c' = st' \/ lex_lt st' c'))) /\
  (forall n k,
     1 <= k <= n -> n < 2 ^ 16 ->
     exists c,
       fl.new_combination n k = Ok c /\
       fl.call c = range 0 (N.to_nat k) /\
       forall fuel,
         (binomial (N.to_nat n) (N.to_nat k) <= fuel)%nat ->
         fl.do_while_next fuel Ok c [] = Ok (all_combinations n k)) /\
  (forall (T : Type) (symbols : list T) k,
     let n := N.of_nat (length symbols) in
     1 <= k <= n -> n < 2 ^ 63 ->
     exists c,
       new_combination symbols k = Ok c /\
       m_state c = range 0 (N.to_nat k) /\
       forall fuel,
         (binomial (N.to_nat n) (N.to_nat k) <= fuel)%nat ->
         do_while_next fuel Ok c []
         = Ok (select symbols <$> all_combinations n k)) /\
  (forall n k, n < k -> fl.new_combination n k = Throw domain_error) /\
  (forall (T : Type) (symbols : list T) k,
     N.of_nat (length symbols) < k ->
     new_combination symbols k = Throw logic_error).
Proof.
  assert (Hstep : forall n st lo,
            comb_in lo n st ->
            forall k, N.of_nat (length st) = k ->
            (st = last_combination n k <-> lex_next n st = None) /\
            (forall st', lex_next n st = Some st' ->
               N.of_nat (length st') = k /\ comb_in lo n st' /\ lex_lt st st'
               /\ forall c', N.of_nat (length c') = k -> comb_in lo n c' ->
                             lex_lt st c' -> c' = st' \/ lex_lt st' c')).
  { intros n st lo Hc k Hl. split.
    - unfold last_combination. split.
      + intros E. rewrite E at 1. apply lex_next_last.
        rewrite E, range_length in Hl.
        destruct (N.to_nat k) as [|k'] eqn:Hk; [lia|].
        rewrite E, range_cons in Hc. apply comb_in_room in Hc.
        rewrite range_length in Hc. lia.
      + intros H. rewrite (lex_next_None _ _ _ Hc H) at 1. f_equal; lia.
    - intros st' Hn. destruct (lex_next_Some _ _ _ _ Hc Hn) as (? & ? & Hmin).
      pose proof (lex_next_length _ _ _ Hn).
      repeat split; [lia|done..|].
      intros c' Hl' Hc'. apply Hmin; [done|lia]. }
  repeat apply conj.
  - intros n k. split; [apply combs_from_sorted|].
    split; [apply elem_of_all_combinations | apply combs_from_length].
  - intros n k st Hk Hn Hst c. unfold c. rewrite fl_next_spec by done.
    destruct Hst as [Hl Hc].
    destruct (Hstep n st 0 Hc k Hl) as [Hlast Hsucc]. split.
    + intros E. by rewrite (proj1 Hlast E).
    + intros Hne. destruct (lex_next n st) as [st'|]; [|destruct Hne; by apply Hlast].
      exists st'. destruct (Hsucc st' eq_refl) as (? & ? & ? & Hmin).
      repeat split; try done. intros c' [? ?]. by apply Hmin.
  - intros T symbols k st n Hk Hn Hst c. subst c n.
    rewrite features_next_spec by done.
    destruct Hst as [Hl Hc].
    destruct (Hstep _ st 0 Hc k Hl) as [Hlast Hsucc]. split.
    + intros E. by rewrite (proj1 Hlast E).
    + intros Hne.
      destruct (lex_next _ st) as [st'|]; [|destruct Hne; by apply Hlast].
      exists st'. destruct (Hsucc st' eq_refl) as (? & ? & ? & Hmin).
      repeat split; try done. intros c' [? ?]. by apply Hmin.
  - intros n k Hk Hn. unfold fl.new_combination.
    destruct (N.ltb_spec n k); [lia|]. destruct (N.eqb_spec n 0); [lia|].
    eexists. split; [done|]. split; [done|].
    intros fuel Hfuel.
    destruct (first_in_enumeration n k ltac:(lia)) as [rest Hall].
    rewrite (fl_do_while_enumerates n k rest [] _ fuel [] Hn Hall).
    + by rewrite Hall.
    + pose proof (combs_from_length (N.to_nat n) 0 (N.to_nat k)) as Hlen.
      fold (all_combinations n k) in Hlen. rewrite Hall in Hlen.
      simpl in Hlen. lia.
  - intros T symbols k n Hk Hn. unfold new_combination.
    destruct (N.ltb_spec (N.of_nat (length symbols)) k); [unfold n in *; lia|].
    unfold n in *.
    eexists. split; [done|]. split; [done|].
    intros fuel Hfuel.
    destruct (first_in_enumeration (N.of_nat (length symbols)) k ltac:(lia))
      as [rest Hall].
    rewrite (features_do_while_enumerates symbols Ok (select symbols)
               k rest [] _ fuel [] Hn Hall); [by rewrite Hall|done|].
    pose proof (combs_from_length (N.to_nat (N.of_nat (length symbols))) 0
                  (N.to_nat k)) as Hlen.
    fold (all_combinations (N.of_nat (length symbols)) k) in Hlen.
    rewrite Hall in Hlen. simpl in Hlen. lia.
  - intros n k Hk. unfold fl.new_combination.
    by destruct (N.ltb_spec n k); [|lia].
  - intros T symbols k Hk. unfold new_combination.
    by destruct (N.ltb_spec (N.of_nat (length symbols)) k); [|lia].
Qed.

Lemma combination_generator_lexicographic_witness :
  (exists c,
     fl.new_combination 4 2 = Ok c /\
     fl.call c = range 0 (N.to_nat 2) /\
     forall fuel,
       (binomial (N.to_nat 4) (N.to_nat 2) <= fuel)%nat ->
       fl.do_while_next fuel Ok c [] = Ok (all_combinations 4 2)) /\
  fl.next {| fl.m_state := [2; 3]; fl.m_k := 2; fl.m_n := 4 |}
  = Ok (false, {| fl.m_state := [2; 3]; fl.m_k := 2; fl.m_n := 4 |}) /\
  fl.new_combination 2 3 = Throw domain_error /\
  new_combination [1; 2] 3 = Throw logic_error.
Proof.
  destruct combination_generator_lexicographic
    as (_ & Hstep & _ & Hrun & _ & Hfl & Hfeatures).
  split; [apply Hrun; lia|].
  split; [|split; [apply Hfl; lia | apply Hfeatures; simpl; lia]].
  apply (Hstep 4 2 [2; 3]); [lia|done| |reflexivity].
  split; [reflexivity|]. simpl. lia.
Defined.

(** ** Evaluation of a difference *)

Lemma land_bit_nonzero e p :
  N.land e (N.shiftl 1 p) <> 0 <-> N.testbit e p = true.
Proof.
  rewrite N.shiftl_1_l. split.
  - intros H. destruct (N.testbit e p) eqn:E; [done|].
    destruct H. apply N.bits_inj. intros i.
    rewrite N.land_spec, N.pow2_bits_eqb, N.bits_0.
    destruct (N.eqb_spec p i) as [<-|]; [by rewrite E | by rewrite andb_false_r].
  - intros E H.
    assert (N.testbit (N.land e (2 ^ p)) p = true)
      by (by rewrite N.land_spec, E, N.pow2_bits_true).
    rewrite H, N.bits_0 in *. done.
Qed.

Section split_by_bits.
Variable name : N -> string.
Variable e : N.

Lemma split_step_intersections d q x :
  x ∈ intersections (split_step name e d q)
  <-> x ∈ intersections d \/ (N.testbit e q = true /\ x = name q).
Proof.
  unfold split_step. destruct (N.testbit e q) eqn:Hq.
  - rewrite bool_decide_eq_true_2 by (by apply land_bit_nonzero).
    simpl. set_solver.
  - rewrite bool_decide_eq_false_2
      by (rewrite land_bit_nonzero; congruence).
    simpl. set_solver.
Qed.

Lemma split_step_unions d q x :
  x ∈ unions (split_step name e d q)
  <-> x ∈ unions d \/ (N.testbit e q = false /\ x = name q).
Proof.
  unfold split_step. destruct (N.testbit e q) eqn:Hq.
  - rewrite bool_decide_eq_true_2 by (by apply land_bit_nonzero).
    simpl. set_solver.
  - rewrite bool_decide_eq_false_2
      by (rewrite land_bit_nonzero; congruence).
    simpl. set_solver.
Qed.

Lemma split_by_bits_intersections l : forall d x,
  x ∈ intersections (fold_left (split_step name e) l d)
  <-> x ∈ intersections d
      \/ exists p, p ∈ l /\ N.testbit e p = true /\ x = name p.
Proof.
  induction l as [|q l IH]; intros d x; simpl.
  - set_solver.
  - rewrite IH, split_step_intersections. set_solver.
Qed.

Lemma split_by_bits_unions l : forall d x,
  x ∈ unions (fold_left (split_step name e) l d)
  <-> x ∈ unions d
      \/ exists p, p ∈ l /\ N.testbit e p = false /\ x = name p.
Proof.
  induction l as [|q l IH]; intros d x; simpl.
  - set_solver.
  - rewrite IH, split_step_unions. set_solver.
Qed.
End split_by_bits.

Lemma generate_difference_intersections o e x :
  x ∈ intersections (feature_location_differences_t.generate_difference o e)
  <-> exists p, p < feature_location_t.m_S o /\ N.testbit e p = true
                /\ x = system_name (wrap16 (p + 1)).
Proof.
  unfold feature_location_differences_t.generate_difference.
  etrans; [apply (split_by_bits_intersections
                    (fun p => system_name (wrap16 (p + 1))))|].
  simpl. setoid_rewrite elem_of_range. split.
  - intros [?|(p & Hp & ?)]; [set_solver|]. exists p. split; [lia|done].
  - intros (p & Hp & ?). right. exists p. split; [lia|done].
Qed.

Lemma generate_difference_unions o e x :
  x ∈ unions (feature_location_differences_t.generate_difference o e)
  <-> exists p, p < feature_location_t.m_S o /\ N.testbit e p = false
                /\ x = system_name (wrap16 (p + 1)).
Proof.
  unfold feature_location_differences_t.generate_difference.
  etrans; [apply (split_by_bits_unions
                    (fun p => system_name (wrap16 (p + 1))))|].
  simpl. setoid_rewrite elem_of_range. split.
  - intros [?|(p & Hp & ?)]; [set_solver|]. exists p. split; [lia|done].
  - intros (p & Hp & ?). right. exists p. split; [lia|done].
Qed.

(** *** System names *)

Lemma system_name_inj n n' : system_name n = system_name n' -> n = n'.
Proof.
  unfold system_name, to_string, system. intros H.
  injection H as H. by apply pretty_N_inj in H.
Qed.

(** The names of the first 64 systems pass the checks of
    [system2features] and are read back as their numbers. *)
Lemma name_check_64 n : 1 <= n <= 64 -> name_check n = true.
Proof.
  intros Hn.
  assert (H : forallb name_check (range 1 64) = true)
    by (vm_compute; reflexivity).
  rewrite forallb_forall in H. apply H, list_elem_of_In, elem_of_range. lia.
Qed.

Lemma system2features_name o p fs :
  p < 64 -> feature_location_t.m_all_systems o !! N.to_nat p = Some fs ->
  feature_location_differences_t.system2features o (system_name (wrap16 (p + 1)))
  = Ok (list_to_set fs).
Proof.
  intros Hp Hfs.
  assert (Hw : wrap16 (p + 1) = p + 1).
  { unfold wrap16. apply N.mod_small.
    assert (64 < 2 ^ 16) by done. lia. }
  rewrite Hw. pose proof (name_check_64 (p + 1) ltac:(lia)) as Hc.
  unfold name_check in Hc. apply andb_true_iff in Hc as [Hc1 Hc2].
  apply negb_true_iff in Hc1.
  unfold feature_location_differences_t.system2features. rewrite Hc1.
  destruct (feature_location_differences_t.stoull _) as [v|]; [|done].
  apply N.eqb_eq in Hc2 as ->. cbn [mbind result_bind].
  assert (Hi : wrap64 (p + 1 + 2 ^ 64 - 1) = p).
  { unfold wrap64. replace (p + 1 + 2 ^ 64 - 1) with (p + 1 * 2 ^ 64) by lia.
    rewrite N.Div0.mod_add. apply N.mod_small.
    assert (64 < 2 ^ 64) by done. lia. }
  rewrite Hi. unfold at_N, at_.
  pose proof (lookup_lt_Some _ _ _ Hfs).
  destruct (N.ltb_spec p (N.of_nat (length (feature_location_t.m_all_systems o))));
    [|lia].
  by rewrite Hfs.
Qed.

(** *** The three evaluations *)

Section evaluate.
Variable o : feature_location_t.t.

Lemma intersect_rest_spec rest : forall left,
  (forall x, x ∈ rest ->
     feature_location_differences_t.system2features o x
     = Ok (features_of o x)) ->
  exists X,
    feature_location_differences_t.intersect_rest o rest left = Ok X /\
    forall g, g ∈ X <-> g ∈ left /\ forall x, x ∈ rest -> g ∈ features_of o x.
Proof.
  induction rest as [|s rest IH]; intros left Hok.
  - exists left. split; [done|]. intros g. split; [|by intros [? _]].
    intros ?. split; [done|]. intros x Hx. by apply elem_of_nil in Hx.
  - cbn [feature_location_differences_t.intersect_rest].
    rewrite Hok by left. cbn [mbind result_bind].
    destruct (Nat.eqb_spec (size (left ∩ features_of o s)) 0) as [Hz|Hz].
    + exists (left ∩ features_of o s). split; [done|].
      apply size_empty_inv in Hz. intros g. split.
      * intros Hg. apply Hz in Hg. by apply elem_of_empty in Hg.
      * intros [Hl Hr]. apply elem_of_intersection.
        split; [done | apply Hr; left].
    + destruct (IH (left ∩ features_of o s)) as (X & HX & Hspec).
      { intros x Hx. apply Hok. by right. }
      exists X. split; [done|]. intros g. rewrite Hspec.
      rewrite elem_of_intersection. split.
      * intros [[Hl Hs] Hr]. split; [done|].
        intros x Hx. apply elem_of_cons in Hx as [->|Hx]; [done|by apply Hr].
      * intros [Hl Hr]. split; [split; [done | apply Hr; left]|].
        intros x Hx. apply Hr. by right.
Qed.

Lemma unite_rest_spec rest : forall left,
  (forall x, x ∈ rest ->
     feature_location_differences_t.system2features o x
     = Ok (features_of o x)) ->
  exists X,
    feature_location_differences_t.unite_rest o rest left = Ok X /\
    forall g, g ∈ X <-> g ∈ left \/ exists x, x ∈ rest /\ g ∈ features_of o x.
Proof.
  induction rest as [|s rest IH]; intros left Hok.
  - exists left. split; [done|]. intros g. split; [by left|].
    intros [?|(x & Hx & _)]; [done | by apply elem_of_nil in Hx].
  - cbn [feature_location_differences_t.unite_rest].
    rewrite Hok by left. cbn [mbind result_bind].
    destruct (IH (left ∪ features_of o s)) as (X & HX & Hspec).
    { intros x Hx. apply Hok. by right. }
    exists X. split; [done|]. intros g. rewrite Hspec, elem_of_union. split.
    + intros [[?|?]|(x & Hx & ?)]; [by left|right; exists s|right; exists x];
        split; try done; first [by left | by right].
    + intros [?|(x & Hx & ?)]; [by left; left|].
      apply elem_of_cons in Hx as [->|Hx]; [by left; right|].
      right. by exists x.
Qed.

Variable diff : systems_difference_t.
Hypothesis names_ok : forall x,
  x ∈ intersections diff ∪ unions diff ->
  feature_location_differences_t.system2features o x = Ok (features_of o x).

Lemma evaluate_intersections_spec :
  exists X,
    feature_location_differences_t.evaluate_intersections o diff = Ok X /\
    forall g, g ∈ X <-> intersections diff <> ∅ /\
                        forall x, x ∈ intersections diff -> g ∈ features_of o x.
Proof.
  unfold feature_location_differences_t.evaluate_intersections.
  destruct (set_elements (intersections diff)) as [|first rest] eqn:Hel.
  - exists ∅. split; [done|]. intros g. split; [by intros ?%elem_of_empty|].
    intros [Hne _]. destruct Hne. apply set_eq. intros x.
    rewrite <- elem_of_set_elements, Hel. set_solver.
  - assert (Hin : forall x, x ∈ intersections diff <-> x ∈ first :: rest)
      by (intros x; by rewrite <- Hel, elem_of_set_elements).
    rewrite names_ok by (apply elem_of_union; left; apply Hin; left).
    cbn [mbind result_bind].
    destruct (intersect_rest_spec rest (features_of o first))
      as (X & HX & Hspec).
    { intros x Hx. apply names_ok, elem_of_union. left. apply Hin. by right. }
    exists X. split; [done|]. intros g. rewrite Hspec. split.
    + intros [Hf Hr]. split.
      * intros He. assert (first ∈ intersections diff) by (apply Hin; left).
        rewrite He in *. by apply elem_of_empty in H.
      * intros x Hx. apply Hin, elem_of_cons in Hx as [->|Hx]; [done|].
        by apply Hr.
    + intros [_ Hall]. split; [apply Hall, Hin; left|].
      intros x Hx. apply Hall, Hin. by right.
Qed.

Lemma evaluate_unions_spec :
  exists X,
    feature_location_differences_t.evaluate_unions o diff = Ok X /\
    forall g, g ∈ X <-> exists x, x ∈ unions diff /\ g ∈ features_of o x.
Proof.
  unfold feature_location_differences_t.evaluate_unions.
  destruct (set_elements (unions diff)) as [|first rest] eqn:Hel.
  - exists ∅. split; [done|]. intros g. split; [by intros ?%elem_of_empty|].
    intros (x & Hx & _). rewrite <- elem_of_set_elements, Hel in Hx.
    by apply elem_of_nil in Hx.
  - assert (Hin : forall x, x ∈ unions diff <-> x ∈ first :: rest)
      by (intros x; by rewrite <- Hel, elem_of_set_elements).
    rewrite names_ok by (apply elem_of_union; right; apply Hin; left).
    cbn [mbind result_bind].
    destruct (unite_rest_spec rest (features_of o first))
      as (X & HX & Hspec).
    { intros x Hx. apply names_ok, elem_of_union. right. apply Hin. by right. }
    exists X. split; [done|]. intros g. rewrite Hspec. split.
    + intros [?|(x & Hx & ?)]; [exists first|exists x];
        (split; [apply Hin|done]); first [by left | by right].
    + intros (x & Hx & Hg). apply Hin, elem_of_cons in Hx as [->|Hx];
        [by left | right; by exists x].
Qed.

(** A feature is in the evaluation when it is in every system of the
    intersection part, there being one, and in no system of the union
    part. *)
Lemma evaluate_difference_spec :
  exists X,
    feature_location_differences_t.evaluate_difference o diff = Ok X /\
    forall g, g ∈ X <->
      intersections diff <> ∅ /\
      (forall x, x ∈ intersections diff -> g ∈ features_of o x) /\
      (forall x, x ∈ unions diff -> g ∉ features_of o x).
Proof.
  unfold feature_location_differences_t.evaluate_difference.
  destruct evaluate_intersections_spec as (I & -> & HI).
  destruct evaluate_unions_spec as (U & -> & HU).
  cbn [mbind result_bind]. exists (I ∖ U). split; [done|].
  intros g. rewrite elem_of_difference, HI, HU. split.
  - intros [[? ?] Hn]. repeat split; try done.
    intros x Hx Hg. apply Hn. by exists x.
  - intros (? & ? & Hn). split; [done|]. intros (x & Hx & Hg).
    by apply (Hn x).
Qed.
End evaluate.

(** *** Membership patterns *)

Lemma contains_elem_of (fs : list string) g : contains fs g = true <-> g ∈ fs.
Proof.
  unfold contains. rewrite existsb_exists. split.
  - intros (x & Hx & He). apply String.eqb_eq in He as ->.
    by apply list_elem_of_In.
  - intros Hg. exists g. split; [by apply list_elem_of_In|].
    apply String.eqb_refl.
Qed.

Lemma membership_bit systems g p :
  N.testbit (membership systems g) (N.of_nat p)
  = match systems !! p with
    | Some fs => contains fs g
    | None => false
    end.
Proof.
  revert p. induction systems as [|fs systems IH]; intros p.
  - rewrite lookup_nil. apply N.bits_0.
  - cbn [membership foldr]. fold (membership systems g).
    destruct p as [|p].
    + simpl. apply N.testbit_0_r.
    + rewrite Nat2N.inj_succ, N.testbit_succ_r. apply IH.
Qed.

Lemma membership_below systems g :
  membership systems g < 2 ^ N.of_nat (length systems).
Proof.
  induction systems as [|fs systems IH]; [done|].
  cbn [membership foldr length]. fold (membership systems g).
  rewrite Nat2N.inj_succ, N.pow_succ_r'.
  destruct (contains fs g); simpl N.b2n; lia.
Qed.

Lemma nonzero_has_bit e S :
  e <> 0 -> e < 2 ^ S -> exists p, p < S /\ N.testbit e p = true.
Proof.
  intros He Hlt. exists (N.log2 e). split.
  - apply N.log2_lt_pow2; lia.
  - apply N.bit_log2. done.
Qed.

(** *** The evaluation of the difference with a given id *)

Section evaluation.
Variable o : feature_location_t.t.
Let systems := feature_location_t.m_all_systems o.
Let S := feature_location_t.m_S o.
Hypothesis systems_S : N.of_nat (length systems) = S.
Hypothesis S_64 : S <= 64.

Lemma system_at p :
  p < S -> exists fs, systems !! N.to_nat p = Some fs.
Proof.
  intros Hp. apply lookup_lt_is_Some_2. lia.
Qed.

Lemma features_of_name p fs :
  p < S -> systems !! N.to_nat p = Some fs ->
  feature_location_differences_t.system2features o
    (system_name (wrap16 (p + 1))) = Ok (list_to_set fs) /\
  features_of o (system_name (wrap16 (p + 1))) = list_to_set fs.
Proof.
  intros Hp Hfs.
  assert (H : feature_location_differences_t.system2features o
                (system_name (wrap16 (p + 1))) = Ok (list_to_set fs))
    by (apply system2features_name; [lia|done]).
  split; [done|]. unfold features_of. by rewrite H.
Qed.

Lemma wrap16_name p q :
  p < S -> q < S ->
  system_name (wrap16 (p + 1)) = system_name (wrap16 (q + 1)) -> p = q.
Proof.
  intros Hp Hq H. apply system_name_inj in H.
  assert (64 < 2 ^ 16) by done.
  unfold wrap16 in H. rewrite !N.mod_small in H by lia. lia.
Qed.

Lemma generated_names_ok e x :
  x ∈ intersections (feature_location_differences_t.generate_difference o e)
      ∪ unions (feature_location_differences_t.generate_difference o e) ->
  feature_location_differences_t.system2features o x = Ok (features_of o x).
Proof.
  rewrite elem_of_union, generate_difference_intersections,
    generate_difference_unions.
  intros [(p & Hp & _ & ->)|(p & Hp & _ & ->)];
    destruct (system_at p Hp) as [fs Hfs];
    destruct (features_of_name p fs Hp Hfs) as [-> ->]; done.
Qed.

(** The difference with id [e] evaluates to the features whose
    membership pattern is [e]. *)
Lemma evaluate_generated e :
  e < 2 ^ S ->
  exists X,
    feature_location_differences_t.evaluate_difference o
      (feature_location_differences_t.generate_difference o e) = Ok X /\
    forall g, g ∈ X <-> e <> 0 /\ membership systems g = e.
Proof.
  intros He.
  destruct (evaluate_difference_spec o _ (generated_names_ok e))
    as (X & HX & Hspec).
  exists X. split; [done|]. intros g. rewrite Hspec. clear Hspec HX.
  split.
  - intros (Hne & HI & HU).
    assert (e <> 0) as He0.
    { intros ->. apply Hne. apply set_eq. intros x.
      rewrite generate_difference_intersections. split.
      - intros (p & _ & Hb & _). by rewrite N.bits_0 in Hb.
      - by intros ?%elem_of_empty. }
    split; [done|]. apply N.bits_inj. intros i.
    destruct (N.lt_ge_cases i S) as [Hi|Hi].
    + destruct (system_at i Hi) as [fs Hfs].
      rewrite <- (N2Nat.id i) at 1. rewrite membership_bit, Hfs.
      destruct (features_of_name i fs Hi Hfs) as [_ Hf].
      destruct (N.testbit e i) eqn:Hb.
      * apply contains_elem_of, (elem_of_list_to_set (C := gset string)).
        rewrite <- Hf. apply HI.
        apply generate_difference_intersections. by exists i.
      * apply not_true_is_false. intros Hc.
        apply contains_elem_of, (elem_of_list_to_set (C := gset string)) in Hc.
        rewrite <- Hf in Hc. revert Hc. apply HU.
        apply generate_difference_unions. by exists i.
    + rewrite (proj1 (below_pow2_bits e S) He i Hi).
      apply (below_pow2_bits (membership systems g) S); [|done].
      rewrite <- systems_S. apply membership_below.
  - intros [He0 Hm]. split; [|split].
    + destruct (nonzero_has_bit e S He0 He) as (p & Hp & Hb).
      intros Hemp.
      assert (system_name (wrap16 (p + 1)) ∈
                intersections
                  (feature_location_differences_t.generate_difference o e))
        by (apply generate_difference_intersections; by exists p).
      rewrite Hemp in *. by apply elem_of_empty in H.
    + intros x (p & Hp & Hb & ->)%generate_difference_intersections.
      destruct (system_at p Hp) as [fs Hfs].
      destruct (features_of_name p fs Hp Hfs) as [_ ->].
      apply elem_of_list_to_set, contains_elem_of.
      rewrite <- Hm, <- (N2Nat.id p), membership_bit, Hfs in Hb. done.
    + intros x (p & Hp & Hb & ->)%generate_difference_unions.
      destruct (system_at p Hp) as [fs Hfs].
      destruct (features_of_name p fs Hp Hfs) as [_ ->].
      rewrite elem_of_list_to_set, <- contains_elem_of.
      rewrite <- Hm, <- (N2Nat.id p), membership_bit, Hfs in Hb.
      by rewrite Hb.
Qed.
End evaluation.

(** ** The enumeration strategy *)

Lemma difference_eq (d1 d2 : systems_difference_t) :
  intersections d1 = intersections d2 -> unions d1 = unions d2 -> d1 = d2.
Proof. destruct d1, d2. simpl. by intros -> ->. Qed.

Section isolate.
Variable f : string.

Let step := fun (st : N * systems_difference_t) (s : list string) =>
  let system_no := wrap64 (fst st + 1) in
  let name := system_name (wrap16 system_no) in
  let d := snd st in
  (system_no,
   if contains s f
   then {| intersections := {[ name ]} ∪ intersections d;
           unions := unions d |}
   else {| intersections := intersections d;
           unions := {[ name ]} ∪ unions d |}).

Lemma isolate_fold l : forall c d,
  c + N.of_nat (length l) < 2 ^ 64 ->
  (forall x,
     x ∈ intersections (snd (fold_left step l (c, d)))
     <-> x ∈ intersections d
         \/ exists p fs, l !! p = Some fs /\ contains fs f = true
                         /\ x = system_name (wrap16 (c + N.of_nat p + 1))) /\
  (forall x,
     x ∈ unions (snd (fold_left step l (c, d)))
     <-> x ∈ unions d
         \/ exists p fs, l !! p = Some fs /\ contains fs f = false
                         /\ x = system_name (wrap16 (c + N.of_nat p + 1))).
Proof.
  induction l as [|s l IH]; intros c d Hc.
  - simpl. split; intros x; (split; [by left|]);
      intros [?|(p & fs & Hp & _)]; done.
  - cbn [fold_left]. unfold step at 2 4. cbn [fst snd].
    assert (Hw : wrap64 (c + 1) = c + 1)
      by (unfold wrap64; apply N.mod_small; simpl in Hc; lia).
    rewrite Hw.
    match goal with
    | |- context [fold_left step l (c + 1, ?d')] =>
        destruct (IH (c + 1) d' ltac:(simpl in Hc; lia)) as [HI HU]
    end.
    split; intros x; [rewrite HI | rewrite HU]; clear HI HU.
    + destruct (contains s f) eqn:Hs; simpl.
      * rewrite elem_of_union, elem_of_singleton. split.
        -- intros [[->|?]|(p & fs & Hp & Hfs & ->)].
           ++ right. exists 0%nat, s. by rewrite N.add_0_r.
           ++ by left.
           ++ right. exists (Datatypes.S p), fs. repeat split; try done.
              f_equal. f_equal. lia.
        -- intros [?|(p & fs & Hp & Hfs & ->)]; [by left; right|].
           destruct p as [|p].
           ++ injection Hp as <-. left. left. by rewrite N.add_0_r.
           ++ right. exists p, fs. repeat split; try done.
              f_equal. f_equal. lia.
      * split.
        -- intros [?|(p & fs & Hp & Hfs & ->)]; [by left|].
           right. exists (Datatypes.S p), fs. repeat split; try done.
           f_equal. f_equal. lia.
        -- intros [?|(p & fs & Hp & Hfs & ->)]; [by left|].
           destruct p as [|p]; [injection Hp as <-; congruence|].
           right. exists p, fs. repeat split; try done.
           f_equal. f_equal. lia.
    + destruct (contains s f) eqn:Hs; simpl.
      * split.
        -- intros [?|(p & fs & Hp & Hfs & ->)]; [by left|].
           right. exists (Datatypes.S p), fs. repeat split; try done.
           f_equal. f_equal. lia.
        -- intros [?|(p & fs & Hp & Hfs & ->)]; [by left|].
           destruct p as [|p]; [injection Hp as <-; congruence|].
           right. exists p, fs. repeat split; try done.
           f_equal. f_equal. lia.
      * rewrite elem_of_union, elem_of_singleton. split.
        -- intros [[->|?]|(p & fs & Hp & Hfs & ->)].
           ++ right. exists 0%nat, s. by rewrite N.add_0_r.
           ++ by left.
           ++ right. exists (Datatypes.S p), fs. repeat split; try done.
              f_equal. f_equal. lia.
        -- intros [?|(p & fs & Hp & Hfs & ->)]; [by left; right|].
           destruct p as [|p].
           ++ injection Hp as <-. left. left. by rewrite N.add_0_r.
           ++ right. exists p, fs. repeat split; try done.
              f_equal. f_equal. lia.
Qed.
End isolate.

(** The partition computed for a feature is the difference whose id is
    the membership pattern of the feature. *)
Lemma isolate_generate o f :
  N.of_nat (length (feature_location_t.m_all_systems o))
  = feature_location_t.m_S o ->
  feature_location_t.m_S o <= 64 ->
  feature_location_isolation_t.isolate (feature_location_t.m_all_systems o) f
  = feature_location_differences_t.generate_difference o
      (membership (feature_location_t.m_all_systems o) f).
Proof.
  intros HS H64. set (systems := feature_location_t.m_all_systems o) in *.
  assert (H64' : 0 + N.of_nat (length systems) < 2 ^ 64).
  { assert (64 < 2 ^ 64) by done. lia. }
  destruct (isolate_fold f systems 0 {| intersections := ∅; unions := ∅ |} H64')
    as [HI HU].
  apply difference_eq; apply set_eq; intros x.
  - unfold feature_location_isolation_t.isolate.
    etrans; [apply HI|]. rewrite generate_difference_intersections. simpl.
    split.
    + intros [?%elem_of_empty|(p & fs & Hp & Hfs & ->)]; [done|].
      pose proof (lookup_lt_Some _ _ _ Hp). exists (N.of_nat p).
      split; [lia|]. by rewrite membership_bit, Hp.
    + intros (p & Hp & Hb & ->). right.
      rewrite <- (N2Nat.id p), membership_bit in Hb.
      destruct (systems !! N.to_nat p) as [fs|] eqn:Hfs; [|done].
      exists (N.to_nat p), fs. repeat split; try done. by rewrite N2Nat.id.
  - unfold feature_location_isolation_t.isolate.
    etrans; [apply HU|]. rewrite generate_difference_unions. simpl.
    split.
    + intros [?%elem_of_empty|(p & fs & Hp & Hfs & ->)]; [done|].
      pose proof (lookup_lt_Some _ _ _ Hp). exists (N.of_nat p).
      split; [lia|]. by rewrite membership_bit, Hp.
    + intros (p & Hp & Hb & ->). right.
      rewrite <- (N2Nat.id p), membership_bit in Hb.
      destruct (systems !! N.to_nat p) as [fs|] eqn:Hfs.
      * exists (N.to_nat p), fs. repeat split; try done. by rewrite N2Nat.id.
      * apply lookup_ge_None in Hfs. lia.
Qed.

(** The map of the isolations has one entry per feature name. *)
Lemma generate_feature_isolations_lookup b all f :
  feature_location_isolation_t.generate_feature_isolations b all !! f
  = if decide (f ∈ all)
    then Some (feature_location_isolation_t.isolate
                 (feature_location_t.m_all_systems b) f)
    else None.
Proof.
  unfold feature_location_isolation_t.generate_feature_isolations.
  assert (H : forall l (acc : gmap string systems_difference_t),
            fold_left
              (fun (res : gmap string systems_difference_t) f =>
                 match res !! f with
                 | Some _ => res
                 | None =>
                     <[ f := feature_location_isolation_t.isolate
                               (feature_location_t.m_all_systems b) f ]> res
                 end) l acc !! f
            = match acc !! f with
              | Some d => Some d
              | None =>
                  if decide (f ∈ l)
                  then Some (feature_location_isolation_t.isolate
                               (feature_location_t.m_all_systems b) f)
                  else None
              end).
  { induction l as [|g l IH]; intros acc.
    - cbn [fold_left]. destruct (acc !! f); [done|].
      destruct (decide (f ∈ [])) as [Hin|]; [by apply elem_of_nil in Hin|done].
    - cbn [fold_left]. rewrite IH.
      destruct (acc !! g) as [dg|] eqn:Hg.
      + destruct (acc !! f) as [d|] eqn:Hf; [done|].
        assert (f <> g) by congruence.
        destruct (decide (f ∈ l)) as [Hl|Hl];
          destruct (decide (f ∈ g :: l)) as [Hgl|Hgl]; try done.
        * destruct Hgl. by right.
        * apply elem_of_cons in Hgl as [->|?]; done.
      + destruct (decide (f = g)) as [->|Hne].
        * rewrite lookup_insert_eq, Hg.
          destruct (decide (g ∈ g :: l)) as [|Hgl]; [done|].
          destruct Hgl. left.
        * rewrite lookup_insert_ne by done.
          destruct (acc !! f) as [d|]; [done|].
          destruct (decide (f ∈ l)) as [Hl|Hl];
            destruct (decide (f ∈ g :: l)) as [Hgl|Hgl]; try done.
          -- destruct Hgl. by right.
          -- apply elem_of_cons in Hgl as [->|?]; done. }
  rewrite H. by rewrite lookup_empty.
Qed.

(** *** The constructors *)

Lemma isolation_new_ok n m b all :
  feature_location_t.new n m = Ok b ->
  isolation_names b = Ok all ->
  exists iso,
    feature_location_isolation_t.new n m = Ok iso /\
    feature_location_isolation_t.base iso = b /\
    feature_location_isolation_t.m_all_features iso = all /\
    feature_location_isolation_t.m_feature_isolations iso
    = feature_location_isolation_t.generate_feature_isolations b all.
Proof.
  intros Hb Hall. unfold feature_location_isolation_t.new. rewrite Hb.
  unfold isolation_names in Hall. cbn [mbind result_bind] in *.
  destruct (feature_location_isolation_t.generate_or_features b); [|done].
  destruct (feature_location_isolation_t.generate_and_features b); [|done].
  destruct (feature_location_isolation_t.generate_or_not_features b); [|done].
  destruct (feature_location_isolation_t.generate_and_not_features b); [|done].
  cbn [mbind result_bind] in *. injection Hall as <-.
  eexists. split; [reflexivity|]. done.
Qed.

Lemma calculation_new_ok n m b call :
  feature_location_t.new n m = Ok b ->
  calculation_features b = Ok call ->
  exists calc,
    feature_location_calculation_t.new n m = Ok calc /\
    feature_location_calculation_t.base calc = b /\
    feature_location_calculation_t.m_all_features calc = call /\
    feature_location_calculation_t.m_differences calc
    = feature_location_calculation_t.calculate_differences b call.
Proof.
  intros Hb Hall. unfold feature_location_calculation_t.new. rewrite Hb.
  unfold calculation_features in Hall. cbn [mbind result_bind] in *.
  destruct (feature_location_calculation_t.calculate_or_features b _); [|done].
  destruct (feature_location_calculation_t.calculate_and_features b _); [|done].
  destruct (feature_location_calculation_t.calculate_or_not_features b _);
    [|done].
  destruct (feature_location_calculation_t.calculate_and_not_features b _ _);
    [|done].
  cbn [mbind result_bind] in *. injection Hall as <-.
  eexists. split; [reflexivity|]. done.
Qed.

Lemma differences_new_ok n m iso ds :
  feature_location_isolation_t.new n m = Ok iso ->
  feature_location_differences_t.generate_non_empty_differences
    (feature_location_isolation_t.base iso) = Ok ds ->
  feature_location_differences_t.new n m
  = Ok {| feature_location_differences_t.base := iso;
          feature_location_differences_t.m_non_empty_differences := ds |}.
Proof.
  intros Hiso Hds. unfold feature_location_differences_t.new.
  rewrite Hiso. cbn [mbind result_bind]. by rewrite Hds.
Qed.

(** The difference of the closed-form strategy is the difference of the
    exhaustive strategy with the same id. *)
Lemma calculate_difference_generate b index name :
  feature_location_calculation_t.calculate_difference b index name
  = {| difference_id := index; sfd_feature := name;
       difference := feature_location_differences_t.generate_difference b index |}.
Proof. reflexivity. Qed.

Lemma elem_of_calculate_differences b call x :
  x ∈ feature_location_calculation_t.calculate_differences b call
  <-> exists g v, (g, v) ∈ call /\
        x = {| difference_id := v; sfd_feature := g;
               difference :=
                 feature_location_differences_t.generate_difference b v |}.
Proof.
  unfold feature_location_calculation_t.calculate_differences.
  rewrite merge_sort_Permutation, list_elem_of_fmap. split.
  - intros ([g v] & -> & Hin). by exists g, v.
  - intros (g & v & Hin & ->). by exists (g, v).
Qed.

(** ** The taxonomies of up to six features *)

Lemma taxonomy_check_sound n m :
  taxonomy_check n m = true ->
  exists b all call,
    feature_location_t.new n m = Ok b /\
    isolation_names b = Ok all /\
    calculation_features b = Ok call /\
    checked n b all call.
Proof.
  unfold taxonomy_check.
  destruct (feature_location_t.new n m) as [b|]; [|done].
  destruct (isolation_names b) as [all|] eqn:Hall; [|done].
  destruct (calculation_features b) as [call|] eqn:Hcall; [|done].
  cbv zeta. intros H.
  apply andb_true_iff in H as [H K8]. apply andb_true_iff in H as [H K7].
  apply andb_true_iff in H as [H K6]. apply andb_true_iff in H as [H K5].
  apply andb_true_iff in H as [H K4]. apply andb_true_iff in H as [H K3].
  apply andb_true_iff in H as [K1 K2].
  exists b, all, call. do 3 (split; [done|]). constructor.
  - by apply N.eqb_eq.
  - by apply N.leb_le.
  - by apply N.eqb_eq.
  - intros fs g Hfs Hg. rewrite forallb_forall in K4.
    specialize (K4 fs ltac:(by apply list_elem_of_In)).
    rewrite forallb_forall in K4.
    specialize (K4 g ltac:(by apply list_elem_of_In)).
    by apply contains_elem_of.
  - by apply bool_decide_eq_true in K5.
  - intros g Hg. rewrite forallb_forall in K6. apply N.ltb_lt, K6.
    apply list_elem_of_In, list_elem_of_fmap. by exists g.
  - by apply bool_decide_eq_true in K7.
  - intros g v Hgv. rewrite forallb_forall in K8.
    specialize (K8 (g, v) ltac:(by apply list_elem_of_In)).
    by apply N.eqb_eq in K8.
Qed.

(** ** The strategies on a checked taxonomy *)

Lemma NoDup_fmap_eq {A B} (f : A -> B) l x y :
  NoDup (f <$> l) -> x ∈ l -> y ∈ l -> f x = f y -> x = y.
Proof.
  induction l as [|z l IH]; [by intros _ ?%elem_of_nil|].
  rewrite fmap_cons, NoDup_cons.
  intros [Hz Hl] [->|Hx]%elem_of_cons [->|Hy]%elem_of_cons Hf; try done.
  - destruct Hz. rewrite Hf. apply list_elem_of_fmap. by exists y.
  - destruct Hz. rewrite <- Hf. apply list_elem_of_fmap. by exists x.
  - by apply IH.
Qed.

Lemma singleton_or_empty (X : gset string) :
  (forall x y, x ∈ X -> y ∈ X -> x = y) -> (size X <= 1)%nat.
Proof.
  intros Huniq. destruct (set_choose_or_empty X) as [[x Hx]|He].
  - assert (X = {[ x ]}) as ->.
    { apply set_eq. intros y. rewrite elem_of_singleton. split.
      - intros Hy. by apply Huniq.
      - by intros ->. }
    by rewrite size_singleton.
  - apply leibniz_equiv in He. rewrite He, size_empty. lia.
Qed.

Section checked.
Variables (n : N) (b : feature_location_t.t).
Variables (all : list string) (call : list (string * N)).
Hypothesis Hchecked : checked n b all call.

Local Abbreviation systems := (feature_location_t.m_all_systems b).
Local Abbreviation S := (feature_location_t.m_S b).

Lemma checked_below g : membership systems g < 2 ^ S.
Proof.
  rewrite <- (checked_length _ _ _ _ Hchecked).
  apply membership_below.
Qed.

(** A feature with a non-empty membership pattern is in the universe. *)
Lemma checked_known g : membership systems g <> 0 -> g ∈ all.
Proof.
  intros Hg.
  destruct (nonzero_has_bit _ _ Hg (checked_below g)) as (p & Hp & Hb).
  rewrite <- (N2Nat.id p), membership_bit in Hb.
  destruct (systems !! N.to_nat p) as [fs|] eqn:Hfs; [|done].
  apply (checked_closed _ _ _ _ Hchecked fs).
  - by apply list_elem_of_lookup_2 in Hfs.
  - by apply contains_elem_of.
Qed.

Lemma checked_unique g g' :
  g ∈ all -> membership systems g' = membership systems g -> g' = g.
Proof.
  intros Hg Hm.
  pose proof (checked_present _ _ _ _ Hchecked g Hg).
  apply (NoDup_fmap_eq (membership systems) all);
    [apply (checked_distinct _ _ _ _ Hchecked)| |done..].
  apply checked_known. lia.
Qed.

(** The evaluation of the difference with id [e]. *)
Lemma checked_evaluation e :
  e < 2 ^ S ->
  feature_location_differences_t.evaluate_difference b
    (feature_location_differences_t.generate_difference b e)
  = Ok (evaluation b e) /\
  (forall g, g ∈ evaluation b e <-> e <> 0 /\ membership systems g = e) /\
  (size (evaluation b e) <= 1)%nat.
Proof.
  intros He.
  destruct (evaluate_generated b (checked_length _ _ _ _ Hchecked)
              (checked_64 _ _ _ _ Hchecked) e He) as (X & HX & Hspec).
  unfold evaluation. rewrite HX. cbn [get_ok].
  split; [done|]. split; [done|].
  apply singleton_or_empty. intros x y [Hx0 Hx]%Hspec [_ Hy]%Hspec.
  assert (x ∈ all) by (apply checked_known; congruence).
  symmetry. apply (checked_unique x y); [done|]. congruence.
Qed.

(** The difference whose id is the membership pattern of a feature
    evaluates to that feature alone. *)
Lemma checked_isolates f :
  f ∈ all ->
  evaluation b (membership systems f) = {[ f ]}.
Proof.
  intros Hf.
  destruct (checked_evaluation (membership systems f) (checked_below f))
    as (_ & Hspec & _).
  pose proof (checked_present _ _ _ _ Hchecked f Hf) as Hpos.
  apply set_eq. intros g. rewrite Hspec, elem_of_singleton. split.
  - intros [_ Hg]. by apply checked_unique.
  - intros ->. split; [lia | done].
Qed.

Lemma checked_isolation f :
  feature_location_isolation_t.generate_feature_isolations b all !! f
  = if decide (f ∈ all)
    then Some (feature_location_differences_t.generate_difference b
                 (membership systems f))
    else None.
Proof.
  rewrite generate_feature_isolations_lookup.
  destruct (decide (f ∈ all)); [|done].
  by rewrite (isolate_generate b f (checked_length _ _ _ _ Hchecked)
                (checked_64 _ _ _ _ Hchecked)).
Qed.

(** The names of the closed-form strategy are the names of the
    enumeration strategy. *)
Lemma checked_call f :
  f ∈ all <-> exists v, (f, v) ∈ call.
Proof.
  rewrite <- (checked_names _ _ _ _ Hchecked).
  unfold sort. rewrite merge_sort_Permutation, list_elem_of_fmap. split.
  - intros ([g v] & -> & Hin). by exists v.
  - intros (v & Hin). by exists (f, v).
Qed.

(** Enumeration and closed form give the same differences. *)
Lemma checked_isolation_calculation f d :
  feature_location_isolation_t.generate_feature_isolations b all !! f = Some d
  <-> exists x,
        x ∈ feature_location_calculation_t.calculate_differences b call /\
        sfd_feature x = f /\ difference x = d.
Proof.
  rewrite checked_isolation. split.
  - destruct (decide (f ∈ all)) as [Hf|]; [|done]. intros [= <-].
    apply checked_call in Hf as [v Hv].
    pose proof (checked_values _ _ _ _ Hchecked f v Hv) as Hval.
    eexists. split; [apply elem_of_calculate_differences; by exists f, v|].
    simpl. split; [done|]. by rewrite Hval.
  - intros (x & (g & v & Hgv & ->)%elem_of_calculate_differences & <- & <-).
    simpl. rewrite decide_True by (apply checked_call; by exists v).
    by rewrite (checked_values _ _ _ _ Hchecked g v Hgv).
Qed.

(** The exhaustive strategy, when [D] is [2 ^ S]. *)
Hypothesis HD : feature_location_t.m_D b = 2 ^ S.

Local Abbreviation ids :=
  (range 1 (N.to_nat (feature_location_t.m_D b - 1))).

Lemma checked_ids e : e ∈ ids <-> e <> 0 /\ e < 2 ^ S.
Proof. rewrite elem_of_range, HD. lia. Qed.

Lemma checked_exhaustive :
  feature_location_differences_t.generate_non_empty_differences b
  = Ok (kept b (evaluation b)
          <$> filter (fun e => size (evaluation b e) = 1%nat) ids).
Proof.
  unfold feature_location_differences_t.generate_non_empty_differences.
  rewrite for_range_for_each.
  rewrite (keep_loop_ok b (evaluation b) ids []); [done| |].
  - intros e [_ He]%checked_ids. by apply checked_evaluation.
  - intros e [_ He]%checked_ids. by apply checked_evaluation.
Qed.

(** Enumeration and exhaustive search give the same differences. *)
Lemma checked_isolation_exhaustive f d :
  feature_location_isolation_t.generate_feature_isolations b all !! f = Some d
  <-> exists x,
        x ∈ kept b (evaluation b)
              <$> filter (fun e => size (evaluation b e) = 1%nat) ids /\
        sfd_feature x = f /\ difference x = d.
Proof.
  rewrite checked_isolation. split.
  - destruct (decide (f ∈ all)) as [Hf|]; [|done]. intros [= <-].
    pose proof (checked_isolates f Hf) as Hev.
    pose proof (checked_present _ _ _ _ Hchecked f Hf) as Hpos.
    exists (kept b (evaluation b) (membership systems f)). split; [|split].
    + apply list_elem_of_fmap. eexists. split; [done|].
      apply list_elem_of_filter. split.
      * by rewrite Hev, size_singleton.
      * apply checked_ids. split; [lia|].
        apply checked_below.
    + cbn [kept sfd_feature].
      assert (Hs : size (evaluation b (membership systems f)) = 1%nat)
        by (by rewrite Hev, size_singleton).
      apply size_1_sole in Hs. rewrite Hev in Hs at 1.
      symmetry. by apply (inj singleton) in Hs.
    + done.
  - intros (x & (e & -> & [Hsz He]%list_elem_of_filter)%list_elem_of_fmap
              & <- & <-).
    apply checked_ids in He as [He0 He].
    destruct (checked_evaluation e He) as (_ & Hspec & _).
    pose proof (size_1_sole _ Hsz) as Hsole. cbn [kept sfd_feature difference].
    set (g := default ""%string (head (set_elements (evaluation b e)))) in *.
    assert (Hg : g ∈ evaluation b e) by (rewrite Hsole; set_solver).
    apply Hspec in Hg as [_ Hg].
    rewrite decide_True by (apply checked_known; congruence).
    by rewrite Hg.
Qed.
End checked.

(** The taxonomies of one to six features pass the check in all 19
    models. *)
Lemma taxonomy_checked n m :
  1 <= n <= 6 -> 1 <= m <= 19 -> taxonomy_check n m = true.
Proof.
  intros Hn Hm.
  assert (H : forallb (fun n => forallb (taxonomy_check n) (range 1 19))
                (range 1 6) = true) by (vm_compute; reflexivity).
  rewrite forallb_forall in H.
  specialize (H n ltac:(apply list_elem_of_In, elem_of_range; lia)).
  rewrite forallb_forall in H.
  apply H, list_elem_of_In, elem_of_range. lia.
Qed.

(** Where the difference with a given id puts a system. *)
Lemma generated_part_of_system b e p fs g :
  N.of_nat (length (feature_location_t.m_all_systems b))
  = feature_location_t.m_S b ->
  feature_location_t.m_S b <= 64 ->
  e = membership (feature_location_t.m_all_systems b) g ->
  feature_location_t.m_all_systems b !! p = Some fs ->
  let d := feature_location_differences_t.generate_difference b e in
  (system_name (N.of_nat p + 1) ∈ intersections d <-> g ∈ fs) /\
  (system_name (N.of_nat p + 1) ∈ unions d <-> g ∉ fs).
Proof.
  intros HS H64 -> Hfs d. unfold d.
  pose proof (lookup_lt_Some _ _ _ Hfs) as Hp.
  assert (Hbit : N.testbit
                   (membership (feature_location_t.m_all_systems b) g)
                   (N.of_nat p) = contains fs g)
    by (by rewrite membership_bit, Hfs).
  assert (Hw : forall q, q < feature_location_t.m_S b ->
                         wrap16 (q + 1) = q + 1).
  { intros q Hq. unfold wrap16. apply N.mod_small.
    assert (64 < 2 ^ 16) by done. lia. }
  rewrite generate_difference_intersections, generate_difference_unions.
  rewrite <- contains_elem_of. split; split.
  - intros (q & Hq & Hb & Hname). rewrite Hw in Hname by done.
    apply system_name_inj in Hname.
    replace q with (N.of_nat p) in Hb by lia. congruence.
  - intros Hc. exists (N.of_nat p). rewrite Hw by lia.
    split; [lia|]. split; [congruence|done].
  - intros (q & Hq & Hb & Hname). rewrite Hw in Hname by done.
    apply system_name_inj in Hname.
    replace q with (N.of_nat p) in Hb by lia. congruence.
  - intros Hc. exists (N.of_nat p). rewrite Hw by lia.
    split; [lia|]. split; [|done]. rewrite Hbit. by apply not_true_is_false.
Qed.

(** C1, as the code has it: for one to six features and every model the
    enumeration strategy and the closed-form strategy give the same
    features with the same differences, and for one to five features so
    does the exhaustive strategy. *)
Theorem strategies_agree :
  (forall n m, 1 <= n <= 6 -> 1 <= m <= 19 ->
     exists iso calc,
       feature_location_isolation_t.new n m = Ok iso /\
       feature_location_calculation_t.new n m = Ok calc /\
       forall f d,
         feature_location_isolation_t.m_feature_isolations iso !! f = Some d
         <-> exists x,
               x ∈ feature_location_calculation_t.m_differences calc /\
               sfd_feature x = f /\ difference x = d) /\
  (forall n m, 1 <= n <= 5 -> 1 <= m <= 19 ->
     exists iso diffs,
       feature_location_isolation_t.new n m = Ok iso /\
       feature_location_differences_t.new n m = Ok diffs /\
       feature_location_differences_t.base diffs = iso /\
       forall f d,
         feature_location_isolation_t.m_feature_isolations iso !! f = Some d
         <-> exists x,
               x ∈ feature_location_differences_t.m_non_empty_differences diffs /\
               sfd_feature x = f /\ difference x = d).
Proof.
  split.
  - intros n m Hn Hm.
    destruct (taxonomy_check_sound n m (taxonomy_checked n m Hn Hm))
      as (b & all & call & Hb & Hall & Hcall & Hc).
    destruct (isolation_new_ok n m b all Hb Hall)
      as (iso & Hiso & Hbase & _ & Hmap).
    destruct (calculation_new_ok n m b call Hb Hcall)
      as (calc & Hcalc & _ & _ & Hds).
    exists iso, calc. do 2 (split; [done|]). intros f d.
    rewrite Hmap, Hds. apply (checked_isolation_calculation _ _ _ _ Hc).
  - intros n m Hn Hm.
    destruct (taxonomy_check_sound n m (taxonomy_checked n m ltac:(lia) Hm))
      as (b & all & call & Hb & Hall & Hcall & Hc).
    destruct (isolation_new_ok n m b all Hb Hall)
      as (iso & Hiso & Hbase & _ & Hmap).
    assert (HD : feature_location_t.m_D b = 2 ^ feature_location_t.m_S b).
    { rewrite (checked_D _ _ _ _ Hc).
      destruct (N.ltb_spec n 6); [done|lia]. }
    pose proof (checked_exhaustive _ _ _ _ Hc HD) as Hex.
    rewrite <- Hbase in Hex.
    eexists iso, _. split; [done|].
    split; [apply (differences_new_ok n m iso _ Hiso Hex)|].
    split; [done|]. intros f d. cbn [feature_location_differences_t.m_non_empty_differences].
    rewrite Hmap, Hbase.
    apply (checked_isolation_exhaustive _ _ _ _ Hc HD).
Qed.

Lemma strategies_agree_witness :
  exists iso diffs,
    feature_location_isolation_t.new 2 8 = Ok iso /\
    feature_location_differences_t.new 2 8 = Ok diffs /\
    feature_location_differences_t.base diffs = iso /\
    forall f d,
      feature_location_isolation_t.m_feature_isolations iso !! f = Some d
      <-> exists x,
            x ∈ feature_location_differences_t.m_non_empty_differences diffs /\
            sfd_feature x = f /\ difference x = d.
Proof. apply (proj2 strategies_agree 2 8); lia. Defined.

(** C1 as stated fails for six features: [D], 2 to the power 64, wraps
    around to 0, so the exhaustive strategy visits no id and isolates
    nothing, while the enumeration strategy isolates f1. *)
Lemma exhaustive_strategy_empty_for_six_features :
  feature_location_t.m_D <$> feature_location_t.new 6 1 = Ok 0 /\
  feature_location_differences_t.m_non_empty_differences
    <$> feature_location_differences_t.new 6 1 = Ok [] /\
  (fun iso => bool_decide (is_Some
     (feature_location_isolation_t.m_feature_isolations iso !! "f1"%string)))
    <$> feature_location_isolation_t.new 6 1 = Ok true.
Proof. vm_compute. done. Qed.

(** * Further properties *)

(** * Further properties of the code *)

(** ** Arithmetic *)

Lemma power_pow base exponent :
  power base exponent = base ^ exponent mod 2 ^ 64.
Proof.
  unfold power. induction exponent as [|e IH] using N.peano_ind.
  - done.
  - rewrite N.iter_succ, IH. unfold wrap64.
    rewrite N.Div0.mul_mod_idemp_l, N.pow_succ_r'. f_equal. lia.
Qed.

Lemma pow2_wraps e : 64 <= e -> 2 ^ e mod 2 ^ 64 = 0.
Proof.
  intros He. replace e with (e - 64 + 64) by lia.
  rewrite N.pow_add_r. apply N.Div0.mod_mul.
Qed.

(** X1: [power] computes the power modulo 2^64, in both files; [power2]
    is exact up to the exponent 63 and 0 from the exponent 64 on. *)
Theorem power_wraps_at_64_bits :
  (forall base exponent,
     power base exponent = base ^ exponent mod 2 ^ 64 /\
     fl.power base exponent = base ^ exponent mod 2 ^ 64) /\
  (forall e, e < 64 -> power2 e = 2 ^ e) /\
  (forall e, 64 <= e -> power2 e = 0).
Proof.
  split; [|split].
  - intros base exponent. split; apply power_pow.
  - intros e He. unfold power2. rewrite power_pow. apply N.mod_small.
    by apply N.pow_lt_mono_r.
  - intros e He. unfold power2. rewrite power_pow. by apply pow2_wraps.
Qed.

Lemma power_wraps_at_64_bits_witness :
  power2 5 = 2 ^ 5 /\ power2 64 = 0.
Proof.
  destruct power_wraps_at_64_bits as (_ & Hlow & Hhigh).
  split; [apply Hlow; lia | apply Hhigh; lia].
Defined.

Lemma nth_zip_with_add (a b : list N) i :
  length a = length b ->
  nth i (zip_with N.add a b) 0 = nth i a 0 + nth i b 0.
Proof.
  revert b i. induction a as [|x a IH]; intros [|y b] i Hl; try done.
  - by destruct i.
  - destruct i as [|i]; [done|]. simpl. apply IH. simpl in Hl. lia.
Qed.

Lemma pascal_row_length n : length (pascal_row n) = S n.
Proof.
  induction n as [|n IH]; [done|]. cbn [pascal_row]. cbv zeta.
  rewrite length_zip_with, length_app, !length_cons, IH. cbn [length]. lia.
Qed.

Lemma nth_snoc_0 (r : list N) i : nth i (r ++ [0]) 0 = nth i r 0.
Proof.
  revert i. induction r as [|x r IH]; intros [|i]; simpl; try done.
  by destruct i.
Qed.

(** The rows of Pascal's triangle hold the binomial coefficients. *)
Lemma pascal_row_binomial n k :
  nth k (pascal_row n) 0 = N.of_nat (binomial n k).
Proof.
  revert k. induction n as [|n IH]; intros k.
  - destruct k as [|k]; [done|]. by destruct k.
  - cbn [pascal_row]. cbv zeta.
    rewrite nth_zip_with_add
      by (simpl; rewrite length_app, pascal_row_length; simpl; lia).
    rewrite nth_snoc_0. destruct k as [|k].
    + simpl nth at 1. rewrite IH. by destruct n.
    + simpl nth at 1. rewrite !IH. simpl binomial. lia.
Qed.

(** X2: from 1 to 20 items [combinations] is the binomial coefficient, and
    up to 20 items the sum of the combinations of the sample sizes 2 .. n,
    the number of or- and of and-features, is 2^n - n - 1.  Without items
    [combinations 0 0] is 0, [product] being 0 as soon as a bound is 0;
    with 21 items the product of the numerator has left 64 bits and the
    quotient is no binomial coefficient any more. *)
Theorem combinations_exact_up_to_20 :
  (forall n k, k <= n -> 1 <= n <= 20 ->
     combinations n k = N.of_nat (binomial (N.to_nat n) (N.to_nat k))) /\
  (forall n, n <= 20 -> sum_of_combinations n 2 = 2 ^ n - n - 1) /\
  combinations 0 0 = 0 /\
  combinations 21 20 <> 21.
Proof.
  split; [|split; [|split]].
  - intros n k Hk Hn. rewrite <- pascal_row_binomial.
    assert (H : forallb
                  (fun n => forallb
                     (fun k => combinations n k
                               =? nth (N.to_nat k) (pascal_row (N.to_nat n)) 0)
                     (range 0 (S (N.to_nat n))))
                  (range 1 20) = true) by (vm_compute; reflexivity).
    rewrite forallb_forall in H.
    specialize (H n ltac:(apply list_elem_of_In, elem_of_range; lia)).
    rewrite forallb_forall in H.
    specialize (H k ltac:(apply list_elem_of_In, elem_of_range; lia)).
    by apply N.eqb_eq in H.
  - intros n Hn.
    assert (H : forallb (fun n => sum_of_combinations n 2 =? 2 ^ n - n - 1)
                  (range 0 21) = true) by (vm_compute; reflexivity).
    rewrite forallb_forall in H.
    specialize (H n ltac:(apply list_elem_of_In, elem_of_range; lia)).
    by apply N.eqb_eq in H.
  - reflexivity.
  - vm_compute. discriminate.
Qed.

Lemma combinations_exact_up_to_20_witness :
  combinations 6 3 = N.of_nat (binomial (N.to_nat 6) (N.to_nat 3)) /\
  sum_of_combinations 6 2 = 2 ^ 6 - 6 - 1.
Proof.
  destruct combinations_exact_up_to_20 as (Hc & Hs & _ & _).
  split; [apply Hc; lia | apply Hs; lia].
Defined.

(** ** Vectors of feature ids *)

Lemma contains_N (v : list N) (e : N) : contains v e = true <-> e ∈ v.
Proof.
  unfold contains. rewrite existsb_exists. split.
  - intros (x & Hx & He). apply N.eqb_eq in He as ->.
    by apply list_elem_of_In.
  - intros He. exists e. split; [by apply list_elem_of_In|].
    apply N.eqb_refl.
Qed.

Lemma StronglySorted_filter_list {A} (R : relation A) (P : A -> Prop)
    `{forall x, Decision (P x)} (l : list A) :
  StronglySorted R l -> StronglySorted R (filter P l).
Proof.
  induction 1 as [|x l Hl IH Hx]; [constructor|].
  rewrite filter_cons. destruct (decide (P x)); [|done].
  constructor; [done|]. rewrite Forall_forall in *.
  intros y [_ Hy]%list_elem_of_filter. by apply Hx.
Qed.

Lemma range_sorted len : forall lo, StronglySorted N.lt (range lo len).
Proof.
  induction len as [|len IH]; intros lo; [constructor|].
  rewrite range_cons. constructor; [apply IH|].
  apply Forall_forall. intros x Hx%elem_of_range. lia.
Qed.

Lemma elem_of_negate v n x : x ∈ negate v n <-> 1 <= x <= n /\ x ∉ v.
Proof.
  unfold negate. rewrite list_elem_of_filter, elem_of_range, <- contains_N.
  rewrite not_true_iff_false. split; intros [? ?]; (split; [|lia || done]);
    lia || done.
Qed.

(** X3: for n < 65535, where the 16-bit counter of its loop does not
    wrap around, [negate v n] lists, in increasing order and without
    repetition, the ids of 1 .. n that are not in [v]; negating twice
    gives the ids of 1 .. n that are in [v]. *)
Theorem negate_is_complement v n :
  n < 65535 ->
  (forall x, x ∈ negate v n <-> 1 <= x <= n /\ x ∉ v) /\
  StronglySorted N.lt (negate v n) /\
  (forall x, x ∈ negate (negate v n) n <-> 1 <= x <= n /\ x ∈ v).
Proof.
  intros _. split; [apply elem_of_negate|]. split.
  - unfold negate. apply StronglySorted_filter_list, range_sorted.
  - intros x. rewrite elem_of_negate, elem_of_negate. split.
    + intros [Hx Hn]. split; [done|].
      destruct (decide (x ∈ v)); [done|]. destruct Hn. by split.
    + intros [Hx Hv]. split; [done|]. by intros [_ ?].
Qed.

Lemma negate_is_complement_witness :
  (forall x, x ∈ negate [2] 3 <-> 1 <= x <= 3 /\ x ∉ [2]) /\
  StronglySorted N.lt (negate [2] 3).
Proof.
  destruct (negate_is_complement [2] 3) as (H1 & H2 & _); [done|].
  split; [exact H1 | exact H2].
Defined.

Lemma vector2unsigned_bit v i :
  N.testbit (vector2unsigned v) i = true <-> exists x, x ∈ v /\ i = x - 1.
Proof.
  induction v as [|y v IH].
  - change (vector2unsigned []) with 0. rewrite N.bits_0.
    split; [done|]. by intros (x & ?%elem_of_nil & _).
  - change (vector2unsigned (y :: v))
      with (N.lor (N.shiftl 1 (y - 1)) (vector2unsigned v)).
    rewrite N.lor_spec, orb_true_iff, IH, N.shiftl_1_l, N.pow2_bits_eqb,
      N.eqb_eq. split.
    + intros [<-|(x & Hx & ->)]; [exists y|exists x];
        (split; [|done]); first [by left | by right].
    + intros (x & [->|Hx]%elem_of_cons & ->); [by left|].
      right. by exists x.
Qed.

(** X4: [unsigned2vector u] lists the positions of the bits of the 64 low
    bits of [u], counted from 1 and in increasing order; the bits at these
    positions give the 64 low bits of [u] back. *)
Theorem unsigned2vector_bits u :
  (forall x, x ∈ unsigned2vector u
             <-> 1 <= x <= 64 /\ N.testbit u (x - 1) = true) /\
  StronglySorted N.lt (unsigned2vector u) /\
  vector2unsigned (unsigned2vector u) = u mod 2 ^ 64.
Proof.
  assert (Hin : forall x, x ∈ unsigned2vector u
                          <-> 1 <= x <= 64 /\ N.testbit u (x - 1) = true).
  { intros x. unfold unsigned2vector. rewrite list_elem_of_fmap. split.
    - intros (bit & -> & [Hb Hr]%list_elem_of_filter).
      apply elem_of_range in Hr. apply land_bit_nonzero in Hb.
      replace (bit + 1 - 1) with bit by lia. split; [lia|done].
    - intros [Hx Hb]. exists (x - 1). split; [lia|].
      apply list_elem_of_filter. split; [by apply land_bit_nonzero|].
      apply elem_of_range. lia. }
  split; [done|]. split.
  - unfold unsigned2vector. apply (StronglySorted_fmap _ N.lt); [intros; lia|].
    apply StronglySorted_filter_list, range_sorted.
  - apply N.bits_inj. intros i.
    apply eq_true_iff_eq. rewrite vector2unsigned_bit.
    setoid_rewrite Hin. destruct (N.lt_ge_cases i 64) as [Hi|Hi].
    + rewrite N.mod_pow2_bits_low by done. split.
      * intros (x & [Hx Hb] & ->). done.
      * intros Hb. exists (i + 1). replace (i + 1 - 1) with i by lia.
        repeat split; lia || done.
    + rewrite N.mod_pow2_bits_high by done. split; [|done].
      intros (x & [Hx Hb] & ->). lia.
Qed.

(** ** Names *)

Lemma independent_names b :
  feature_location_t.m_n b < 2 ^ 16 ->
  fst <$> feature_location_calculation_t.calculate_independent_features b
  = independent_feature_name <$> range 1 (N.to_nat (feature_location_t.m_n b)).
Proof.
  intros Hn. unfold feature_location_calculation_t.calculate_independent_features.
  rewrite <- list_fmap_compose. unfold range.
  rewrite <- !list_fmap_compose. apply list_fmap_ext.
  intros i x Hx%lookup_seq. simpl.
  destruct (N.iter _ _ _) as [[value ?] ?]. simpl.
  unfold wrap16. rewrite N.mod_small by lia. f_equal. lia.
Qed.

(** X5: the composite names need a first operand, an empty vector of ids
    makes [at(0)] throw; and the closed-form strategy, which builds the
    names of the not-features from the names of the independent features
    and not by [not_feature_name], gives them the names of the
    enumeration strategy. *)
Theorem not_feature_names_agree :
  (or_feature_name [] = Throw out_of_range /\
   and_feature_name [] = Throw out_of_range /\
   or_not_feature_name [] = Throw out_of_range /\
   and_not_feature_name [] = Throw out_of_range) /\
  (forall i j, independent_feature_name i = independent_feature_name j -> i = j) /\
  (forall i j, not_feature_name i = not_feature_name j -> i = j) /\
  (forall b bitmask,
     feature_location_t.m_n b < 2 ^ 16 ->
     feature_location_t.m_raw_independent_features b
     = range 1 (N.to_nat (feature_location_t.m_n b)) ->
     fst <$> feature_location_calculation_t.calculate_not_features b
               (feature_location_calculation_t.calculate_independent_features b)
               bitmask
     = feature_location_isolation_t.generate_not_features b).
Proof.
  split; [done|]. split; [|split].
  - unfold independent_feature_name, to_string, feature. intros i j H.
    injection H as H. by apply pretty_N_inj in H.
  - unfold not_feature_name, to_string, feature, feature_not. intros i j H.
    injection H as H. by apply pretty_N_inj in H.
  - intros b bitmask Hn Hraw.
    unfold feature_location_calculation_t.calculate_not_features,
      feature_location_isolation_t.generate_not_features.
    destruct (hasN _); [|done].
    rewrite <- list_fmap_compose.
    change ((fun f : string * N => feature_not +:+ fst f) <$>
              feature_location_calculation_t.calculate_independent_features b
            = not_feature_name <$>
                feature_location_t.m_raw_independent_features b).
    rewrite Hraw.
    trans ((fun s => feature_not +:+ s) <$>
             (fst <$> feature_location_calculation_t.calculate_independent_features b)).
    + by rewrite <- list_fmap_compose.
    + rewrite independent_names by done. by rewrite <- list_fmap_compose.
Qed.

Lemma not_feature_names_agree_witness :
  fst <$> feature_location_calculation_t.calculate_not_features (location 3 8)
            (feature_location_calculation_t.calculate_independent_features
               (location 3 8)) 0
  = feature_location_isolation_t.generate_not_features (location 3 8).
Proof.
  apply (proj2 (proj2 (proj2 not_feature_names_agree))); vm_compute; done.
Defined.

(** ** Systems by name *)

(** X6: [system2features] reads the name of each of the first 64 systems
    back to the features of this system; it throws a logic error for a
    string that is too short or does not start with the letter of the
    systems, an invalid-argument error when no number follows, and an
    out-of-range error for the number 0 and for a number above the number
    of systems. *)
Theorem system2features_by_name (o : feature_location_t.t) :
  let systems := feature_location_t.m_all_systems o in
  N.of_nat (length systems) < 2 ^ 64 ->
  (forall p fs, p < 64 -> systems !! N.to_nat p = Some fs ->
     feature_location_differences_t.system2features o (system_name (p + 1))
     = Ok (list_to_set fs)) /\
  (forall s, (String.length s < 2)%nat \/ String.prefix system s = false ->
     feature_location_differences_t.system2features o s = Throw logic_error) /\
  feature_location_differences_t.system2features o "Sx" = Throw invalid_argument /\
  feature_location_differences_t.system2features o (system_name 0)
  = Throw out_of_range /\
  (forall n, N.of_nat (length systems) < n <= 64 ->
     feature_location_differences_t.system2features o (system_name n)
     = Throw out_of_range).
Proof.
  intros systems Hlen. split; [|split; [|split; [|split]]].
  - intros p fs Hp Hfs.
    rewrite <- (system2features_name o p fs Hp Hfs).
    f_equal. f_equal. unfold wrap16. rewrite N.mod_small; [done|].
    assert (64 < 2 ^ 16) by done. lia.
  - intros s Hs. unfold feature_location_differences_t.system2features.
    destruct Hs as [Hs| ->].
    + destruct (Nat.ltb_spec (String.length s) (String.length system + 1));
        [reflexivity|]. simpl in *. lia.
    + cbn [negb]. by rewrite orb_true_r.
  - done.
  - unfold feature_location_differences_t.system2features. simpl.
    unfold at_N. fold systems.
    match goal with
    | |- context [?a <? N.of_nat (length systems)] =>
        destruct (N.ltb_spec a (N.of_nat (length systems))) as [H|]; [|done];
        let v := eval vm_compute in a in change a with v in H
    end.
    assert (2 ^ 64 = 18446744073709551616) by done. lia.
  - intros n Hn. pose proof (name_check_64 n ltac:(lia)) as Hc.
    unfold name_check in Hc. apply andb_true_iff in Hc as [Hc1 Hc2].
    apply negb_true_iff in Hc1.
    unfold feature_location_differences_t.system2features. rewrite Hc1.
    destruct (feature_location_differences_t.stoull _) as [v|]; [|done].
    apply N.eqb_eq in Hc2 as ->. cbn [mbind result_bind].
    assert (Hi : wrap64 (n + 2 ^ 64 - 1) = n - 1).
    { unfold wrap64. replace (n + 2 ^ 64 - 1) with (n - 1 + 1 * 2 ^ 64) by lia.
      rewrite N.Div0.mod_add. apply N.mod_small.
      assert (64 < 2 ^ 64) by done. lia. }
    rewrite Hi. unfold at_N. fold systems.
    by destruct (N.ltb_spec (n - 1) (N.of_nat (length systems))); [lia|].
Qed.

Lemma system2features_by_name_witness :
  feature_location_differences_t.system2features (location 2 8) (system_name 4)
  = Ok (list_to_set ["f1"; "f1 * f2"; "f1 + f2"; "f2"]) /\
  feature_location_differences_t.system2features (location 2 8) "f1"
  = Throw logic_error /\
  feature_location_differences_t.system2features (location 2 8) (system_name 5)
  = Throw out_of_range.
Proof.
  destruct (system2features_by_name (location 2 8))
    as (Hname & Hlogic & _ & _ & Hrange); [vm_compute; done|].
  split; [|split].
  - apply (Hname 3); [lia|]. vm_compute. reflexivity.
  - apply Hlogic. right. reflexivity.
  - apply Hrange. vm_compute. split; [reflexivity | discriminate].
Defined.

(** ** Differences by id *)

Lemma wrap16_system S p : S <= 64 -> p < S -> wrap16 (p + 1) = p + 1.
Proof.
  intros HS Hp. unfold wrap16. apply N.mod_small.
  assert (64 < 2 ^ 16) by done. lia.
Qed.

Lemma generated_intersections_bit o e p :
  feature_location_t.m_S o <= 64 -> p < feature_location_t.m_S o ->
  system_name (p + 1)
    ∈ intersections (feature_location_differences_t.generate_difference o e)
  <-> N.testbit e p = true.
Proof.
  intros HS Hp. rewrite generate_difference_intersections. split.
  - intros (q & Hq & Hb & Hn). rewrite (wrap16_system _ q HS Hq) in Hn.
    apply system_name_inj in Hn. by replace p with q by lia.
  - intros Hb. exists p. by rewrite (wrap16_system _ p HS Hp).
Qed.

Lemma generated_unions_bit o e p :
  feature_location_t.m_S o <= 64 -> p < feature_location_t.m_S o ->
  system_name (p + 1)
    ∈ unions (feature_location_differences_t.generate_difference o e)
  <-> N.testbit e p = false.
Proof.
  intros HS Hp. rewrite generate_difference_unions. split.
  - intros (q & Hq & Hb & Hn). rewrite (wrap16_system _ q HS Hq) in Hn.
    apply system_name_inj in Hn. by replace p with q by lia.
  - intros Hb. exists p. by rewrite (wrap16_system _ p HS Hp).
Qed.

(** X7: the difference with id [e] puts system [p + 1] into the
    intersection part when bit [p] of [e] is set and into the union part
    otherwise; the two parts are disjoint and hold together the names of
    all [S] systems; the bits of [e] from position [S] on do not matter;
    and the complement of [e] within [S] bits exchanges the parts. *)
Theorem generate_difference_partition (o : feature_location_t.t) (e : N) :
  let S := feature_location_t.m_S o in
  let d := feature_location_differences_t.generate_difference o e in
  S <= 64 ->
  (forall p, p < S ->
     (system_name (p + 1) ∈ intersections d <-> N.testbit e p = true) /\
     (system_name (p + 1) ∈ unions d <-> N.testbit e p = false)) /\
  intersections d ∩ unions d = ∅ /\
  (forall x, x ∈ intersections d ∪ unions d
             <-> exists p, p < S /\ x = system_name (p + 1)) /\
  feature_location_differences_t.generate_difference o (e mod 2 ^ S) = d /\
  intersections
    (feature_location_differences_t.generate_difference o (N.lnot e S))
  = unions d /\
  unions (feature_location_differences_t.generate_difference o (N.lnot e S))
  = intersections d.
Proof.
  intros S d HS. unfold d. repeat apply conj.
  - intros p Hp.
    split; [by apply generated_intersections_bit
           | by apply generated_unions_bit].
  - apply set_eq. intros x. rewrite elem_of_intersection,
      generate_difference_intersections, generate_difference_unions.
    split; [|by intros ?%elem_of_empty].
    intros [(p & Hp & Hb & ->) (q & Hq & Hb' & Hn)].
    rewrite (wrap16_system _ p HS Hp), (wrap16_system _ q HS Hq) in Hn.
    apply system_name_inj in Hn. replace q with p in Hb' by lia. congruence.
  - intros x. rewrite elem_of_union, generate_difference_intersections,
      generate_difference_unions. split.
    + intros [(p & Hp & _ & ->)|(p & Hp & _ & ->)]; exists p;
        by rewrite (wrap16_system _ p HS Hp).
    + intros (p & Hp & ->). rewrite <- (wrap16_system _ p HS Hp).
      destruct (N.testbit e p) eqn:Hb; [left|right]; by exists p.
  - apply difference_eq; apply set_eq; intros x.
    + rewrite !generate_difference_intersections.
      split; intros (p & Hp & Hb & ->); exists p;
        (split; [done|]); (split; [|done]);
        by rewrite N.mod_pow2_bits_low in *.
    + rewrite !generate_difference_unions.
      split; intros (p & Hp & Hb & ->); exists p;
        (split; [done|]); (split; [|done]);
        by rewrite N.mod_pow2_bits_low in *.
  - apply set_eq. intros x.
    rewrite generate_difference_intersections, generate_difference_unions.
    split; intros (p & Hp & Hb & ->); exists p;
      (split; [done|]); (split; [|done]);
      rewrite N.lnot_spec_low in * by done;
      by destruct (N.testbit e p).
  - apply set_eq. intros x.
    rewrite generate_difference_intersections, generate_difference_unions.
    split; intros (p & Hp & Hb & ->); exists p;
      (split; [done|]); (split; [|done]);
      rewrite N.lnot_spec_low in * by done;
      by destruct (N.testbit e p).
Qed.

Lemma generate_difference_partition_witness :
  let d := feature_location_differences_t.generate_difference (location 2 8) 10 in
  intersections d ∩ unions d = ∅ /\
  intersections
    (feature_location_differences_t.generate_difference (location 2 8)
       (N.lnot 10 4))
  = unions d.
Proof.
  destruct (generate_difference_partition (location 2 8) 10)
    as (_ & Hd & _ & _ & Hs & _); [vm_compute; discriminate|].
  split; [exact Hd | exact Hs].
Defined.

(** ** Evaluation *)

(** X8: when every name of a difference names a system,
    [evaluate_difference] returns the features that are in all systems of
    the intersection part and in no system of the union part, and nothing
    when the intersection part is empty. *)
Theorem evaluate_difference_is_set_difference
    (o : feature_location_t.t) (diff : systems_difference_t) :
  (forall x, x ∈ intersections diff ∪ unions diff ->
     exists fs, feature_location_differences_t.system2features o x = Ok fs) ->
  exists X,
    feature_location_differences_t.evaluate_difference o diff = Ok X /\
    (intersections diff = ∅ -> X = ∅) /\
    forall g, g ∈ X <->
      intersections diff <> ∅ /\
      (forall x fs, x ∈ intersections diff ->
         feature_location_differences_t.system2features o x = Ok fs -> g ∈ fs) /\
      (forall x fs, x ∈ unions diff ->
         feature_location_differences_t.system2features o x = Ok fs -> g ∉ fs).
Proof.
  intros Hok.
  assert (Hof : forall x, x ∈ intersections diff ∪ unions diff ->
            feature_location_differences_t.system2features o x
            = Ok (features_of o x)).
  { intros x Hx. destruct (Hok x Hx) as [fs Hfs].
    unfold features_of. by rewrite Hfs. }
  destruct (evaluate_difference_spec o diff Hof) as (X & HX & Hspec).
  exists X. split; [done|]. split.
  - intros He. apply set_eq. intros g. rewrite Hspec.
    split; [by intros [? _] | by intros ?%elem_of_empty].
  - intros g. rewrite Hspec. split.
    + intros (Hne & HI & HU). split; [done|]. split.
      * intros x fs Hx Hfs. specialize (HI x Hx).
        unfold features_of in HI. by rewrite Hfs in HI.
      * intros x fs Hx Hfs. specialize (HU x Hx).
        unfold features_of in HU. by rewrite Hfs in HU.
    + intros (Hne & HI & HU). split; [done|]. split.
      * intros x Hx. apply (HI x); [done|]. apply Hof, elem_of_union. by left.
      * intros x Hx. apply (HU x); [done|]. apply Hof, elem_of_union. by right.
Qed.

Lemma evaluate_difference_is_set_difference_witness :
  exists X,
    feature_location_differences_t.evaluate_difference (location 2 8)
      (feature_location_differences_t.generate_difference (location 2 8) 10)
    = Ok X.
Proof.
  destruct (evaluate_difference_is_set_difference (location 2 8)
              (feature_location_differences_t.generate_difference
                 (location 2 8) 10)) as (X & HX & _).
  - intros x Hx. eexists.
    apply (generated_names_ok (location 2 8)) with (e := 10);
      [vm_compute; reflexivity | vm_compute; discriminate | exact Hx].
  - by exists X.
Defined.

(** ** The bitstrings of [fl.cpp] *)

Lemma ceil_div_succ p s :
  0 < s -> p + 1 < 2 ^ 64 -> fl.ceil_div (p + 1) s = p / s + 1.
Proof.
  intros Hs Hp. unfold fl.ceil_div, wrap64.
  pose proof (N.div_mod' p s) as Hdm.
  pose proof (N.mod_lt p s ltac:(lia)) as Hr.
  assert (Hq : p / s <= p).
  { apply N.Div0.div_le_upper_bound. nia. }
  destruct (N.eq_dec (p mod s + 1) s) as [He|He].
  - assert (Hd : (p + 1) / s = p / s + 1)
      by (symmetry; apply (N.div_unique _ _ _ 0); lia).
    assert (Hm : (p + 1) mod s = 0)
      by (symmetry; apply (N.mod_unique _ _ (p / s + 1)); lia).
    rewrite Hd, Hm. simpl. rewrite N.add_0_r. apply N.mod_small. lia.
  - assert (Hd : (p + 1) / s = p / s)
      by (symmetry; apply (N.div_unique _ _ _ (p mod s + 1)); lia).
    assert (Hm : (p + 1) mod s = p mod s + 1)
      by (symmetry; apply (N.mod_unique _ _ (p / s)); lia).
    rewrite Hd, Hm.
    destruct (N.eqb_spec (p mod s + 1) 0) as [e|_]; [exfalso; clear - e; revert e; generalize (p mod s); lia|].
    apply N.mod_small.
    assert (p / s < 2 ^ 64 - 1); [|lia].
    destruct (N.eq_dec s 1) as [->|]; [rewrite N.mod_1_r in He; clear - He; lia|].
    assert (2 * (p / s) <= s * (p / s)) by (apply N.mul_le_mono_r; lia).
    clear Hd Hm. revert Hdm Hr Hq He. generalize (p / s), (p mod s). lia.
Qed.

Lemma parity_succ q : ((q + 1) mod 2 =? 1) = negb (q mod 2 =? 1).
Proof.
  pose proof (N.div_mod' q 2) as H1. pose proof (N.div_mod' (q + 1) 2) as H2.
  pose proof (N.mod_lt q 2 ltac:(lia)) as H3.
  pose proof (N.mod_lt (q + 1) 2 ltac:(lia)) as H4.
  revert H1 H2 H3 H4.
  generalize (q / 2), ((q + 1) / 2), (q mod 2), ((q + 1) mod 2).
  intros a b c d H1 H2 H3 H4.
  destruct (N.eqb_spec d 1), (N.eqb_spec c 1); simpl; lia.
Qed.

(** The bit [k] of a counter changes exactly when its [k] low bits wrap. *)
Lemma stride_step k j :
  ((j mod 2 ^ k + 1 =? 2 ^ k) = true ->
   (j + 1) mod 2 ^ k = 0 /\ N.testbit (j + 1) k = negb (N.testbit j k)) /\
  ((j mod 2 ^ k + 1 =? 2 ^ k) = false ->
   (j + 1) mod 2 ^ k = j mod 2 ^ k + 1 /\
   N.testbit (j + 1) k = N.testbit j k).
Proof.
  assert (Hs : 0 < 2 ^ k) by (apply N.neq_0_lt_0, N.pow_nonzero; lia).
  pose proof (N.div_mod' j (2 ^ k)) as Hdm.
  pose proof (N.mod_lt j (2 ^ k) ltac:(lia)) as Hr.
  rewrite !N.testbit_eqb. split; intros He.
  - apply N.eqb_eq in He.
    assert (Hd : (j + 1) / 2 ^ k = j / 2 ^ k + 1)
      by (symmetry; apply (N.div_unique _ _ _ 0); lia).
    assert (Hm : (j + 1) mod 2 ^ k = 0)
      by (symmetry; apply (N.mod_unique _ _ (j / 2 ^ k + 1)); lia).
    rewrite Hd. split; [done|]. apply parity_succ.
  - apply N.eqb_neq in He.
    assert (Hd : (j + 1) / 2 ^ k = j / 2 ^ k)
      by (symmetry; apply (N.div_unique _ _ _ (j mod 2 ^ k + 1)); lia).
    assert (Hm : (j + 1) mod 2 ^ k = j mod 2 ^ k + 1)
      by (symmetry; apply (N.mod_unique _ _ (j / 2 ^ k)); lia).
    by rewrite Hd.
Qed.

(** The state of the loop of [operator()(f)] after [n] systems. *)
Lemma expression_loop k n :
  k < 64 ->
  N.iter n (fl.bitstring_step (2 ^ k)) ([], 0, false)
  = ((fun p => N.testbit p k) <$> range 0 (N.to_nat n),
     n mod 2 ^ k, N.testbit n k).
Proof.
  intros Hk.
  assert (Hs : 0 < 2 ^ k) by (apply N.neq_0_lt_0, N.pow_nonzero; lia).
  assert (Hs' : 2 ^ k < 2 ^ 64) by (apply N.pow_lt_mono_r; lia).
  induction n as [|n IH] using N.peano_ind.
  - simpl. by rewrite N.Div0.mod_0_l.
  - rewrite N.iter_succ, IH. unfold fl.bitstring_step.
    pose proof (N.mod_lt n (2 ^ k) ltac:(lia)) as Hr.
    unfold wrap64. rewrite (N.mod_small (n mod 2 ^ k + 1)) by lia.
    rewrite N2Nat.inj_succ, range_snoc, fmap_app, N.add_0_l, N2Nat.id.
    rewrite <- N.add_1_r.
    destruct (stride_step k n) as [Ht Hf].
    destruct (n mod 2 ^ k + 1 =? 2 ^ k) eqn:He.
    + destruct (Ht eq_refl) as [-> ->]. done.
    + destruct (Hf eq_refl) as [-> ->]. done.
Qed.

Lemma stride_pow f :
  1 <= f <= 64 -> fl.power 2 (wrap64 (f + 2 ^ 64 - 1)) = 2 ^ (f - 1).
Proof.
  intros Hf. assert (H64 : 2 ^ 64 = 18446744073709551616) by done.
  assert (Hw : wrap64 (f + 2 ^ 64 - 1) = f - 1).
  { unfold wrap64. replace (f + 2 ^ 64 - 1) with (f - 1 + 1 * 2 ^ 64) by lia.
    rewrite N.Div0.mod_add. apply N.mod_small. lia. }
  rewrite Hw, power_pow. apply N.mod_small, N.pow_lt_mono_r; lia.
Qed.

(** X9: for a divisor other than 0, [ceil_div x y] is the least [q] with
    [x <= q * y]. *)
Theorem ceil_div_rounds_up (x y : N) :
  0 < y -> x < 2 ^ 64 ->
  x <= fl.ceil_div x y * y /\
  (forall q, x <= q * y -> fl.ceil_div x y <= q) /\
  (x mod y = 0 -> fl.ceil_div x y * y = x).
Proof.
  intros Hy Hx.
  pose proof (N.div_mod' x y) as Hdm.
  pose proof (N.mod_lt x y ltac:(lia)) as Hr.
  unfold fl.ceil_div, wrap64. revert Hdm Hr.
  generalize (x / y), (x mod y). intros a r Hdm Hr.
  assert (Ha : a * 1 <= a * y) by (apply N.mul_le_mono_l; lia).
  destruct (N.eqb_spec r 0) as [He|He].
  - rewrite N.add_0_r, N.mod_small by lia.
    split; [lia|]. split; [|lia]. intros q Hle.
    destruct (N.le_gt_cases a q) as [|Hgt]; [done|].
    assert (q * y < a * y) by (apply N.mul_lt_mono_pos_r; lia). lia.
  - assert (Ha2 : a * 2 <= a * y) by (apply N.mul_le_mono_l; lia).
    rewrite N.mod_small by lia.
    split; [lia|]. split; [|lia]. intros q Hle.
    destruct (N.le_gt_cases (a + 1) q) as [|Hgt]; [done|].
    assert (q * y <= a * y) by (apply N.mul_le_mono_r; lia). lia.
Qed.

Lemma ceil_div_rounds_up_witness :
  7 <= fl.ceil_div 7 2 * 2 /\ (forall q, 7 <= q * 2 -> fl.ceil_div 7 2 <= q).
Proof.
  destruct (ceil_div_rounds_up 7 2) as (H1 & H2 & _); [lia|done|].
  split; [exact H1 | exact H2].
Defined.

(** X10: the generator of [F] features refuses a feature beyond [F] and a
    system beyond [S]; for a feature [f] of 1 .. F, with F < 64, the
    bitstring [operator()(f)] has [2 ^ F] elements, the element of system
    [p + 1] being bit [f - 1] of [p], and [operator()(f,s)] computes the
    same element arithmetically; from 64 features on [S] has wrapped
    around to 0 and the bitstring is empty. *)
Theorem expression_by_index (F f : N) :
  let dg := fl.new_generator F in
  (F < f ->
   fl.expression dg f = Throw invalid_argument /\
   forall s, fl.expression_bit dg f s = Throw invalid_argument) /\
  (f <= F -> forall s, fl.m_S dg < s ->
   fl.expression_bit dg f s = Throw invalid_argument) /\
  (1 <= f <= F -> F < 64 ->
   exists de,
     fl.expression dg f = Ok de /\ length de = N.to_nat (2 ^ F) /\
     forall p, p < 2 ^ F ->
       de !! N.to_nat p = Some (N.testbit p (f - 1)) /\
       fl.expression_bit dg f (p + 1) = Ok (N.testbit p (f - 1))) /\
  (f <= F -> 64 <= F -> fl.expression dg f = Ok []).
Proof.
  intros dg. unfold dg, fl.new_generator, fl.expression, fl.expression_bit.
  cbn [fl.m_F fl.m_S]. repeat apply conj.
  - intros Hf. apply N.ltb_lt in Hf. by rewrite Hf.
  - intros Hf s Hs. apply N.ltb_ge in Hf. apply N.ltb_lt in Hs.
    by rewrite Hf, Hs.
  - intros Hf HF. assert (HfF : (F <? f) = false) by (apply N.ltb_ge; lia).
    rewrite HfF, stride_pow by lia.
    assert (HS : fl.power 2 F = 2 ^ F).
    { rewrite power_pow. apply N.mod_small, N.pow_lt_mono_r; lia. }
    rewrite HS, expression_loop by lia. cbn [fst].
    eexists. split; [done|]. split.
    { by rewrite length_fmap, range_length. }
    intros p Hp. split.
    + rewrite list_lookup_fmap, range_lookup by lia.
      simpl. by rewrite N.add_0_l, N2Nat.id.
    + assert (HpS : (2 ^ F <? p + 1) = false) by (apply N.ltb_ge; lia).
      assert (2 ^ F <= 2 ^ 63) by (apply N.pow_le_mono_r; lia).
      assert (2 ^ 63 + 1 < 2 ^ 64) by done.
      rewrite HpS, ceil_div_succ;
        [|apply N.neq_0_lt_0, N.pow_nonzero; lia|lia].
      f_equal. rewrite N.testbit_eqb.
      pose proof (parity_succ (p / 2 ^ (f - 1))) as Hpar.
      pose proof (N.mod_lt (p / 2 ^ (f - 1) + 1) 2 ltac:(lia)) as Hlt.
      revert Hpar Hlt.
      generalize ((p / 2 ^ (f - 1) + 1) mod 2), ((p / 2 ^ (f - 1)) mod 2).
      intros c d Hpar Hlt. rewrite <- (negb_involutive (d =? 1)), <- Hpar.
      destruct (N.eqb_spec c 0), (N.eqb_spec c 1); simpl; try done; lia.
  - intros Hf HF. apply N.ltb_ge in Hf. rewrite Hf.
    change (fl.power 2 F) with (power 2 F).
    by rewrite power_pow, pow2_wraps.
Qed.

Lemma expression_by_index_witness :
  exists de,
    fl.expression (fl.new_generator 3) 2 = Ok de /\
    de !! N.to_nat 6 = Some (N.testbit 6 (2 - 1)).
Proof.
  destruct (expression_by_index 3 2) as (_ & _ & H & _).
  destruct H as (de & Hde & _ & Hbits); [lia|lia|].
  exists de. split; [exact Hde|]. apply Hbits. done.
Defined.

(** ** Operations on bitstrings *)

Lemma zip_with_negb_andb l : forall r,
  negb <$> zip_with andb l r = zip_with orb (negb <$> l) (negb <$> r).
Proof.
  induction l as [|x l IH]; intros [|y r]; [done..|].
  simpl. by rewrite IH, negb_andb.
Qed.

Lemma zip_with_negb_orb l : forall r,
  negb <$> zip_with orb l r = zip_with andb (negb <$> l) (negb <$> r).
Proof.
  induction l as [|x l IH]; intros [|y r]; [done..|].
  simpl. by rewrite IH, negb_orb.
Qed.

(** X11: [operator&=] and [operator|=] throw [length_error] exactly when
    the lengths differ; otherwise they combine the vectors element by
    element and keep the length, and [operator~] turns the one into the
    other (De Morgan). *)
Theorem bitstring_operations (l r : list bool) :
  (length l <> length r ->
   fl.bit_and_assign l r = Throw length_error /\
   fl.bit_or_assign l r = Throw length_error) /\
  (length l = length r ->
   exists a o,
     fl.bit_and_assign l r = Ok a /\ fl.bit_or_assign l r = Ok o /\
     length a = length l /\ length o = length l /\
     (forall i x y, l !! i = Some x -> r !! i = Some y ->
        a !! i = Some (x && y) /\ o !! i = Some (x || y)) /\
     fl.bit_or_assign (fl.bit_not l) (fl.bit_not r) = Ok (fl.bit_not a) /\
     fl.bit_and_assign (fl.bit_not l) (fl.bit_not r) = Ok (fl.bit_not o)).
Proof.
  unfold fl.bit_and_assign, fl.bit_or_assign. split.
  - intros Hne. apply Nat.eqb_neq in Hne. by rewrite Hne.
  - intros He. rewrite !bit_not_negb, !length_fmap.
    rewrite He, Nat.eqb_refl. simpl.
    eexists _, _. split; [done|]. split; [done|].
    rewrite !length_zip_with, <- He, Nat.min_id.
    split; [done|]. split; [done|]. split.
    + intros i x y Hx Hy. rewrite !lookup_zip_with, Hx, Hy. done.
    + by rewrite !bit_not_negb, zip_with_negb_andb, zip_with_negb_orb.
Qed.

Lemma bitstring_operations_witness :
  fl.bit_and_assign [true; false] [true] = Throw length_error /\
  exists a, fl.bit_and_assign [true; false] [true; true] = Ok a.
Proof.
  split.
  - apply (bitstring_operations [true; false] [true]). simpl. lia.
  - destruct (bitstring_operations [true; false] [true; true])
      as [_ H]. destruct (H eq_refl) as (a & _ & Ha & _). by exists a.
Defined.

Lemma string_app_nil_r (s : string) : s +:+ "" = s.
Proof.
  induction s as [|a s IH]; [done|].
  change (String a (s +:+ "") = String a s). by rewrite IH.
Qed.

Lemma string_app_assoc (s1 s2 s3 : string) :
  (s1 +:+ s2) +:+ s3 = s1 +:+ (s2 +:+ s3).
Proof.
  induction s1 as [|a s1 IH]; [done|].
  change (String a ((s1 +:+ s2) +:+ s3) = String a (s1 +:+ (s2 +:+ s3))).
  by rewrite IH.
Qed.

Lemma string_length_app (s1 s2 : string) :
  String.length (s1 +:+ s2) = (String.length s1 + String.length s2)%nat.
Proof.
  induction s1 as [|a s1 IH]; [done|].
  change (S (String.length (s1 +:+ s2))
          = S (String.length s1 + String.length s2)).
  by rewrite IH.
Qed.

Lemma show_length l : String.length (fl.show l) = length l.
Proof.
  induction l as [|b l IH]; [done|]. unfold fl.show in *. cbn [foldr].
  rewrite string_length_app, IH. destruct b; simpl; lia.
Qed.

Lemma show_app l1 l2 : fl.show (l1 ++ l2) = fl.show l2 +:+ fl.show l1.
Proof.
  induction l1 as [|b l1 IH].
  - change (fl.show []) with ""%string. by rewrite string_app_nil_r.
  - change (fl.show ((b :: l1) ++ l2))
      with (fl.show (l1 ++ l2) +:+ fl.show_bit b).
    change (fl.show (b :: l1)) with (fl.show l1 +:+ fl.show_bit b).
    by rewrite IH, string_app_assoc.
Qed.

(** X12: [operator<<] writes one character per element, the last element
    first: the character at position [i] of the text is that of element
    [length de - 1 - i]. *)
Theorem show_last_element_first (de : list bool) :
  String.length (fl.show de) = length de /\
  (forall l1 l2, fl.show (l1 ++ l2) = fl.show l2 +:+ fl.show l1) /\
  (forall (i : nat) (b : bool), de !! i = Some b ->
     String.get (length de - 1 - i)%nat (fl.show de)
     = Some (if b then "1"%char else "0"%char)).
Proof.
  split; [apply show_length|]. split; [apply show_app|].
  intros i b Hb. apply list_elem_of_split_length in Hb
    as (l1 & l2 & -> & ->).
  rewrite length_app, length_cons.
  replace (length l1 + S (length l2) - 1 - length l1)%nat
    with (0 + String.length (fl.show l2))%nat by (rewrite show_length; lia).
  rewrite (show_app l1 (b :: l2)).
  change (fl.show (b :: l2)) with (fl.show l2 +:+ fl.show_bit b).
  rewrite string_app_assoc, <- String.append_correct2.
  by destruct b.
Qed.

(** ** The bitstrings of the closed-form strategy *)

Lemma power2_pow e : e < 64 -> power2 e = 2 ^ e.
Proof.
  intros He. unfold power2. rewrite power_pow.
  apply N.mod_small, N.pow_lt_mono_r; lia.
Qed.

Lemma testbit_flag (t : bool) m :
  N.testbit (if t then 0 else 1) m = negb t && (m =? 0).
Proof.
  destruct t; simpl negb; cbn [andb]; [apply N.bits_0|].
  destruct (N.eqb_spec m 0) as [->|Hm]; [done|].
  apply N.bits_above_log2. simpl. lia.
Qed.

(** One iteration of the loop of [calculate_independent_features] on the
    bits of the value. *)
Lemma value_step v (t : bool) j f q :
  (forall q, N.testbit v q
             = (1 <=? q) && (q <=? j) && (q <? 64)
               && negb (N.testbit (j - q) f)) ->
  t = N.testbit j f ->
  N.testbit (wrap64 (N.shiftl (N.lor v (if t then 0 else 1)) 1)) q
  = (1 <=? q) && (q <=? j + 1) && (q <? 64)
    && negb (N.testbit (j + 1 - q) f).
Proof.
  intros Hv Ht. unfold wrap64.
  destruct (N.ltb_spec q 64) as [Hq|Hq].
  - rewrite N.mod_pow2_bits_low by done.
    destruct (N.leb_spec 1 q) as [H1|H1].
    + rewrite N.shiftl_spec_high' by done.
      rewrite N.lor_spec, Hv, testbit_flag.
      destruct (N.eqb_spec (q - 1) 0) as [H0|H0].
      * replace q with 1 by lia. simpl N.sub. rewrite N.add_sub.
        rewrite <- Ht.
        replace (1 <=? j + 1) with true by (symmetry; apply N.leb_le; lia).
        simpl. by rewrite andb_true_r.
      * rewrite andb_false_r, orb_false_r.
        replace (1 <=? q - 1) with true by (symmetry; apply N.leb_le; lia).
        replace (q - 1 <? 64) with true by (symmetry; apply N.ltb_lt; lia).
        destruct (N.leb_spec (q - 1) j) as [Ha|Ha].
        -- replace (q <=? j + 1) with true by (symmetry; apply N.leb_le; lia).
           simpl. by replace (j - (q - 1)) with (j + 1 - q) by lia.
        -- by replace (q <=? j + 1) with false
             by (symmetry; apply N.leb_gt; lia).
    + replace q with 0 by lia. by rewrite N.shiftl_spec_low.
  - rewrite N.mod_pow2_bits_high by done.
    by rewrite andb_false_r.
Qed.

Lemma independent_loop f j :
  f < 63 ->
  exists v,
    N.iter j (feature_location_calculation_t.independent_step (2 ^ f))
      (0, 1, 2 ^ f)
    = (v, if N.testbit j f then 0 else 1, 2 ^ f - j mod 2 ^ f) /\
    v < 2 ^ 64 /\
    forall q, N.testbit v q
              = (1 <=? q) && (q <=? j) && (q <? 64)
                && negb (N.testbit (j - q) f).
Proof.
  intros Hf.
  assert (Hs : 0 < 2 ^ f) by (apply N.neq_0_lt_0, N.pow_nonzero; lia).
  assert (Hs' : 2 ^ f < 2 ^ 63) by (apply N.pow_lt_mono_r; lia).
  assert (H63 : 2 ^ 63 + 2 ^ 63 = 2 ^ 64) by done.
  induction j as [|j (v & IH & Hv & Hbits)] using N.peano_ind.
  - exists 0. simpl N.iter. rewrite N.bits_0, N.Div0.mod_0_l, N.sub_0_r.
    split; [done|]. split; [done|]. intros q. rewrite N.bits_0.
    destruct (N.leb_spec 1 q), (N.leb_spec q 0); try done; lia.
  - rewrite N.iter_succ, IH.
    unfold feature_location_calculation_t.independent_step.
    pose proof (N.mod_lt j (2 ^ f) ltac:(lia)) as Hr.
    rewrite <- N.add_1_r.
    destruct (stride_step f j) as [Ht Hn].
    assert (Hc : wrap64 (2 ^ f - j mod 2 ^ f + 2 ^ 64 - 1)
                 = 2 ^ f - (j mod 2 ^ f + 1)).
    { unfold wrap64. revert Hr. generalize (j mod 2 ^ f). intros r Hr.
      replace (2 ^ f - r + 2 ^ 64 - 1)
        with (2 ^ f - (r + 1) + 1 * 2 ^ 64) by lia.
      rewrite N.Div0.mod_add. apply N.mod_small. lia. }
    rewrite Hc.
    exists (wrap64 (N.shiftl
                      (N.lor v (if N.testbit j f then 0 else 1)) 1)).
    split; [|split].
    + destruct (j mod 2 ^ f + 1 =? 2 ^ f) eqn:He.
      * destruct (Ht eq_refl) as [Hm Hb]. rewrite Hm, Hb, N.sub_0_r.
        apply N.eqb_eq in He. rewrite He, N.sub_diag. simpl.
        by destruct (N.testbit j f).
      * destruct (Hn eq_refl) as [Hm Hb]. rewrite Hm, Hb.
        apply N.eqb_neq in He.
        destruct (N.eqb_spec (2 ^ f - (j mod 2 ^ f + 1)) 0) as [H0|H0];
          [|done].
        exfalso. revert Hr He H0. generalize (j mod 2 ^ f). lia.
    + unfold wrap64. apply N.mod_lt. done.
    + intros q. by apply value_step.
Qed.

Lemma testbit_complement n q f :
  f < n -> q < 2 ^ n ->
  N.testbit (2 ^ n - 1 - q) f = negb (N.testbit q f).
Proof.
  intros Hf Hq. rewrite <- (N.lnot_spec_low q n f) by done.
  f_equal. rewrite N.sub_1_r, <- N.ones_equiv. symmetry.
  destruct (N.eq_dec q 0) as [->|H0].
  - by rewrite N.sub_0_r, N.lnot_0_l.
  - apply N.lnot_sub_low, N.log2_lt_pow2; lia.
Qed.

Lemma independent_value n f :
  n < 64 -> f < n ->
  exists v,
    N.iter (wrap64 (power2 n + 2 ^ 64 - 1))
      (feature_location_calculation_t.independent_step (power2 f))
      (0, 1, power2 f)
    = (v, if N.testbit (2 ^ n - 1) f then 0 else 1,
       2 ^ f - (2 ^ n - 1) mod 2 ^ f) /\
    v < 2 ^ 64 /\
    forall q, N.testbit v q = (q <? 2 ^ n) && (q <? 64) && N.testbit q f.
Proof.
  intros Hn Hf. rewrite !power2_pow by lia.
  assert (Hp : 0 < 2 ^ n) by (apply N.neq_0_lt_0, N.pow_nonzero; lia).
  assert (Hp' : 2 ^ n < 2 ^ 64) by (apply N.pow_lt_mono_r; lia).
  assert (Hw : wrap64 (2 ^ n + 2 ^ 64 - 1) = 2 ^ n - 1).
  { unfold wrap64.
    replace (2 ^ n + 2 ^ 64 - 1) with (2 ^ n - 1 + 1 * 2 ^ 64) by lia.
    rewrite N.Div0.mod_add. apply N.mod_small. lia. }
  rewrite Hw. destruct (independent_loop f (2 ^ n - 1)) as (v & Hv & Hlt & Hb);
    [lia|].
  exists v. split; [done|]. split; [done|]. intros q. rewrite Hb.
  destruct (N.ltb_spec q 64) as [H64|H64];
    [|by rewrite !andb_false_r].
  rewrite !andb_true_r.
  destruct (N.leb_spec 1 q) as [H1|H1].
  - destruct (N.leb_spec q (2 ^ n - 1)) as [Ha|Ha].
    + replace (q <? 2 ^ n) with true by (symmetry; apply N.ltb_lt; lia).
      simpl. rewrite testbit_complement by lia. apply negb_involutive.
    + by replace (q <? 2 ^ n) with false by (symmetry; apply N.ltb_ge; lia).
  - replace q with 0 by lia. change (N.testbit 0 f) with false.
    by rewrite andb_false_r.
Qed.

(** X13: up to 63 features [calculate_independent_features] gives feature
    [i + 1] its name and the value whose bit [q], for a system index
    [q] below [2 ^ n] and below 64, is bit [i] of [q]: system [q + 1]
    has the feature exactly when bit [i] of [q] is set.  A value holds 64
    systems only, so from the seventh feature on the value is 0. *)
Theorem independent_features_closed_form (b : feature_location_t.t) :
  let n := feature_location_t.m_n b in
  let l := feature_location_calculation_t.calculate_independent_features b in
  n < 64 ->
  length l = N.to_nat n /\
  forall i, i < n ->
    exists v,
      l !! N.to_nat i = Some (independent_feature_name (i + 1), v) /\
      v < 2 ^ 64 /\
      (forall q, N.testbit v q
                 = (q <? 2 ^ n) && (q <? 64) && N.testbit q i) /\
      (6 <= i -> v = 0).
Proof.
  intros n l Hn. unfold l.
  unfold feature_location_calculation_t.calculate_independent_features.
  fold n. split; [by rewrite length_fmap, range_length|].
  intros i Hi. destruct (independent_value n i Hn Hi) as (v & Hv & Hlt & Hb).
  exists v. split; [|split; [done|split; [done|]]].
  - rewrite list_lookup_fmap, range_lookup by lia. cbn [fmap option_fmap option_map].
    rewrite N.add_0_l, N2Nat.id, Hv. do 3 f_equal.
    unfold wrap16. apply N.mod_small.
    assert (64 < 2 ^ 16) by done. lia.
  - intros H6. apply N.bits_inj_0. intros q. rewrite Hb.
    destruct (N.ltb_spec q 64) as [H64|H64];
      [|by rewrite andb_false_r].
    replace (N.testbit q i) with false; [by rewrite andb_false_r|].
    symmetry. destruct (N.eq_dec q 0) as [->|H0]; [apply N.bits_0|].
    apply N.bits_above_log2, N.log2_lt_pow2; [lia|].
    assert (2 ^ 6 <= 2 ^ i) by (apply N.pow_le_mono_r; lia).
    assert (2 ^ 6 = 64) by done. lia.
Qed.

Lemma independent_features_closed_form_witness :
  exists v,
    feature_location_calculation_t.calculate_independent_features
      (location 3 8) !! N.to_nat 1
    = Some (independent_feature_name (1 + 1), v) /\
    forall q, N.testbit v q = (q <? 2 ^ 3) && (q <? 64) && N.testbit q 1.
Proof.
  destruct (independent_features_closed_form (location 3 8))
    as [_ H]; [vm_compute; reflexivity|].
  destruct (H 1) as (v & Hv & _ & Hb & _); [vm_compute; reflexivity|].
  exists v. split; [exact Hv | exact Hb].
Defined.

(** ** The values of the dependent features *)

Lemma at_pred_valid {A} (idf : list A) v :
  1 <= v <= N.of_nat (length idf) ->
  exists e, at_pred idf v = Ok e /\ idf !! N.to_nat (v - 1) = Some e.
Proof.
  intros Hv. unfold at_pred, at_.
  destruct (N.eqb_spec v 0); [lia|].
  destruct (lookup_lt_is_Some_2 idf (N.to_nat (v - 1)) ltac:(lia)) as [e He].
  exists e. by rewrite He.
Qed.

Lemma at_pred_invalid {A} (idf : list A) v :
  v = 0 \/ N.of_nat (length idf) < v -> at_pred idf v = Throw out_of_range.
Proof.
  intros Hv. unfold at_pred, at_.
  destruct (N.eqb_spec v 0); [done|].
  rewrite lookup_ge_None_2; [done|lia].
Qed.

Lemma at_pred_cases {A} (idf : list A) v :
  at_pred idf v = Throw out_of_range \/
  1 <= v <= N.of_nat (length idf).
Proof.
  destruct (N.eq_dec v 0) as [->|]; [by left|].
  destruct (N.le_gt_cases v (N.of_nat (length idf))); [right; lia|].
  left. apply at_pred_invalid. by right.
Qed.

Section values.
Context (op : N -> N -> N) (idf : feature_expression_t).

Local Abbreviation loop :=
  (for_each (fun res v => e ← at_pred idf v; Ok (op res (snd e)))).

Lemma values_throw ids : forall init,
  Exists (fun v => v = 0 \/ N.of_nat (length idf) < v) ids ->
  loop ids init = Throw out_of_range.
Proof.
  induction ids as [|x ids IH]; intros init Hex;
    [by apply Exists_nil in Hex|].
  cbn [for_each]. destruct (at_pred_cases idf x) as [->|Hx]; [done|].
  destruct (at_pred_valid idf x Hx) as (e & -> & _).
  cbn [mbind result_bind]. apply IH.
  apply Exists_cons in Hex as [Hex|Hex]; [lia|done].
Qed.

Lemma values_ok ids : forall init,
  Forall (fun v => 1 <= v <= N.of_nat (length idf)) ids ->
  exists r, loop ids init = Ok r.
Proof.
  induction ids as [|x ids IH]; intros init Hall; [by eexists|].
  apply Forall_cons in Hall as [Hx Hall].
  cbn [for_each]. destruct (at_pred_valid idf x Hx) as (e & -> & _).
  cbn [mbind result_bind]. by apply IH.
Qed.
End values.

Lemma or_value_bits (idf : feature_expression_t) ids : forall init r q,
  for_each (fun res v => e ← at_pred idf v; Ok (N.lor res (snd e))) ids init
  = Ok r ->
  N.testbit r q = true <->
  N.testbit init q = true \/
  exists v e, v ∈ ids /\ idf !! N.to_nat (v - 1) = Some e /\
              N.testbit (snd e) q = true.
Proof.
  induction ids as [|x ids IH]; intros init r q Hr.
  - injection Hr as <-. split; [by left|].
    intros [|(v & e & Hv%elem_of_nil & _)]; done.
  - cbn [for_each] in Hr. destruct (at_pred_cases idf x) as [Hx|Hx];
      [by rewrite Hx in Hr|].
    destruct (at_pred_valid idf x Hx) as (e & He & Hl).
    rewrite He in Hr. cbn [mbind result_bind] in Hr.
    rewrite (IH _ _ q Hr), N.lor_spec, orb_true_iff. split.
    + intros [[|Hb]|(v & e' & Hv & Hl' & Hb)]; [by left|..].
      * right. exists x, e. split; [left|done].
      * right. exists v, e'. split; [by right|done].
    + intros [|(v & e' & Hv & Hl' & Hb)]; [by left; left|].
      apply elem_of_cons in Hv as [->|Hv].
      * left. right. by replace e with e' by congruence.
      * right. by exists v, e'.
Qed.

Lemma and_value_bits (idf : feature_expression_t) ids : forall init r q,
  for_each (fun res v => e ← at_pred idf v; Ok (N.land res (snd e))) ids init
  = Ok r ->
  N.testbit r q = true <->
  N.testbit init q = true /\
  forall v e, v ∈ ids -> idf !! N.to_nat (v - 1) = Some e ->
              N.testbit (snd e) q = true.
Proof.
  induction ids as [|x ids IH]; intros init r q Hr.
  - injection Hr as <-. split; [|by intros [? _]].
    intros Hb. split; [done|]. by intros v e Hv%elem_of_nil.
  - cbn [for_each] in Hr. destruct (at_pred_cases idf x) as [Hx|Hx];
      [by rewrite Hx in Hr|].
    destruct (at_pred_valid idf x Hx) as (e & He & Hl).
    rewrite He in Hr. cbn [mbind result_bind] in Hr.
    rewrite (IH _ _ q Hr), N.land_spec, andb_true_iff. split.
    + intros [[Hi Hb] Hall]. split; [done|]. intros v e' Hv Hl'.
      apply elem_of_cons in Hv as [->|Hv]; [|by apply (Hall v)].
      by replace e' with e by congruence.
    + intros [Hi Hall]. split.
      * split; [done|]. apply (Hall x); [left|done].
      * intros v e' Hv. apply Hall. by right.
Qed.

(** X14: the value of a dependent feature is the bitwise or, or the
    bitwise and, of the values of the features of its combination: a
    system is in the or-value when one of them has it, and in the
    and-value, which starts from all 64 bits (from the complement of the
    mask for and-not), when all of them have it.  An id 0 or one beyond the
    end of the table ends each of the four functions with
    [out_of_range]. *)
Theorem dependent_feature_values
    (ids : list feature_id_t) (idf : feature_expression_t) (bitmask : N) :
  (Forall (fun v => 1 <= v <= N.of_nat (length idf)) ids ->
   exists o a an,
     or_feature_value ids idf = Ok o /\
     or_not_feature_value ids idf = Ok o /\
     and_feature_value ids idf = Ok a /\
     and_not_feature_value ids idf bitmask = Ok an /\
     (forall q, N.testbit o q = true <->
        exists v e, v ∈ ids /\ idf !! N.to_nat (v - 1) = Some e /\
                    N.testbit (snd e) q = true) /\
     (forall q, N.testbit a q = true <->
        q < 64 /\
        forall v e, v ∈ ids -> idf !! N.to_nat (v - 1) = Some e ->
                    N.testbit (snd e) q = true) /\
     (forall q, N.testbit an q = true <->
        N.testbit (N.lnot bitmask 64) q = true /\
        forall v e, v ∈ ids -> idf !! N.to_nat (v - 1) = Some e ->
                    N.testbit (snd e) q = true)) /\
  (Exists (fun v => v = 0 \/ N.of_nat (length idf) < v) ids ->
   or_feature_value ids idf = Throw out_of_range /\
   or_not_feature_value ids idf = Throw out_of_range /\
   and_feature_value ids idf = Throw out_of_range /\
   and_not_feature_value ids idf bitmask = Throw out_of_range).
Proof.
  unfold or_feature_value, or_not_feature_value, and_feature_value,
    and_not_feature_value. split.
  - intros Hall.
    destruct (values_ok N.lor idf ids 0 Hall) as [o Ho].
    destruct (values_ok N.land idf ids (N.lnot 0 64) Hall) as [a Ha].
    destruct (values_ok N.land idf ids (N.lnot bitmask 64) Hall) as [an Han].
    exists o, a, an. rewrite Ho, Ha, Han. repeat (split; [done|]).
    split; [|split].
    + intros q. rewrite (or_value_bits _ _ _ _ q Ho), N.bits_0.
      split; [by intros [|]|by right].
    + intros q. rewrite (and_value_bits _ _ _ _ q Ha).
      assert (Hq : N.testbit (N.lnot 0 64) q = true <-> q < 64).
      { rewrite N.lnot_0_l. destruct (N.lt_ge_cases q 64).
        - by rewrite N.ones_spec_low.
        - rewrite N.ones_spec_high by done. split; [done|lia]. }
      by rewrite Hq.
    + intros q. apply (and_value_bits _ _ _ _ q Han).
  - intros Hex. by rewrite !values_throw.
Qed.

Lemma dependent_feature_values_witness :
  exists o, or_feature_value [1; 2] [("f1"%string, 10); ("f2"%string, 12)]
            = Ok o /\
  and_feature_value [1; 3] [("f1"%string, 10); ("f2"%string, 12)]
  = Throw out_of_range.
Proof.
  destruct (dependent_feature_values [1; 2]
              [("f1"%string, 10); ("f2"%string, 12)] 0) as [H _].
  destruct H as (o & _ & _ & Ho & _).
  { repeat constructor; simpl; lia. }
  exists o. split; [exact Ho|].
  apply (dependent_feature_values [1; 3]
           [("f1"%string, 10); ("f2"%string, 12)] 0).
  right. left. right. simpl. lia.
Defined.

(** ** De Morgan between the families *)

Lemma not_value_bit v m q :
  v < 2 ^ 64 -> m < 2 ^ 64 ->
  N.testbit (feature_location_calculation_t.not_value v m) q
  = (q <? 64) && negb (xorb (N.testbit v q) (N.testbit m q)).
Proof.
  intros Hv Hm. unfold feature_location_calculation_t.not_value.
  destruct (N.ltb_spec q 64) as [Hq|Hq].
  - by rewrite N.lnot_spec_low, N.lxor_spec.
  - rewrite N.lnot_spec_high, N.lxor_spec by done.
    pose proof (proj1 (below_pow2_bits v 64) Hv q Hq) as ->.
    by pose proof (proj1 (below_pow2_bits m 64) Hm q Hq) as ->.
Qed.

Lemma at_pred_fmap {A B} (g : A -> B) (l : list A) v :
  at_pred (g <$> l) v
  = match at_pred l v with Ok e => Ok (g e) | Throw x => Throw x end.
Proof.
  unfold at_pred, at_. destruct (v =? 0); [done|].
  rewrite list_lookup_fmap. by destruct (l !! N.to_nat (v - 1)).
Qed.

Lemma land_0_bit a m q :
  N.land a m = 0 -> N.testbit a q && N.testbit m q = false.
Proof. intros H. by rewrite <- N.land_spec, H, N.bits_0. Qed.

Lemma lor_below a e : a < 2 ^ 64 -> e < 2 ^ 64 -> N.lor a e < 2 ^ 64.
Proof.
  rewrite !below_pow2_bits. intros Ha He i Hi.
  by rewrite N.lor_spec, Ha, He.
Qed.

Lemma land_below a e : a < 2 ^ 64 -> N.land a e < 2 ^ 64.
Proof.
  rewrite !below_pow2_bits. intros Ha i Hi.
  by rewrite N.land_spec, Ha.
Qed.

Section de_morgan.
Context (m : N) (m_64 : m < 2 ^ 64).

Local Abbreviation not_value :=
  (fun v => feature_location_calculation_t.not_value v m).

Lemma not_lor a e :
  a < 2 ^ 64 -> e < 2 ^ 64 -> N.land a m = 0 -> N.land e m = 0 ->
  N.land (not_value a) (not_value e) = not_value (N.lor a e).
Proof.
  intros Ha He Ham Hem. apply N.bits_inj. intros q.
  pose proof (land_0_bit _ _ q Ham). pose proof (land_0_bit _ _ q Hem).
  rewrite N.land_spec, !not_value_bit, N.lor_spec
    by (done || by apply lor_below).
  destruct (q <? 64), (N.testbit a q), (N.testbit e q), (N.testbit m q);
    done.
Qed.

Lemma not_land a e :
  a < 2 ^ 64 -> e < 2 ^ 64 -> N.land a m = 0 -> N.land e m = 0 ->
  N.lor (not_value a) (not_value e) = not_value (N.land a e).
Proof.
  intros Ha He Ham Hem. apply N.bits_inj. intros q.
  pose proof (land_0_bit _ _ q Ham). pose proof (land_0_bit _ _ q Hem).
  rewrite N.lor_spec, !not_value_bit, N.land_spec
    by (done || by apply land_below).
  destruct (q <? 64), (N.testbit a q), (N.testbit e q), (N.testbit m q);
    done.
Qed.

Context (idf : feature_expression_t).
Context (idf_64 : Forall (fun e => snd e < 2 ^ 64 /\ N.land (snd e) m = 0)
                    idf).

Local Abbreviation nf :=
  ((fun f : string * N => (feature_not +:+ fst f, not_value (snd f)))
     <$> idf).

Lemma at_pred_masked v e :
  at_pred idf v = Ok e -> snd e < 2 ^ 64 /\ N.land (snd e) m = 0.
Proof.
  unfold at_pred, at_. destruct (v =? 0); [done|].
  destruct (idf !! N.to_nat (v - 1)) as [e'|] eqn:He; [|done].
  intros [= <-]. rewrite Forall_forall in idf_64.
  by apply idf_64, (list_elem_of_lookup_2 _ _ _ He).
Qed.

Lemma and_not_loop c : forall a,
  a < 2 ^ 64 -> N.land a m = 0 ->
  for_each (fun res v => e ← at_pred nf v; Ok (N.land res (snd e)))
    c (not_value a)
  = (r ← for_each (fun res v => e ← at_pred idf v; Ok (N.lor res (snd e)))
           c a;
     Ok (not_value r)).
Proof.
  induction c as [|x c IH]; intros a Ha Ham; [done|].
  cbn [for_each]. rewrite at_pred_fmap.
  destruct (at_pred idf x) as [e|] eqn:He; [|done].
  destruct (at_pred_masked _ _ He) as [He1 He2].
  cbn [mbind result_bind snd]. rewrite not_lor by done.
  apply IH; [by apply lor_below|].
  apply N.bits_inj_0. intros q.
  pose proof (land_0_bit _ _ q Ham). pose proof (land_0_bit _ _ q He2).
  rewrite N.land_spec, N.lor_spec.
  destruct (N.testbit a q), (N.testbit (snd e) q), (N.testbit m q); done.
Qed.

Lemma or_not_loop c : forall a,
  a < 2 ^ 64 -> N.land a m = 0 ->
  for_each (fun res v => e ← at_pred nf v; Ok (N.lor res (snd e)))
    c (not_value a)
  = (r ← for_each (fun res v => e ← at_pred idf v; Ok (N.land res (snd e)))
           c a;
     Ok (not_value r)).
Proof.
  induction c as [|x c IH]; intros a Ha Ham; [done|].
  cbn [for_each]. rewrite at_pred_fmap.
  destruct (at_pred idf x) as [e|] eqn:He; [|done].
  destruct (at_pred_masked _ _ He) as [He1 He2].
  cbn [mbind result_bind snd]. rewrite not_land by done.
  apply IH; [by apply land_below|].
  apply N.bits_inj_0. intros q.
  pose proof (land_0_bit _ _ q Ham).
  rewrite !N.land_spec.
  destruct (N.testbit a q), (N.testbit (snd e) q), (N.testbit m q); done.
Qed.
End de_morgan.

(** X15: when no value of the table has a bit of the mask of the
    non-existent systems, the and-not value of a combination is the
    complement, within the systems, of its or value, and the or-not value
    of a combination that is not empty is the complement of its and
    value; an id outside the table fails both sides alike. *)
Theorem not_values_de_morgan
    (b : feature_location_t.t) (idf : feature_expression_t) (m : N)
    (c : list feature_id_t) :
  hasN (feature_location_t.m_M b) = true ->
  m < 2 ^ 64 ->
  Forall (fun e => snd e < 2 ^ 64 /\ N.land (snd e) m = 0) idf ->
  let nf := feature_location_calculation_t.calculate_not_features b idf m in
  and_not_feature_value c nf m
  = (r ← or_feature_value c idf;
     Ok (feature_location_calculation_t.not_value r m)) /\
  (c <> [] ->
   or_not_feature_value c nf
   = (r ← and_feature_value c idf;
      Ok (feature_location_calculation_t.not_value r m))).
Proof.
  intros HN Hm Hidf nf. unfold nf.
  unfold feature_location_calculation_t.calculate_not_features.
  rewrite HN. unfold and_not_feature_value, or_feature_value,
    or_not_feature_value, and_feature_value. split.
  - rewrite <- (and_not_loop m Hm idf Hidf c 0); [|done|done].
    unfold feature_location_calculation_t.not_value.
    by rewrite N.lxor_0_l.
  - intros Hc. destruct c as [|x c]; [done|]. cbn [for_each].
    rewrite at_pred_fmap.
    destruct (at_pred idf x) as [e|] eqn:He; [|done].
    destruct (at_pred_masked m idf Hidf _ _ He) as [He1 He2].
    cbn [mbind result_bind snd]. rewrite N.lor_0_l.
    assert (Hl : N.land (N.lnot 0 64) (snd e) = snd e).
    { rewrite N.lnot_0_l, N.land_comm, N.land_ones. by apply N.mod_small. }
    rewrite Hl. by apply or_not_loop.
Qed.

Lemma not_values_de_morgan_witness :
  and_not_feature_value [1; 2]
    (feature_location_calculation_t.calculate_not_features
       (with_M 19 no_location) [("f1"%string, 10); ("f2"%string, 12)]
       (N.lnot 15 64))
    (N.lnot 15 64)
  = (r ← or_feature_value [1; 2] [("f1"%string, 10); ("f2"%string, 12)];
     Ok (feature_location_calculation_t.not_value r (N.lnot 15 64))).
Proof.
  refine (proj1 (not_values_de_morgan (with_M 19 no_location)
                   [("f1"%string, 10); ("f2"%string, 12)]
                   (N.lnot 15 64) [1; 2] _ _ _)).
  - reflexivity.
  - reflexivity.
  - repeat constructor.
Defined.

(** ** The combinations of the dependent features *)

Lemma binomial_0 n : binomial n 0 = 1%nat.
Proof. by destruct n. Qed.

Lemma binomial_le_pow2 n : forall k, (binomial n k <= 2 ^ n)%nat.
Proof.
  induction n as [|n IH]; intros [|k]; simpl binomial.
  - simpl. lia.
  - simpl. lia.
  - pose proof (IH O) as H. rewrite Nat.pow_succ_r'.
    rewrite binomial_0 in H. lia.
  - pose proof (IH k). pose proof (IH (S k)). rewrite Nat.pow_succ_r'. lia.
Qed.

Lemma binomial_above n : forall k, (n < k)%nat -> binomial n k = O.
Proof.
  induction n as [|n IH]; intros [|k] Hk; simpl; try lia.
  rewrite !IH by lia. done.
Qed.

Lemma binomial_1 n : binomial n 1 = n.
Proof.
  induction n as [|n IH]; [done|].
  change (binomial (S n) 1) with (binomial n 0 + binomial n 1)%nat.
  rewrite IH, binomial_0. lia.
Qed.

Lemma sum_to_add f g k :
  sum_to (fun i => (f i + g i)%nat) k = (sum_to f k + sum_to g k)%nat.
Proof. induction k as [|k IH]; simpl; lia. Qed.

Lemma sum_to_shift f k :
  sum_to f (S k) = (f O + sum_to (fun i => f (S i)) k)%nat.
Proof. induction k as [|k IH]; [simpl; lia|]. simpl in *. lia. Qed.

(** The rows of Pascal's triangle add up to the powers of 2. *)
Lemma sum_binomial n : sum_to (binomial n) (S n) = (2 ^ n)%nat.
Proof.
  induction n as [|n IH]; [done|].
  rewrite sum_to_shift. cbn [binomial].
  rewrite (sum_to_add (binomial n) (fun i => binomial n (S i))), IH.
  pose proof (sum_to_shift (binomial n) (S n)) as Hs.
  change (sum_to (binomial n) (S (S n)))
    with (sum_to (binomial n) (S n) + binomial n (S n))%nat in Hs.
  rewrite IH, binomial_above in Hs by lia.
  rewrite Nat.pow_succ_r'. destruct n; simpl in *; lia.
Qed.

Lemma dependent_length n a len :
  length (range a len ≫= all_combinations n)
  = sum_to (fun i => binomial (N.to_nat n) (N.to_nat a + i)) len.
Proof.
  induction len as [|len IH]; [done|].
  rewrite range_snoc, bind_app, length_app, IH. simpl.
  rewrite app_nil_r. unfold all_combinations. rewrite combs_from_length.
  do 2 f_equal. lia.
Qed.

Lemma dependent_combinations_length n :
  length (dependent_combinations n)
  = (2 ^ N.to_nat n - N.to_nat n - 1)%nat.
Proof.
  unfold dependent_combinations. rewrite dependent_length.
  change (N.to_nat 2) with 2%nat.
  generalize (N.to_nat n). clear n. intros n.
  destruct n as [|n]; [done|].
  pose proof (sum_binomial (S n)) as Hs.
  rewrite 2!sum_to_shift in Hs. rewrite binomial_1 in Hs.
  rewrite binomial_0 in Hs.
  replace (S n - 1)%nat with n by lia.
  change (fun i => binomial (S n) (2 + i)) with (fun i => binomial (S n) (S (S i))).
  lia.
Qed.

Lemma elem_of_dependent_combinations n c :
  c ∈ dependent_combinations n
  <-> (2 <= length c)%nat /\ comb_in 0 n c.
Proof.
  unfold dependent_combinations. rewrite list_elem_of_bind. split.
  - intros (k & [Hl Hc]%elem_of_all_combinations & Hk%elem_of_range).
    split; [lia|done].
  - intros [Hl Hc]. exists (N.of_nat (length c)). split.
    + by apply elem_of_all_combinations.
    + apply elem_of_range.
      destruct c as [|x c]; [simpl in Hl; lia|].
      pose proof (comb_in_room _ _ _ _ Hc). simpl in *. lia.
Qed.

Lemma select_range n c :
  Forall (fun x => x < n) c ->
  select (range 1 (N.to_nat n)) c = N.succ <$> c.
Proof.
  unfold select. induction 1 as [|x c Hx Hc IH]; [done|].
  cbn [omap list_omap fmap list_fmap]. rewrite range_lookup by lia.
  rewrite IH, N2Nat.id. f_equal. lia.
Qed.

(** The loops over all sample sizes visit the combinations of the sizes
    2 .. n in order; the iterations granted to the inner loops suffice. *)
Lemma for_all_combinations_enumerates {T A} (symbols : list T)
    (body : list T -> result A) (g : list N -> A) :
  N.of_nat (length symbols) < 2 ^ 63 ->
  (forall c, c ∈ dependent_combinations (N.of_nat (length symbols)) ->
     body (select symbols c) = Ok (g c)) ->
  forall out,
    for_all_combinations symbols (N.of_nat (length symbols)) body out
    = Ok (out ++ (g <$> dependent_combinations (N.of_nat (length symbols)))).
Proof.
  intros Hn Hbody. unfold for_all_combinations, dependent_combinations in *.
  set (n := N.of_nat (length symbols)) in *.
  assert (Hks : forall k, k ∈ range 2 (N.to_nat n - 1) -> 2 <= k <= n)
    by (intros k Hk%elem_of_range; lia).
  revert Hks Hbody. generalize (range 2 (N.to_nat n - 1)).
  intros ks. induction ks as [|k ks IH]; intros Hks Hbody out.
  - simpl. by rewrite app_nil_r.
  - cbn [for_each]. unfold new_combination. fold n.
    pose proof (Hks k ltac:(left)) as Hk.
    destruct (N.ltb_spec n k); [lia|]. cbn [mbind result_bind].
    destruct (first_in_enumeration n k ltac:(lia)) as [rest Hall].
    rewrite (features_do_while_enumerates symbols body g k rest []);
      try done.
    + cbn [mbind result_bind]. rewrite IH.
      * rewrite bind_cons, fmap_app, Hall, (assoc_L (++)). done.
      * intros k' Hk'. apply Hks. by right.
      * intros c Hc. apply Hbody. rewrite bind_cons. apply elem_of_app.
        by right.
    + intros c Hc. apply Hbody. rewrite bind_cons, Hall.
      apply elem_of_app. by left.
    + pose proof (binomial_le_pow2 (N.to_nat n) (N.to_nat k)) as Hb.
      assert (Hlen : length (all_combinations n k)
                     = binomial (N.to_nat n) (N.to_nat k))
        by apply combs_from_length.
      rewrite Hall in Hlen. simpl in Hlen. lia.
Qed.

Lemma comb_in_succ c : forall lo hi,
  comb_in (lo + 1) (hi + 1) (N.succ <$> c) <-> comb_in lo hi c.
Proof.
  induction c as [|x c IH]; intros lo hi; [done|].
  cbn [fmap list_fmap comb_in]. rewrite <- (IH (x + 1) hi).
  replace (N.succ x + 1) with (x + 1 + 1) by lia.
  split; intros [? ?]; (split; [lia|done]).
Qed.

Lemma comb_in_pred v : forall lo hi,
  comb_in (lo + 1) (hi + 1) v ->
  exists c, v = N.succ <$> c /\ comb_in lo hi c.
Proof.
  induction v as [|x v IH]; intros lo hi Hc; [by exists []|].
  destruct Hc as [Hx Hv].
  replace (x + 1) with (x - 1 + 1 + 1) in Hv by lia.
  destruct (IH _ _ Hv) as (c & -> & Hc).
  exists ((x - 1) :: c). split.
  - cbn [fmap list_fmap]. f_equal. lia.
  - split; [lia|done].
Qed.

Lemma elem_of_raw_dependent n v :
  v ∈ raw_dependent n <-> (2 <= length v)%nat /\ comb_in 1 (n + 1) v.
Proof.
  unfold raw_dependent. rewrite list_elem_of_fmap. split.
  - intros (c & -> & [Hl Hc]%elem_of_dependent_combinations).
    rewrite length_fmap. split; [done|]. by apply (comb_in_succ c 0 n).
  - intros [Hl Hc]. destruct (comb_in_pred v 0 n Hc) as (c & -> & Hc').
    exists c. split; [done|]. apply elem_of_dependent_combinations.
    by rewrite length_fmap in Hl.
Qed.

Lemma raw_dependent_length n :
  N.of_nat (length (raw_dependent n)) = 2 ^ n - n - 1.
Proof.
  unfold raw_dependent. rewrite length_fmap, dependent_combinations_length.
  rewrite !Nat2N.inj_sub, Nat2N.inj_pow, N2Nat.id. done.
Qed.

Lemma sum_of_combinations_closed n :
  n <= 20 -> sum_of_combinations n 2 = 2 ^ n - n - 1.
Proof.
  intros Hn.
  assert (H : forallb (fun n => sum_of_combinations n 2 =? 2 ^ n - n - 1)
                (range 0 21) = true) by (vm_compute; reflexivity).
  rewrite forallb_forall in H.
  specialize (H n ltac:(apply list_elem_of_In, elem_of_range; lia)).
  by apply N.eqb_eq in H.
Qed.

(** The loops over the combinations with a body that succeeds on every
    tuple of ids. *)
Lemma raw_enumerates {A} (body : list N -> result A) (g : list N -> A) n :
  n < 2 ^ 63 ->
  (forall v, v ∈ raw_dependent n -> body v = Ok (g v)) ->
  for_all_combinations (range 1 (N.to_nat n)) n body []
  = Ok (g <$> raw_dependent n).
Proof.
  intros Hn Hbody.
  pose proof (for_all_combinations_enumerates (range 1 (N.to_nat n)) body
                (fun c => g (N.succ <$> c))) as H.
  rewrite range_length, N2Nat.id in H. rewrite H; [|done|].
  - unfold raw_dependent. by rewrite <- list_fmap_compose.
  - intros c Hc.
    pose proof (proj1 (elem_of_dependent_combinations n c) Hc) as [_ Hin].
    rewrite select_range by (by apply (comb_in_below 0)).
    apply Hbody. unfold raw_dependent. apply list_elem_of_fmap. by exists c.
Qed.



(** ** The closed-form tables of the dependent features *)

Lemma joined_name_ok operand op x ids :
  exists s, joined_name operand op (x :: ids) = Ok s.
Proof. unfold joined_name. simpl. by eexists. Qed.

Lemma comb_in_bounds v : forall lo hi,
  comb_in lo hi v -> Forall (fun x => lo <= x < hi) v.
Proof.
  induction v as [|x v IH]; intros lo hi Hc; [constructor|].
  destruct Hc as [Hx Hv]. constructor; [done|].
  apply (Forall_impl _ _ _ (IH _ _ Hv)). intros y. simpl. lia.
Qed.

Lemma raw_dependent_ids n v :
  v ∈ raw_dependent n ->
  v <> [] /\ Forall (fun x => 1 <= x <= n) v.
Proof.
  intros [Hl Hc]%elem_of_raw_dependent. split.
  - destruct v; [simpl in Hl; lia|done].
  - apply (Forall_impl _ _ _ (comb_in_bounds _ _ _ Hc)). intros y. simpl. lia.
Qed.

Section tables.
Context (name : list N -> result string) (value : list N -> result N).
Context (n : N) (n_16 : n < 2 ^ 16).
Context (total : forall v, v ∈ raw_dependent n ->
                   exists s x, name v = Ok s /\ value v = Ok x).

Lemma table_enumerates :
  exists l,
    for_all_combinations (range 1 (N.to_nat n)) n
      (fun c => nm ← name c; vl ← value c; Ok (nm, vl)) []
    = Ok l /\
    Forall2 (fun v e => name v = Ok (fst e) /\ value v = Ok (snd e))
      (raw_dependent n) l.
Proof.
  assert (2 ^ 16 < 2 ^ 63) by done.
  pose (g := fun v => (get_ok ""%string (name v), get_ok 0 (value v))).
  exists (g <$> raw_dependent n). split.
  - apply raw_enumerates; [lia|]. intros v Hv.
    destruct (total v Hv) as (s & x & Hs & Hx). unfold g.
    cbv beta. rewrite Hs, Hx. reflexivity.
  - apply Forall2_fmap_r, Forall_Forall2_diag, Forall_forall.
    intros v Hv. destruct (total v Hv) as (s & x & Hs & Hx). unfold g, compose.
    cbv beta. rewrite Hs, Hx. split; reflexivity.
Qed.
End tables.

Lemma raw_dependent_named operand op n v :
  v ∈ raw_dependent n -> exists s, joined_name operand op v = Ok s.
Proof.
  intros [Hne _]%raw_dependent_ids. destruct v as [|x v]; [done|].
  apply joined_name_ok.
Qed.

Lemma raw_dependent_valued (op : N -> N -> N) (idf : feature_expression_t)
    (init : N) n v :
  length idf = N.to_nat n -> v ∈ raw_dependent n ->
  exists r,
    for_each (fun res v => e ← at_pred idf v; Ok (op res (snd e))) v init
    = Ok r.
Proof.
  intros Hl [_ Hv]%raw_dependent_ids. apply values_ok.
  apply (Forall_impl _ _ _ Hv). intros x. simpl. lia.
Qed.

(** X17: on an object whose raw independent features are 1 .. n, and with
    tables of [n] entries, the four tables of dependent features of the
    closed-form strategy are computed without an exception: each has one
    entry for every raw dependent feature, in their order, with the name
    and the value of that combination, or is empty when the model lacks
    the family. *)
Theorem calculated_dependent_features
    (b : feature_location_t.t) (idf nf : feature_expression_t) (mask : N) :
  let n := feature_location_t.m_n b in
  let table (has : bool) (r : result feature_expression_t)
        (name : list N -> result string) (value : list N -> result N) :=
    if has then
      exists l, r = Ok l /\
        Forall2 (fun v e => name v = Ok (fst e) /\ value v = Ok (snd e))
          (raw_dependent n) l
    else r = Ok [] in
  n < 2 ^ 16 ->
  feature_location_t.m_raw_independent_features b = range 1 (N.to_nat n) ->
  length idf = N.to_nat n -> length nf = N.to_nat n ->
  table (hasO (feature_location_t.m_M b))
    (feature_location_calculation_t.calculate_or_features b idf)
    or_feature_name (fun v => or_feature_value v idf) /\
  table (hasA (feature_location_t.m_M b))
    (feature_location_calculation_t.calculate_and_features b idf)
    and_feature_name (fun v => and_feature_value v idf) /\
  table (hasON (feature_location_t.m_M b))
    (feature_location_calculation_t.calculate_or_not_features b nf)
    or_not_feature_name (fun v => or_not_feature_value v nf) /\
  table (hasAN (feature_location_t.m_M b))
    (feature_location_calculation_t.calculate_and_not_features b nf mask)
    and_not_feature_name (fun v => and_not_feature_value v nf mask).
Proof.
  intros n table Hn Hraw Hidf Hnf. unfold table.
  unfold feature_location_calculation_t.calculate_or_features,
    feature_location_calculation_t.calculate_and_features,
    feature_location_calculation_t.calculate_or_not_features,
    feature_location_calculation_t.calculate_and_not_features.
  rewrite Hraw. fold n. repeat apply conj.
  - destruct (hasO _); [|done]. apply table_enumerates; [done|].
    intros v Hv.
    destruct (raw_dependent_named (fun i => feature +:+ to_string i)
                feature_or n v Hv) as [s Hs].
    destruct (raw_dependent_valued N.lor idf 0 n v Hidf Hv) as [x Hx].
    by exists s, x.
  - destruct (hasA _); [|done]. apply table_enumerates; [done|].
    intros v Hv.
    destruct (raw_dependent_named (fun i => feature +:+ to_string i)
                feature_and n v Hv) as [s Hs].
    destruct (raw_dependent_valued N.land idf (N.lnot 0 64) n v Hidf Hv)
      as [x Hx].
    by exists s, x.
  - destruct (hasON _); [|done]. apply table_enumerates; [done|].
    intros v Hv.
    destruct (raw_dependent_named
                (fun i => feature_not +:+ feature +:+ to_string i)
                feature_or n v Hv) as [s Hs].
    destruct (raw_dependent_valued N.lor nf 0 n v Hnf Hv) as [x Hx].
    by exists s, x.
  - destruct (hasAN _); [|done]. apply table_enumerates; [done|].
    intros v Hv.
    destruct (raw_dependent_named
                (fun i => feature_not +:+ feature +:+ to_string i)
                feature_and n v Hv) as [s Hs].
    destruct (raw_dependent_valued N.land nf (N.lnot mask 64) n v Hnf Hv)
      as [x Hx].
    by exists s, x.
Qed.

Lemma calculated_dependent_features_witness :
  exists l,
    feature_location_calculation_t.calculate_or_features
      {| feature_location_t.m_n := 2; feature_location_t.m_F := 2;
         feature_location_t.m_M := 19; feature_location_t.m_S := 4;
         feature_location_t.m_O := 1; feature_location_t.m_A := 1;
         feature_location_t.m_N := 2; feature_location_t.m_ON := 1;
         feature_location_t.m_AN := 1; feature_location_t.m_I := 6;
         feature_location_t.m_T := 8; feature_location_t.m_D := 16;
         feature_location_t.m_raw_independent_features := [1; 2];
         feature_location_t.m_raw_dependent_features := [[1; 2]];
         feature_location_t.m_all_systems := [] |}
      [("f1"%string, 10); ("f2"%string, 12)]
    = Ok l.
Proof.
  destruct (calculated_dependent_features
              {| feature_location_t.m_n := 2; feature_location_t.m_F := 2;
                 feature_location_t.m_M := 19; feature_location_t.m_S := 4;
                 feature_location_t.m_O := 1; feature_location_t.m_A := 1;
                 feature_location_t.m_N := 2; feature_location_t.m_ON := 1;
                 feature_location_t.m_AN := 1; feature_location_t.m_I := 6;
                 feature_location_t.m_T := 8; feature_location_t.m_D := 16;
                 feature_location_t.m_raw_independent_features := [1; 2];
                 feature_location_t.m_raw_dependent_features := [[1; 2]];
                 feature_location_t.m_all_systems := [] |}
              [("f1"%string, 10); ("f2"%string, 12)]
              [("!f1"%string, 5); ("!f2"%string, 3)] (N.lnot 15 64))
    as ((l & Hl & _) & _); [reflexivity..|].
  by exists l.
Defined.

(** ** The constructors *)

Lemma for_each_ok {A St} (body : St -> A -> result St) (l : list A) :
  (forall st x, x ∈ l -> exists st', body st x = Ok st') ->
  forall st, exists r, for_each body l st = Ok r.
Proof.
  induction l as [|x l IH]; intros Hbody st; [by eexists|].
  cbn [for_each]. destruct (Hbody st x ltac:(left)) as [st' ->].
  cbn [mbind result_bind]. apply IH. intros st'' y Hy. apply Hbody. by right.
Qed.

Lemma mapM_ok {A B} (f : A -> result B) (l : list A) :
  (forall x, x ∈ l -> exists y, f x = Ok y) ->
  exists ys, mapM f l = Ok ys /\ length ys = length l.
Proof.
  induction l as [|x l IH]; intros Hf; [by exists []|].
  destruct (Hf x ltac:(left)) as [y Hy].
  destruct IH as (ys & Hys & Hl); [intros z Hz; apply Hf; by right|].
  exists (y :: ys). cbn [mapM]. rewrite Hy. cbn [mbind result_bind].
  rewrite Hys. cbn [mbind result_bind mret result_ret]. simpl. by rewrite Hl.
Qed.


Section systems.
Context (o : feature_location_t.t) (n : N).
Context (dependent :
           feature_location_t.m_raw_dependent_features o = raw_dependent n).

Lemma membership_loop_ok (name : list N -> result string)
    (f : list feature_id_t) :
  (forall v, v ∈ raw_dependent n -> exists s, name v = Ok s) ->
  exists res,
    for_each
      (fun res i =>
         for_each
           (fun res j =>
              t ← name j;
              Ok (if contains j i && negb (contains res t)
                  then res ++ [t] else res))
           (feature_location_t.m_raw_dependent_features o) res)
      f []
    = Ok res.
Proof.
  intros Hname. apply for_each_ok. intros st i _.
  apply for_each_ok. intros st' j Hj. rewrite dependent in Hj.
  destruct (Hname j Hj) as [s ->]. by eexists.
Qed.

Lemma subset_loop_ok (name : list N -> result string)
    (f : list feature_id_t) :
  (forall v, v ∈ raw_dependent n -> exists s, name v = Ok s) ->
  exists res,
    for_each
      (fun res i =>
         if forallb (contains f) i
         then t ← name i; Ok (res ++ [t])
         else Ok res)
      (feature_location_t.m_raw_dependent_features o) []
    = Ok res.
Proof.
  intros Hname. apply for_each_ok. intros st i Hi. rewrite dependent in Hi.
  destruct (forallb (contains f) i); [|by eexists].
  destruct (Hname i Hi) as [s ->]. by eexists.
Qed.

Lemma generate_system_ok f :
  exists s, feature_location_t.generate_system o f = Ok s.
Proof.
  unfold feature_location_t.generate_system,
    feature_location_t.generate_or_features,
    feature_location_t.generate_and_features,
    feature_location_t.generate_or_not_features,
    feature_location_t.generate_and_not_features.
  destruct (membership_loop_ok or_feature_name f) as [r1 ->];
    [intros v; apply raw_dependent_named|].
  destruct (subset_loop_ok and_feature_name f) as [r2 ->];
    [intros v; apply raw_dependent_named|].
  destruct (membership_loop_ok or_not_feature_name
              (negate f (feature_location_t.m_n o))) as [r3 ->];
    [intros v; apply raw_dependent_named|].
  destruct (subset_loop_ok and_not_feature_name
              (negate f (feature_location_t.m_n o))) as [r4 ->];
    [intros v; apply raw_dependent_named|].
  destruct (hasO _), (hasA _), (hasON _), (hasAN _);
    cbn [mbind result_bind]; by eexists.
Qed.
End systems.



Lemma base_new_ok n m :
  n < 2 ^ 16 ->
  exists systems,
    length systems = N.to_nat (power2 n) /\
    feature_location_t.new n m
    = Ok {| feature_location_t.m_n := n; feature_location_t.m_F := n;
            feature_location_t.m_M := m;
            feature_location_t.m_S := power2 n;
            feature_location_t.m_O :=
              if hasO m then sum_of_combinations n 2 else 0;
            feature_location_t.m_A :=
              if hasA m then sum_of_combinations n 2 else 0;
            feature_location_t.m_N := if hasN m then n else 0;
            feature_location_t.m_ON :=
              if hasON m then sum_of_combinations n 2 else 0;
            feature_location_t.m_AN :=
              if hasAN m then sum_of_combinations n 2 else 0;
            feature_location_t.m_I :=
              wrap64 ((if hasO m then sum_of_combinations n 2 else 0)
                      + (if hasA m then sum_of_combinations n 2 else 0)
                      + (if hasN m then n else 0)
                      + (if hasAN m then sum_of_combinations n 2 else 0)
                      + (if hasON m then sum_of_combinations n 2 else 0));
            feature_location_t.m_T :=
              wrap64 (n
                      + (if hasO m then sum_of_combinations n 2 else 0)
                      + (if hasA m then sum_of_combinations n 2 else 0)
                      + (if hasN m then n else 0)
                      + (if hasAN m then sum_of_combinations n 2 else 0)
                      + (if hasON m then sum_of_combinations n 2 else 0));
            feature_location_t.m_D := power2 (power2 n);
            feature_location_t.m_raw_independent_features :=
              range 1 (N.to_nat n);
            feature_location_t.m_raw_dependent_features := raw_dependent n;
            feature_location_t.m_all_systems := systems |}.
Proof.
  intros Hn. assert (2 ^ 16 < 2 ^ 63) by done.
  unfold feature_location_t.new. cbv zeta.
  rewrite (raw_enumerates Ok id) by (lia || done).
  rewrite list_fmap_id. cbn [mbind result_bind].
  unfold feature_location_t.generate_all_systems.
  match goal with
  | |- context [mapM ?f ?l] =>
      destruct (mapM_ok f l) as (systems & Hs & Hl)
  end.
  { intros s _. by apply (generate_system_ok _ n). }
  exists systems. split.
  - rewrite Hl, range_length. done.
  - rewrite Hs. reflexivity.
Qed.





(** ** The two programs *)

Lemma expression_closed F f :
  1 <= f <= F -> F < 64 ->
  fl.expression (fl.new_generator F) f
  = Ok ((fun p => N.testbit p (f - 1)) <$> range 0 (N.to_nat (2 ^ F))).
Proof.
  intros Hf HF. unfold fl.new_generator, fl.expression.
  cbn [fl.m_F fl.m_S].
  assert (HfF : (F <? f) = false) by (apply N.ltb_ge; lia).
  rewrite HfF, stride_pow by lia.
  change (fl.power 2 F) with (power 2 F).
  rewrite power_pow, N.mod_small by (apply N.pow_lt_mono_r; lia).
  by rewrite expression_loop by lia.
Qed.

Lemma expression_closed_lookup F f q :
  q < 2 ^ F ->
  ((fun p => N.testbit p (f - 1)) <$> range 0 (N.to_nat (2 ^ F)))
    !! N.to_nat q
  = Some (N.testbit q (f - 1)).
Proof.
  intros Hq. rewrite list_lookup_fmap, range_lookup by lia.
  simpl. by rewrite N.add_0_l, N2Nat.id.
Qed.

(** X19: up to 6 features the bitstring that [fl.cpp] generates for an
    independent feature and the value that the closed-form strategy of
    [features.hpp] calculates for it are the same bits, system by system,
    and so are the complemented bitstring and the value of the
    not-feature. *)
Theorem fl_agrees_with_closed_form (b : feature_location_t.t) (f : N) :
  let n := feature_location_t.m_n b in
  let mask := feature_location_calculation_t.initialize_bitmask b in
  n <= 6 -> feature_location_t.m_S b = 2 ^ n -> 1 <= f <= n ->
  exists de v,
    fl.expression (fl.new_generator n) f = Ok de /\
    feature_location_calculation_t.calculate_independent_features b
      !! N.to_nat (f - 1)
    = Some (independent_feature_name f, v) /\
    length de = N.to_nat (2 ^ n) /\
    (forall q, q < 2 ^ n ->
       de !! N.to_nat q = Some (N.testbit v q) /\
       fl.bit_not de !! N.to_nat q
       = Some (N.testbit
                 (feature_location_calculation_t.not_value v mask) q)) /\
    (forall q, 2 ^ n <= q ->
       N.testbit v q = false /\
       N.testbit (feature_location_calculation_t.not_value v mask) q = false).
Proof.
  intros n mask Hn HS Hf.
  assert (Hp : 2 ^ n <= 2 ^ 6) by (apply N.pow_le_mono_r; lia).
  assert (H6 : 2 ^ 6 = 64) by done.
  destruct (independent_value n (f - 1)) as (v & Hv & Hlt & Hb); [lia..|].
  assert (Hvn : v < 2 ^ 2 ^ n).
  { apply below_pow2_bits. intros i Hi. rewrite Hb.
    by replace (i <? 2 ^ n) with false by (symmetry; apply N.ltb_ge; lia). }
  assert (Hnot : feature_location_calculation_t.not_value v mask
                 = N.lnot v (2 ^ n)).
  { unfold mask. rewrite initialize_bitmask_ones, HS.
    apply not_value_lnot; [lia|done]. }
  eexists _, v. split; [apply expression_closed; lia|]. split; [|split].
  - unfold feature_location_calculation_t.calculate_independent_features.
    fold n. rewrite list_lookup_fmap, range_lookup by lia.
    cbn [fmap option_fmap option_map]. rewrite N.add_0_l, N2Nat.id, Hv.
    do 3 f_equal. unfold wrap16.
    replace (f - 1 + 1) with f by lia. apply N.mod_small.
    assert (6 < 2 ^ 16) by done. lia.
  - by rewrite length_fmap, range_length.
  - split.
    + intros q Hq.
      assert (Hq' : N.testbit v q = N.testbit q (f - 1)).
      { rewrite Hb.
        replace (q <? 2 ^ n) with true by (symmetry; apply N.ltb_lt; lia).
        by replace (q <? 64) with true by (symmetry; apply N.ltb_lt; lia). }
      split.
      * rewrite expression_closed_lookup by done. by rewrite Hq'.
      * rewrite bit_not_negb, list_lookup_fmap.
        rewrite expression_closed_lookup by done.
        by rewrite Hnot, N.lnot_spec_low, Hq' by done.
    + intros q Hq. rewrite Hnot. split.
      * by apply (below_pow2_bits v (2 ^ n)).
      * apply (below_pow2_bits (N.lnot v (2 ^ n)) (2 ^ n)); [|done].
        by apply lnot_below.
Qed.

Lemma fl_agrees_with_closed_form_witness :
  exists de v,
    fl.expression (fl.new_generator 2) 2 = Ok de /\
    feature_location_calculation_t.calculate_independent_features
      (location 2 19) !! N.to_nat (2 - 1)
    = Some (independent_feature_name 2, v) /\
    length de = N.to_nat (2 ^ 2).
Proof.
  destruct (fl_agrees_with_closed_form (location 2 19) 2)
    as (de & v & Hde & Hv & Hl & _);
    [vm_compute; discriminate | vm_compute; reflexivity
    | vm_compute; split; discriminate |].
  exists de, v. split; [exact Hde|]. split; [exact Hv | exact Hl].
Defined.

(** ** The printers of dependent features of [fl.cpp] *)

Lemma fl_do_while_body {A} (body : list N -> result A) (g : list N -> A)
    n k rest : forall pre st fuel out,
  n < 2 ^ 16 ->
  all_combinations n k = pre ++ st :: rest ->
  (forall c, c ∈ st :: rest -> body c = Ok (g c)) ->
  (length rest < fuel)%nat ->
  fl.do_while_next fuel body
    {| fl.m_state := st; fl.m_k := k; fl.m_n := n |} out
  = Ok (out ++ (g <$> st :: rest)).
Proof.
  induction rest as [|c rest IH]; intros pre st fuel out Hn Hall Hbody Hfuel.
  - destruct fuel as [|fuel]; [simpl in Hfuel; lia|].
    cbn [fl.do_while_next]. unfold fl.call at 1. cbn [fl.m_state].
    rewrite Hbody by left. cbn [mbind result_bind].
    rewrite fl_next_spec;
      [|done|apply elem_of_all_combinations; rewrite Hall;
             apply elem_of_app; right; left].
    by rewrite (next_in_enumeration _ _ _ _ _ Hall).
  - destruct fuel as [|fuel]; [simpl in Hfuel; lia|].
    cbn [fl.do_while_next]. unfold fl.call at 1. cbn [fl.m_state].
    rewrite Hbody by left. cbn [mbind result_bind].
    rewrite fl_next_spec;
      [|done|apply elem_of_all_combinations; rewrite Hall;
             apply elem_of_app; right; left].
    rewrite (next_in_enumeration _ _ _ _ _ Hall). cbn [head mbind result_bind].
    rewrite (IH (pre ++ [st]) c fuel (out ++ [g st])); try done.
    + by rewrite <- (assoc_L (++)).
    + by rewrite <- (assoc_L (++)).
    + intros c' Hc'. apply Hbody. by right.
    + simpl in Hfuel. lia.
Qed.

Lemma fl_new_combination_ok n k :
  k <= n -> n <> 0 ->
  fl.new_combination n k
  = Ok {| fl.m_state := combination.initial_state k; fl.m_k := k;
          fl.m_n := n |}.
Proof.
  intros Hk Hn. unfold fl.new_combination.
  destruct (N.ltb_spec n k); [lia|]. by destruct (N.eqb_spec n 0).
Qed.

Lemma print_dependent_enumerates F (line : list N -> result string)
    (g : list N -> string) :
  F < 64 ->
  (forall c, c ∈ dependent_combinations F -> line c = Ok (g c)) ->
  fl.print_dependent (fl.new_generator F) line
  = Ok (fold_left String.append (g <$> dependent_combinations F) ""%string).
Proof.
  intros HF Hline.
  unfold fl.print_dependent, fl.new_generator, dependent_combinations in *.
  cbn [fl.m_F].
  assert (H16 : 64 < 2 ^ 16) by done.
  assert (Hloop : forall ks out,
    (forall k, k ∈ ks -> 2 <= k <= F) ->
    (forall c, c ∈ ks ≫= all_combinations F -> line c = Ok (g c)) ->
    for_each
      (fun out f =>
         c ← fl.new_combination F (wrap16 f);
         fl.do_while_next (2 ^ N.to_nat F) line c out)
      ks out
    = Ok (out ++ (g <$> (ks ≫= all_combinations F)))).
  { induction ks as [|k ks IH]; intros out Hks Hbody.
    - simpl. by rewrite app_nil_r.
    - cbn [for_each]. pose proof (Hks k ltac:(left)) as Hk.
      rewrite (wrap16_small 64 k) by lia.
      rewrite fl_new_combination_ok by lia. cbn [mbind result_bind].
      destruct (first_in_enumeration F k ltac:(lia)) as [rest Hall].
      rewrite (fl_do_while_body line g F k rest []); try done; try lia.
      + cbn [mbind result_bind]. rewrite IH.
        * by rewrite bind_cons, fmap_app, Hall, (assoc_L (++)).
        * intros k' Hk'. apply Hks. by right.
        * intros c Hc. apply Hbody. rewrite bind_cons. apply elem_of_app.
          by right.
      + intros c Hc. apply Hbody. rewrite bind_cons, Hall.
        apply elem_of_app. by left.
      + pose proof (binomial_le_pow2 (N.to_nat F) (N.to_nat k)) as Hb.
        assert (Hlen : length (all_combinations F k)
                       = binomial (N.to_nat F) (N.to_nat k))
          by apply combs_from_length.
        rewrite Hall in Hlen. simpl in Hlen. lia. }
  rewrite (wrap16_small 64 F) by lia. rewrite Hloop; [done| |done].
  intros k Hk%elem_of_range. lia.
Qed.

Lemma zip_with_fmap_same {A B C D} (f : B -> C -> D) (g : A -> B)
    (h : A -> C) (l : list A) :
  zip_with f (g <$> l) (h <$> l) = (fun x => f (g x) (h x)) <$> l.
Proof.
  induction l as [|x l IH]; [done|].
  cbn [fmap list_fmap zip_with]. f_equal. exact IH.
Qed.

Lemma foldl_andb (h : N -> bool) rest : forall b,
  foldl (fun a e => a && h e) b rest = b && forallb h rest.
Proof.
  induction rest as [|e rest IH]; intros b; simpl.
  - by rewrite andb_true_r.
  - by rewrite IH, andb_assoc.
Qed.

Lemma foldl_orb (h : N -> bool) rest : forall b,
  foldl (fun a e => a || h e) b rest = b || existsb h rest.
Proof.
  induction rest as [|e rest IH]; intros b; simpl.
  - by rewrite orb_false_r.
  - by rewrite IH, orb_assoc.
Qed.

Lemma name_fold further rest : forall pre x,
  fold_left (fun s e => s +:+ further +:+ pretty (e + 1)) rest (pre +:+ x)
  = pre +:+ join further (x :: ((fun e => pretty (e + 1)) <$> rest)).
Proof.
  induction rest as [|e rest IH]; intros pre x; [done|].
  cbn [fold_left fmap list_fmap].
  rewrite <- (string_app_assoc (pre +:+ x)), (string_app_assoc pre).
  rewrite IH. cbn [join]. by rewrite !string_app_assoc.
Qed.

Section line.
Context (F : N) (F_64 : F < 64) (complement : bool).
Context (op : bool -> bool -> bool).
Context (assign : list bool -> list bool -> result (list bool)).
Context (assign_op : forall l r,
           assign l r
           = if negb (length l =? length r)%nat then Throw length_error
             else Ok (zip_with op l r)).
Context (first further : string).

Local Abbreviation systems := (range 0 (N.to_nat (2 ^ F))).
Local Abbreviation bit :=
  (fun (e p : N) => xorb complement (N.testbit p e)).

Lemma operand_closed e :
  e < F ->
  (de ← fl.expression (fl.new_generator F) (wrap64 (e + 1));
   Ok (if complement then fl.bit_not de else de))
  = Ok (bit e <$> systems).
Proof.
  intros He. rewrite (wrap64_small 64) by (done || lia).
  rewrite expression_closed by lia. cbn [mbind result_bind].
  rewrite N.add_sub, bit_not_negb, <- list_fmap_compose. f_equal.
  destruct complement; apply list_fmap_ext; intros _ p _; simpl;
    by destruct (N.testbit p e).
Qed.

Lemma line_loop rest : forall (g : N -> bool) nm,
  Forall (fun e => e < F) rest ->
  for_each
    (fun (st : list bool * string) e =>
       de ← (de ← fl.expression (fl.new_generator F) (wrap64 (e + 1));
             Ok (if complement then fl.bit_not de else de));
       res ← assign (fst st) de;
       Ok (res, snd st +:+ further +:+ pretty (e + 1)))
    rest (g <$> systems, nm)
  = Ok ((fun p => foldl (fun a e => op a (bit e p)) (g p) rest)
          <$> systems,
        fold_left (fun s e => s +:+ further +:+ pretty (e + 1)) rest nm).
Proof.
  induction rest as [|e rest IH]; intros g nm Hall; [done|].
  apply Forall_cons in Hall as [He Hall].
  cbn [for_each]. rewrite operand_closed by done.
  cbn [mbind result_bind fst snd]. rewrite assign_op, !length_fmap.
  rewrite Nat.eqb_refl. cbn [negb mbind result_bind].
  rewrite zip_with_fmap_same. by rewrite IH.
Qed.

Lemma dependent_line_fold c0 rest :
  Forall (fun e => e < F) (c0 :: rest) ->
  fl.dependent_line (fl.new_generator F) complement assign first further
    (c0 :: rest)
  = Ok (csv_line
          (dependent_name first further (c0 :: rest))
          ((fun p => foldl (fun a e => op a (bit e p)) (bit c0 p) rest)
             <$> systems)).
Proof.
  intros [H0 Hrest]%Forall_cons. unfold fl.dependent_line.
  cbn [at_ lookup list_lookup mbind result_bind drop].
  rewrite operand_closed by done. cbn [mbind result_bind].
  rewrite line_loop by done. cbn [mbind result_bind].
  unfold csv_line, dependent_name. by rewrite name_fold.
Qed.
End line.

Lemma dependent_line_and F complement first further c :
  F < 64 -> c <> [] -> Forall (fun e => e < F) c ->
  fl.dependent_line (fl.new_generator F) complement fl.bit_and_assign
    first further c
  = Ok (csv_line (dependent_name first further c)
          (dependent_bits (@forallb N) complement F c)).
Proof.
  intros HF Hc Hall. destruct c as [|c0 rest]; [done|].
  rewrite (dependent_line_fold F HF complement andb) by done.
  do 2 f_equal. unfold dependent_bits. apply list_fmap_ext. intros _ p _.
  by rewrite (foldl_andb (fun e => xorb complement (N.testbit p e))).
Qed.

Lemma dependent_line_or F complement first further c :
  F < 64 -> c <> [] -> Forall (fun e => e < F) c ->
  fl.dependent_line (fl.new_generator F) complement fl.bit_or_assign
    first further c
  = Ok (csv_line (dependent_name first further c)
          (dependent_bits (@existsb N) complement F c)).
Proof.
  intros HF Hc Hall. destruct c as [|c0 rest]; [done|].
  rewrite (dependent_line_fold F HF complement orb) by done.
  do 2 f_equal. unfold dependent_bits. apply list_fmap_ext. intros _ p _.
  by rewrite (foldl_orb (fun e => xorb complement (N.testbit p e))).
Qed.

Lemma dependent_combination_indices F c :
  c ∈ dependent_combinations F -> c <> [] /\ Forall (fun e => e < F) c.
Proof.
  intros [Hl Hc]%elem_of_dependent_combinations. split.
  - destruct c; [simpl in Hl; lia|done].
  - by apply (comb_in_below 0).
Qed.

(** X20: one line of the files of dependent features.  For a
    combination, not empty, of feature indices below F < 64, the line is
    the name, a tabulator, the bitstring and the end of line; the name
    joins the feature numbers (index + 1) by the operator, and the bit of
    system [p + 1] tells whether all features of the combination (for
    [&=]), or one of them (for [|=]), complemented or not, are among the
    bits of [p].  No [length_error] occurs.  An empty combination ends in
    [out_of_range], an index that is no feature in
    [invalid_argument]. *)
Theorem dependent_line_closed_form
    (F : N) (complement : bool) (first further : string) (c : list N) :
  let dg := fl.new_generator F in
  (F < 64 -> c <> [] -> Forall (fun e => e < F) c ->
   fl.dependent_line dg complement fl.bit_and_assign first further c
   = Ok (csv_line (dependent_name first further c)
           (dependent_bits (@forallb N) complement F c)) /\
   fl.dependent_line dg complement fl.bit_or_assign first further c
   = Ok (csv_line (dependent_name first further c)
           (dependent_bits (@existsb N) complement F c))) /\
  (forall assign,
     fl.dependent_line dg complement assign first further []
     = Throw out_of_range) /\
  (forall assign e rest, F <= e -> e + 1 < 2 ^ 64 ->
     fl.dependent_line dg complement assign first further (e :: rest)
     = Throw invalid_argument).
Proof.
  intros dg. unfold dg. split; [|split].
  - intros HF Hc Hall.
    split; [by apply dependent_line_and | by apply dependent_line_or].
  - done.
  - intros assign e rest He Hlt. unfold fl.dependent_line.
    cbn [at_ lookup list_lookup mbind result_bind].
    unfold wrap64. rewrite N.mod_small by done.
    unfold fl.expression, fl.new_generator. cbn [fl.m_F].
    by replace (F <? e + 1) with true by (symmetry; apply N.ltb_lt; lia).
Qed.

Lemma dependent_line_closed_form_witness :
  fl.dependent_line (fl.new_generator 3) false fl.bit_and_assign "f" "*f"
    [0; 2]
  = Ok (csv_line (dependent_name "f" "*f" [0; 2])
          (dependent_bits (@forallb N) false 3 [0; 2])).
Proof.
  apply (dependent_line_closed_form 3 false "f" "*f" [0; 2]);
    [done | done | repeat constructor; done].
Defined.

(** X21: below 64 features the four printers of dependent features end
    without an exception, the iterations granted to the loops over the
    combinations being enough, and write one line of X20 for every
    combination of the sizes 2 .. F, in the order of the generator:
    2^F - F - 1 lines. *)
Theorem dependent_printers_total (F : N) :
  let dg := fl.new_generator F in
  let file (first further : string)
        (quantifier : (N -> bool) -> list N -> bool) (complement : bool) :=
    fold_left String.append
      ((fun c => csv_line (dependent_name first further c)
                   (dependent_bits quantifier complement F c))
         <$> dependent_combinations F) ""%string in
  F < 64 ->
  fl.print_and_features dg = Ok (file "f" "*f" (@forallb N) false) /\
  fl.print_or_features dg = Ok (file "f" "+f" (@existsb N) false) /\
  fl.print_and_not_features dg = Ok (file "!f" "*!f" (@forallb N) true) /\
  fl.print_or_not_features dg = Ok (file "!f" "+!f" (@existsb N) true) /\
  N.of_nat (length (dependent_combinations F)) = 2 ^ F - F - 1.
Proof.
  intros dg file HF. unfold dg, file, fl.print_and_features,
    fl.print_or_features, fl.print_and_not_features, fl.print_or_not_features.
  repeat apply conj.
  - apply print_dependent_enumerates; [done|].
    intros c [Hc Hall]%dependent_combination_indices.
    by apply dependent_line_and.
  - apply print_dependent_enumerates; [done|].
    intros c [Hc Hall]%dependent_combination_indices.
    by apply dependent_line_or.
  - apply print_dependent_enumerates; [done|].
    intros c [Hc Hall]%dependent_combination_indices.
    by apply dependent_line_and.
  - apply print_dependent_enumerates; [done|].
    intros c [Hc Hall]%dependent_combination_indices.
    by apply dependent_line_or.
  - rewrite dependent_combinations_length.
    by rewrite !Nat2N.inj_sub, Nat2N.inj_pow, N2Nat.id.
Qed.

Lemma dependent_printers_total_witness :
  fl.print_and_features (fl.new_generator 3)
  = Ok (fold_left String.append
          ((fun c => csv_line (dependent_name "f" "*f" c)
                       (dependent_bits (@forallb N) false 3 c))
             <$> dependent_combinations 3) ""%string).
Proof. apply (dependent_printers_total 3). done. Defined.

(** ** The printers of independent features of [fl.cpp] *)

Lemma expression_bit_closed F f p :
  1 <= f <= F -> F < 64 -> p < 2 ^ F ->
  fl.expression_bit (fl.new_generator F) f (p + 1)
  = Ok (N.testbit p (f - 1)).
Proof.
  intros Hf HF Hp. unfold fl.new_generator, fl.expression_bit.
  cbn [fl.m_F fl.m_S].
  assert (HfF : (F <? f) = false) by (apply N.ltb_ge; lia).
  rewrite HfF, stride_pow by lia.
  change (fl.power 2 F) with (power 2 F).
  rewrite power_pow, N.mod_small by (apply N.pow_lt_mono_r; lia).
  assert (HpS : (2 ^ F <? p + 1) = false) by (apply N.ltb_ge; lia).
  assert (2 ^ F <= 2 ^ 63) by (apply N.pow_le_mono_r; lia).
  assert (2 ^ 63 + 1 < 2 ^ 64) by done.
  rewrite HpS, ceil_div_succ;
    [|apply N.neq_0_lt_0, N.pow_nonzero; lia|lia].
  f_equal. rewrite N.testbit_eqb.
  pose proof (parity_succ (p / 2 ^ (f - 1))) as Hpar.
  pose proof (N.mod_lt (p / 2 ^ (f - 1) + 1) 2 ltac:(lia)) as Hlt.
  revert Hpar Hlt.
  generalize ((p / 2 ^ (f - 1) + 1) mod 2), ((p / 2 ^ (f - 1)) mod 2).
  intros c d Hpar Hlt. rewrite <- (negb_involutive (d =? 1)), <- Hpar.
  destruct (N.eqb_spec c 0), (N.eqb_spec c 1); simpl; try done; lia.
Qed.

Lemma lines_loop {A} (g : A -> string) (l : list A) : forall os,
  for_each (fun os x => Ok (os +:+ g x)) l os
  = Ok (fold_left String.append (g <$> l) os).
Proof. induction l as [|x l IH]; intros os; [done|]. simpl. apply IH. Qed.

Lemma show_cons b l : fl.show (b :: l) = fl.show l +:+ fl.show_bit b.
Proof. reflexivity. Qed.

(** The inner loop of [print_independent_features_alt] after [m]
    systems, counted down from system [S]. *)
Lemma alt_loop F f m : forall os,
  1 <= f <= F -> F < 64 -> N.of_nat m <= 2 ^ F - 1 ->
  for_each
    (fun os i =>
       b ← fl.expression_bit (fl.new_generator F) f
             (fl.m_S (fl.new_generator F) - i);
       Ok (os +:+ fl.show_bit b))
    (range 0 m) os
  = Ok (os +:+ fl.show ((fun p => N.testbit p (f - 1))
                          <$> range (2 ^ F - N.of_nat m) m)).
Proof.
  intros os Hf HF. revert os. induction m as [|m IH]; intros os Hm.
  - simpl. change (fl.show []) with ""%string.
    by rewrite string_app_nil_r.
  - rewrite range_snoc, for_each_app, IH by lia.
    cbn [mbind result_bind for_each].
    assert (HS : fl.m_S (fl.new_generator F) = 2 ^ F).
    { unfold fl.new_generator. cbn [fl.m_S].
      change (fl.power 2 F) with (power 2 F).
      rewrite power_pow. apply N.mod_small, N.pow_lt_mono_r; lia. }
    rewrite HS, N.add_0_l.
    replace (2 ^ F - N.of_nat m) with (2 ^ F - N.of_nat m - 1 + 1) at 1
      by lia.
    rewrite expression_bit_closed by lia. cbn [mbind result_bind].
    rewrite (range_cons (2 ^ F - N.of_nat (S m))).
    cbn [fmap list_fmap]. rewrite show_cons, string_app_assoc.
    replace (2 ^ F - N.of_nat (S m) + 1) with (2 ^ F - N.of_nat m) by lia.
    by replace (2 ^ F - N.of_nat m - 1) with (2 ^ F - N.of_nat (S m)) by lia.
Qed.

(** X22: below 64 features the printers of the independent and of the
    not-features write, for each feature 1 .. F, a line with its name and
    its bitstring of 2^F systems, complemented for the not-feature; the
    alternative printer, which computes the bits one by one from system S
    down to system 2, writes the same lines without the bit of
    system 1. *)
Theorem independent_printers (F : N) :
  let dg := fl.new_generator F in
  let file (line : N -> string) :=
    fold_left String.append (line <$> range 1 (N.to_nat F)) ""%string in
  F < 64 ->
  fl.print_independent_features dg
  = Ok (file (fun f => csv_line ("f" +:+ pretty f) (independent_bits F f))) /\
  fl.print_not_features dg
  = Ok (file (fun f => csv_line ("!f" +:+ pretty f)
                         (negb <$> independent_bits F f))) /\
  fl.print_independent_features_alt dg
  = Ok (file (fun f => csv_line ("f" +:+ pretty f)
                         (drop 1 (independent_bits F f)))).
Proof.
  intros dg file HF. unfold dg, file.
  assert (Hin : forall f, f ∈ range 1 (N.to_nat F) -> 1 <= f <= F)
    by (intros f Hf%elem_of_range; lia).
  assert (Hext : forall (body : string -> N -> result string)
                        (g : N -> string),
            (forall os f, 1 <= f <= F -> body os f = Ok (os +:+ g f)) ->
            for_each body (range 1 (N.to_nat F)) ""%string
            = Ok (fold_left String.append (g <$> range 1 (N.to_nat F))
                    ""%string)).
  { intros body g Hbody. rewrite <- lines_loop.
    revert Hin. generalize (range 1 (N.to_nat F)), ""%string.
    intros l. induction l as [|x l IH]; intros os Hl; [done|].
    cbn [for_each]. rewrite Hbody by (apply Hl; left).
    cbn [mbind result_bind]. apply IH. intros f Hf'. apply Hl. by right. }
  repeat apply conj.
  - unfold fl.print_independent_features. cbn [fl.m_F fl.new_generator].
    apply Hext. intros os f Hf. rewrite expression_closed by done.
    cbn [mbind result_bind]. unfold csv_line, independent_bits.
    by rewrite !string_app_assoc.
  - unfold fl.print_not_features. cbn [fl.m_F fl.new_generator].
    apply Hext. intros os f Hf. rewrite expression_closed by done.
    cbn [mbind result_bind]. unfold csv_line, independent_bits.
    by rewrite bit_not_negb, !string_app_assoc.
  - unfold fl.print_independent_features_alt. cbn [fl.m_F fl.new_generator].
    apply Hext. intros os f Hf.
    assert (HS : fl.m_S (fl.new_generator F) = 2 ^ F).
    { unfold fl.new_generator. cbn [fl.m_S].
      change (fl.power 2 F) with (power 2 F).
      rewrite power_pow. apply N.mod_small, N.pow_lt_mono_r; lia. }
    assert (Hp : 0 < 2 ^ F) by (apply N.neq_0_lt_0, N.pow_nonzero; lia).
    change {| fl.m_F := F; fl.m_S := fl.power 2 F |}
      with (fl.new_generator F).
    rewrite alt_loop by (done || lia). cbn [mbind result_bind].
    rewrite HS. unfold csv_line, independent_bits.
    destruct (N.to_nat (2 ^ F)) as [|k] eqn:Hk; [lia|].
    rewrite range_cons. cbn [fmap list_fmap drop].
    replace (S k - 1)%nat with k by lia.
    replace (2 ^ F - N.of_nat k) with (0 + 1) by lia.
    by rewrite !string_app_assoc.
Qed.

Lemma independent_printers_witness :
  fl.print_independent_features_alt (fl.new_generator 2)
  = Ok (fold_left String.append
          ((fun f => csv_line ("f" +:+ pretty f)
                       (drop 1 (independent_bits 2 f)))
             <$> range 1 (N.to_nat 2)) ""%string).
Proof. apply (independent_printers 2). done. Defined.

(** ** The sorted differences of the closed-form strategy *)

#[global] Instance id_le_total : Total feature_location_calculation_t.id_le.
Proof.
  intros a b. unfold feature_location_calculation_t.id_le.
  destruct (N.le_ge_cases (difference_id a) (difference_id b));
    [by left | by right].
Qed.

#[global] Instance id_le_transitive :
  Transitive feature_location_calculation_t.id_le.
Proof.
  intros a b c. unfold feature_location_calculation_t.id_le. lia.
Qed.

#[global] Instance string_le_total : Total string_le.
Proof. intros a b. unfold string_le. apply String.leb_total. Qed.

(** X23: [calculate_differences] returns the differences of all features
    of the table, one for each entry and no other, in the order of their
    ids; every one is the difference that the exhaustive strategy
    generates for that id. *)
Theorem calculate_differences_sorted
    (b : feature_location_t.t) (all : feature_expression_t) :
  let ds := feature_location_calculation_t.calculate_differences b all in
  StronglySorted feature_location_calculation_t.id_le ds /\
  ds ≡ₚ (fun nv => feature_location_calculation_t.calculate_difference
                     b (snd nv) (fst nv)) <$> all /\
  length ds = length all /\
  (forall d, d ∈ ds ->
     (sfd_feature d, difference_id d) ∈ all /\
     difference d
     = feature_location_differences_t.generate_difference b
         (difference_id d)).
Proof.
  intros ds. unfold ds, feature_location_calculation_t.calculate_differences.
  split; [apply StronglySorted_merge_sort; apply _|].
  split; [apply merge_sort_Permutation|].
  split; [by rewrite merge_sort_Permutation, length_fmap|].
  intros d. rewrite merge_sort_Permutation, list_elem_of_fmap.
  intros ([g v] & -> & Hin). by split.
Qed.

(** ** The printed differences *)

Lemma operands_loop (sep : string) (total : nat) (l : list string) :
  forall (counter : nat) (acc : string),
  total = (counter + length l)%nat ->
  snd (fold_left
         (fun (st : nat * string) e =>
            let counter := S (fst st) in
            (counter,
             snd st +:+ e +:+
             (if (counter <? total)%nat then sep else ""%string)))
         l (counter, acc))
  = acc +:+ join sep l.
Proof.
  induction l as [|x l IH]; intros counter acc Ht.
  - simpl. by rewrite string_app_nil_r.
  - cbn [fold_left fst snd]. rewrite IH by (simpl in Ht; lia).
    destruct l as [|y l].
    + simpl in Ht. replace (S counter <? total)%nat with false
        by (symmetry; apply Nat.ltb_ge; lia).
      cbn [join]. by rewrite !string_app_nil_r.
    + simpl in Ht. replace (S counter <? total)%nat with true
        by (symmetry; apply Nat.ltb_lt; lia).
      cbn [join]. by rewrite !string_app_assoc.
Qed.

(** X24: [print_intersections] and [print_unions] write the elements of
    the set in its iteration order, each once, with the operator between
    two of them and all between parentheses; the empty set gives the
    parentheses around two blanks. *)
Theorem print_operands_joined (s : gset string) :
  let joined (op : string) :=
    ("( " +:+ join (" " +:+ op +:+ " ") (set_elements s) +:+ " )")%string in
  feature_location_isolation_t.print_intersections s = joined "&" /\
  feature_location_isolation_t.print_unions s = joined "|" /\
  Sorted string_le (set_elements s) /\
  NoDup (set_elements s) /\
  (forall x, x ∈ set_elements s <-> x ∈ s) /\
  (s = ∅ -> feature_location_isolation_t.print_intersections s = "(  )").
Proof.
  intros joined.
  assert (Hop : forall op,
            feature_location_isolation_t.print_operands op s = joined op).
  { intros op. unfold feature_location_isolation_t.print_operands, joined.
    rewrite (operands_loop _ _ _ 0%nat ""%string)
      by (by rewrite set_elements_length).
    reflexivity. }
  split; [apply Hop|]. split; [apply Hop|].
  split; [apply Sorted_merge_sort; apply _|].
  split.
  { unfold set_elements, sort. rewrite merge_sort_Permutation.
    apply NoDup_elements. }
  split; [apply elem_of_set_elements|].
  intros ->. reflexivity.
Qed.

(** ** The dependent features of a system *)

Section membership.
Context (name : list N -> result string) (deps : list (list N)).
Context (named : forall v, v ∈ deps -> exists s, name v = Ok s).

Lemma subset_loop_elem (f : list feature_id_t) : forall res0,
  exists res,
    for_each
      (fun res i =>
         if forallb (contains f) i
         then t ← name i; Ok (res ++ [t])
         else Ok res)
      deps res0
    = Ok res /\
    forall x, x ∈ res <->
      x ∈ res0 \/
      exists v, v ∈ deps /\ (forall i, i ∈ v -> i ∈ f) /\ name v = Ok x.
Proof.
  revert named. induction deps as [|v vs IH]; intros Hnamed res0.
  - exists res0. split; [done|]. intros x. split; [by left|].
    intros [|(v & Hv%elem_of_nil & _)]; done.
  - cbn [for_each].
    assert (Hsub : forallb (contains f) v = true
                   <-> forall i, i ∈ v -> i ∈ f).
    { rewrite forallb_forall. split.
      - intros H i Hi. apply contains_N, H. by apply list_elem_of_In.
      - intros H i Hi. apply contains_N, H. by apply list_elem_of_In. }
    destruct (Hnamed v ltac:(left)) as [s Hs].
    destruct (forallb (contains f) v) eqn:Hf.
    + rewrite Hs. cbn [mbind result_bind].
      destruct (IH (fun w Hw => Hnamed w ltac:(by right)) (res0 ++ [s]))
        as (res & -> & Hres).
      exists res. split; [done|]. intros x. rewrite Hres, elem_of_app.
      rewrite list_elem_of_singleton. split.
      * intros [[?| ->]|(w & Hw & Hall & Hn)]; [by left|..].
        -- right. exists v. split; [left|]. split; [by apply Hsub|done].
        -- right. exists w. split; [by right|done].
      * intros [|(w & Hw & Hall & Hn)]; [by left; left|].
        apply elem_of_cons in Hw as [->|Hw].
        -- left. right. congruence.
        -- right. by exists w.
    + cbn [mbind result_bind].
      destruct (IH (fun w Hw => Hnamed w ltac:(by right)) res0)
        as (res & -> & Hres).
      exists res. split; [done|]. intros x. rewrite Hres. split.
      * intros [|(w & Hw & Hall & Hn)]; [by left|].
        right. exists w. split; [by right|done].
      * intros [|(w & Hw & Hall & Hn)]; [by left|].
        apply elem_of_cons in Hw as [->|Hw].
        -- apply Hsub in Hall. congruence.
        -- right. by exists w.
Qed.

Lemma inner_loop_elem (i : feature_id_t) : forall res0,
  exists res,
    for_each
      (fun res j =>
         t ← name j;
         Ok (if contains j i && negb (contains res t)
             then res ++ [t] else res))
      deps res0
    = Ok res /\
    (forall x, x ∈ res <->
       x ∈ res0 \/ exists v, v ∈ deps /\ i ∈ v /\ name v = Ok x) /\
    (NoDup res0 -> NoDup res).
Proof.
  revert named. induction deps as [|v vs IH]; intros Hnamed res0.
  - exists res0. split; [done|]. split; [|done]. intros x.
    split; [by left|]. intros [|(v & Hv%elem_of_nil & _)]; done.
  - cbn [for_each]. destruct (Hnamed v ltac:(left)) as [s Hs].
    rewrite Hs. cbn [mbind result_bind].
    pose proof (contains_N v i) as Hvi.
    pose proof (contains_elem_of res0 s) as Hrs.
    destruct (contains v i) eqn:Hc1, (contains res0 s) eqn:Hc2;
      cbn [andb negb].
    + destruct (IH (fun w Hw => Hnamed w ltac:(by right)) res0)
        as (res & -> & Hres & Hnd).
      exists res. split; [done|]. split; [|done]. intros x.
      rewrite Hres. split.
      * intros [|(w & Hw & Hi & Hn)]; [by left|].
        right. exists w. split; [by right|done].
      * intros [|(w & Hw & Hi & Hn)]; [by left|].
        apply elem_of_cons in Hw as [->|Hw]; [|right; by exists w].
        left. replace x with s by congruence. by apply Hrs.
    + destruct (IH (fun w Hw => Hnamed w ltac:(by right)) (res0 ++ [s]))
        as (res & -> & Hres & Hnd).
      exists res. split; [done|]. split.
      * intros x. rewrite Hres, elem_of_app, list_elem_of_singleton.
        split.
        -- intros [[?| ->]|(w & Hw & Hi & Hn)]; [by left|..].
           ++ right. exists v. split; [left|]. split; [by apply Hvi|done].
           ++ right. exists w. split; [by right|done].
        -- intros [|(w & Hw & Hi & Hn)]; [by left; left|].
           apply elem_of_cons in Hw as [->|Hw]; [|right; by exists w].
           left. right. congruence.
      * intros Hnd0. apply Hnd. apply NoDup_app. split; [done|].
        split; [|apply NoDup_singleton].
        intros y Hy ->%list_elem_of_singleton.
        apply Hrs in Hy. congruence.
    + destruct (IH (fun w Hw => Hnamed w ltac:(by right)) res0)
        as (res & -> & Hres & Hnd).
      exists res. split; [done|]. split; [|done]. intros x.
      rewrite Hres. split.
      * intros [|(w & Hw & Hi & Hn)]; [by left|].
        right. exists w. split; [by right|done].
      * intros [|(w & Hw & Hi & Hn)]; [by left|].
        apply elem_of_cons in Hw as [->|Hw]; [|right; by exists w].
        apply Hvi in Hi. congruence.
    + destruct (IH (fun w Hw => Hnamed w ltac:(by right)) res0)
        as (res & -> & Hres & Hnd).
      exists res. split; [done|]. split; [|done]. intros x.
      rewrite Hres. split.
      * intros [|(w & Hw & Hi & Hn)]; [by left|].
        right. exists w. split; [by right|done].
      * intros [|(w & Hw & Hi & Hn)]; [by left|].
        apply elem_of_cons in Hw as [->|Hw]; [|right; by exists w].
        apply Hvi in Hi. congruence.
Qed.

Lemma membership_loop_elem (f : list feature_id_t) : forall res0,
  exists res,
    for_each
      (fun res i =>
         for_each
           (fun res j =>
              t ← name j;
              Ok (if contains j i && negb (contains res t)
                  then res ++ [t] else res))
           deps res)
      f res0
    = Ok res /\
    (forall x, x ∈ res <->
       x ∈ res0 \/
       exists v i, v ∈ deps /\ i ∈ f /\ i ∈ v /\ name v = Ok x) /\
    (NoDup res0 -> NoDup res).
Proof.
  induction f as [|i f IH]; intros res0.
  - exists res0. split; [done|]. split; [|done]. intros x.
    split; [by left|]. intros [|(v & i & _ & Hi%elem_of_nil & _)]; done.
  - cbn [for_each].
    destruct (inner_loop_elem i res0) as (res1 & -> & Hres1 & Hnd1).
    cbn [mbind result_bind].
    destruct (IH res1) as (res & -> & Hres & Hnd).
    exists res. split; [done|]. split; [|by intros ?; apply Hnd, Hnd1].
    intros x. rewrite Hres, Hres1. split.
    + intros [[|(v & Hv & Hi & Hn)]|(v & j & Hv & Hj & Hjv & Hn)];
        [by left|..].
      * right. exists v, i. split; [done|]. split; [left|done].
      * right. exists v, j. split; [done|]. split; [by right|done].
    + intros [|(v & j & Hv & Hj & Hjv & Hn)]; [by left; left|].
      apply elem_of_cons in Hj as [->|Hj].
      * left. right. by exists v.
      * right. by exists v, j.
Qed.
End membership.

(** X25: which dependent features [generate_system] gives a system with
    the independent features [f], on an object whose raw dependent
    features are those of X16.  An or-feature belongs to the system when
    one of its features is in [f], an and-feature when all of them are;
    an or-not-feature when one of its features is among the ids 1 .. n
    missing in [f], an and-not-feature when all of them are.  Each list
    is in the order of the names, the or-lists without repetition. *)
Theorem system_dependent_features
    (o : feature_location_t.t) (f : list feature_id_t) :
  let n := feature_location_t.m_n o in
  let M := feature_location_t.m_M o in
  feature_location_t.m_raw_dependent_features o = raw_dependent n ->
  (hasO M = true ->
   exists l, feature_location_t.generate_or_features o f = Ok l /\
     Sorted string_le l /\ NoDup l /\
     forall x, x ∈ l <->
       exists v i, v ∈ raw_dependent n /\ i ∈ f /\ i ∈ v /\
                   or_feature_name v = Ok x) /\
  (hasA M = true ->
   exists l, feature_location_t.generate_and_features o f = Ok l /\
     Sorted string_le l /\
     forall x, x ∈ l <->
       exists v, v ∈ raw_dependent n /\ (forall i, i ∈ v -> i ∈ f) /\
                 and_feature_name v = Ok x) /\
  (hasON M = true ->
   exists l, feature_location_t.generate_or_not_features o f = Ok l /\
     Sorted string_le l /\ NoDup l /\
     forall x, x ∈ l <->
       exists v i, v ∈ raw_dependent n /\ (1 <= i <= n /\ i ∉ f) /\ i ∈ v /\
                   or_not_feature_name v = Ok x) /\
  (hasAN M = true ->
   exists l, feature_location_t.generate_and_not_features o f = Ok l /\
     Sorted string_le l /\
     forall x, x ∈ l <->
       exists v, v ∈ raw_dependent n /\
                 (forall i, i ∈ v -> 1 <= i <= n /\ i ∉ f) /\
                 and_not_feature_name v = Ok x).
Proof.
  intros n M Hdeps.
  unfold feature_location_t.generate_or_features,
    feature_location_t.generate_and_features,
    feature_location_t.generate_or_not_features,
    feature_location_t.generate_and_not_features.
  fold n M. rewrite Hdeps. repeat apply conj; intros ->.
  - destruct (membership_loop_elem or_feature_name (raw_dependent n)
                (fun v => raw_dependent_named _ _ n v) f [])
      as (res & -> & Hres & Hnd).
    exists (sort res). split; [done|].
    split; [apply Sorted_merge_sort; apply _|]. unfold sort.
    split; [rewrite merge_sort_Permutation; apply Hnd, NoDup_nil_2|].
    intros x. rewrite merge_sort_Permutation, Hres. split.
    + by intros [?%elem_of_nil|].
    + by right.
  - destruct (subset_loop_elem and_feature_name (raw_dependent n)
                (fun v => raw_dependent_named _ _ n v) f [])
      as (res & -> & Hres).
    exists (sort res). split; [done|].
    split; [apply Sorted_merge_sort; apply _|]. unfold sort.
    intros x. rewrite merge_sort_Permutation, Hres. split.
    + by intros [?%elem_of_nil|].
    + by right.
  - destruct (membership_loop_elem or_not_feature_name (raw_dependent n)
                (fun v => raw_dependent_named _ _ n v) (negate f n) [])
      as (res & -> & Hres & Hnd).
    exists (sort res). split; [done|].
    split; [apply Sorted_merge_sort; apply _|]. unfold sort.
    split; [rewrite merge_sort_Permutation; apply Hnd, NoDup_nil_2|].
    intros x. rewrite merge_sort_Permutation, Hres. split.
    + intros [?%elem_of_nil|(v & i & Hv & Hi%elem_of_negate & Hiv & Hn)];
        [done|]. by exists v, i.
    + intros (v & i & Hv & Hi%elem_of_negate & Hiv & Hn). right.
      by exists v, i.
  - cbv zeta.
    destruct (subset_loop_elem and_not_feature_name (raw_dependent n)
                (fun v => raw_dependent_named _ _ n v) (negate f n) [])
      as (res & -> & Hres).
    exists (sort res). split; [done|].
    split; [apply Sorted_merge_sort; apply _|]. unfold sort.
    intros x. rewrite merge_sort_Permutation, Hres. split.
    + intros [?%elem_of_nil|(v & Hv & Hall & Hn)]; [done|].
      exists v. split; [done|]. split; [|done].
      intros i Hi. by apply elem_of_negate, Hall.
    + intros (v & Hv & Hall & Hn). right. exists v. split; [done|].
      split; [|done]. intros i Hi. by apply elem_of_negate, Hall.
Qed.

Lemma system_dependent_features_witness :
  exists l,
    feature_location_t.generate_and_features (location 3 19) [1; 3] = Ok l /\
    Sorted string_le l.
Proof.
  destruct (system_dependent_features (location 3 19) [1; 3])
    as (_ & H & _); [vm_compute; reflexivity|].
  destruct H as (l & Hl & Hs & _); [vm_compute; reflexivity|].
  exists l. split; [exact Hl | exact Hs].
Defined.

(** ** The numbers of the header *)

(** X26: the numbers that the constructor stores for the header, up to
    20 features: S = 2^n systems, as many as [all_systems] holds;
    2^n - n - 1 for each family of dependent features that the model has,
    the number of raw dependent features; n not-features; DF the sum of
    the families and T = F + DF, no sum leaving 64 bits; and the number
    D of all set differences, 2^(2^n), which fits up to 5 features and is
    0 from 6 features on. *)
Theorem header_counts (n m : N) (o : feature_location_t.t) :
  let dep := 2 ^ n - n - 1 in
  n <= 20 -> feature_location_t.new n m = Ok o ->
  feature_location_t.m_F o = n /\
  feature_location_t.m_S o = 2 ^ n /\
  N.of_nat (length (feature_location_t.m_all_systems o)) = 2 ^ n /\
  N.of_nat (length (feature_location_t.m_raw_dependent_features o)) = dep /\
  feature_location_t.m_O o = (if hasO m then dep else 0) /\
  feature_location_t.m_A o = (if hasA m then dep else 0) /\
  feature_location_t.m_N o = (if hasN m then n else 0) /\
  feature_location_t.m_ON o = (if hasON m then dep else 0) /\
  feature_location_t.m_AN o = (if hasAN m then dep else 0) /\
  feature_location_t.m_I o
  = feature_location_t.m_O o + feature_location_t.m_A o
    + feature_location_t.m_N o + feature_location_t.m_ON o
    + feature_location_t.m_AN o /\
  feature_location_t.m_T o
  = feature_location_t.m_F o + feature_location_t.m_I o /\
  (n <= 5 -> feature_location_t.m_D o = 2 ^ 2 ^ n) /\
  (6 <= n -> feature_location_t.m_D o = 0).
Proof.
  intros dep Hn Hnew. assert (H16 : 20 < 2 ^ 16) by done.
  destruct (base_new_ok n m ltac:(lia)) as (systems & Hl & Hnew').
  rewrite Hnew in Hnew'. injection Hnew' as ->.
  cbn [feature_location_t.m_F feature_location_t.m_S feature_location_t.m_O
       feature_location_t.m_A feature_location_t.m_N feature_location_t.m_ON
       feature_location_t.m_AN feature_location_t.m_I feature_location_t.m_T
       feature_location_t.m_D feature_location_t.m_all_systems
       feature_location_t.m_raw_dependent_features].
  rewrite sum_of_combinations_closed by done. fold dep.
  rewrite (power2_pow n) by lia.
  assert (Hp : 2 ^ n <= 2 ^ 20) by (apply N.pow_le_mono_r; lia).
  assert (H20 : 2 ^ 20 = 1048576) by done.
  assert (H64 : 2 ^ 64 = 18446744073709551616) by done.
  assert (Hdep : dep < 2 ^ 20) by (unfold dep; lia).
  repeat apply conj; try done.
  - by rewrite Hl, N2Nat.id, power2_pow by lia.
  - apply raw_dependent_length.
  - unfold wrap64. rewrite N.mod_small;
      destruct (hasO m), (hasA m), (hasN m), (hasON m), (hasAN m); lia.
  - unfold wrap64. rewrite !N.mod_small;
      destruct (hasO m), (hasA m), (hasN m), (hasON m), (hasAN m); lia.
  - intros H5. apply power2_pow.
    assert (2 ^ n <= 2 ^ 5) by (apply N.pow_le_mono_r; lia).
    assert (2 ^ 5 = 32) by done. lia.
  - intros H6. unfold power2. rewrite power_pow. apply pow2_wraps.
    assert (2 ^ 6 <= 2 ^ n) by (apply N.pow_le_mono_r; lia).
    assert (2 ^ 6 = 64) by done. lia.
Qed.

Lemma header_counts_witness :
  feature_location_t.m_T (location 2 8)
  = feature_location_t.m_F (location 2 8)
    + feature_location_t.m_I (location 2 8) /\
  feature_location_t.m_D (location 2 8) = 2 ^ 2 ^ 2.
Proof.
  destruct (header_counts 2 8 (location 2 8))
    as (_ & _ & _ & _ & _ & _ & _ & _ & _ & _ & HT & HD & _);
    [lia | vm_compute; reflexivity|].
  split; [exact HT | apply HD; lia].
Defined.

(** * The isolations of the enumeration strategy *)

(** ** The enumeration strategy on the taxonomy *)

(** What the base constructor stores, whenever it returns. *)
Lemma new_fields n m b :
  feature_location_t.new n m = Ok b ->
  feature_location_t.m_n b = n /\
  feature_location_t.m_S b = power2 n /\
  feature_location_t.m_raw_independent_features b = range 1 (N.to_nat n).
Proof.
  unfold feature_location_t.new. cbv zeta.
  destruct (for_all_combinations _ _ _ _) as [dep|]; [|done].
  cbn [mbind result_bind].
  destruct (feature_location_t.generate_all_systems _) as [systems|];
    [|done].
  cbn [mbind result_bind]. by intros [= <-].
Qed.

Lemma isolation_names_independent b all x :
  isolation_names b = Ok all ->
  x ∈ feature_location_t.m_raw_independent_features b ->
  independent_feature_name x ∈ all.
Proof.
  unfold isolation_names. intros Hall Hx.
  destruct (feature_location_isolation_t.generate_or_features b); [|done].
  destruct (feature_location_isolation_t.generate_and_features b); [|done].
  destruct (feature_location_isolation_t.generate_or_not_features b); [|done].
  destruct (feature_location_isolation_t.generate_and_not_features b);
    [|done].
  cbn [mbind result_bind] in Hall. injection Hall as <-.
  unfold sort, concat. rewrite merge_sort_Permutation, !elem_of_app.
  do 5 left.
  unfold feature_location_isolation_t.generate_independent_features,
    feature_location_t.generate_independent_features.
  apply list_elem_of_fmap. by exists x.
Qed.

Lemma calculation_features_independent b call e :
  calculation_features b = Ok call ->
  e ∈ feature_location_calculation_t.calculate_independent_features b ->
  e ∈ call.
Proof.
  unfold calculation_features. cbv zeta. intros Hcall He.
  destruct (feature_location_calculation_t.calculate_or_features b _);
    [|done].
  destruct (feature_location_calculation_t.calculate_and_features b _);
    [|done].
  destruct (feature_location_calculation_t.calculate_or_not_features b _);
    [|done].
  destruct (feature_location_calculation_t.calculate_and_not_features b _ _);
    [|done].
  cbn [mbind result_bind] in Hcall. injection Hcall as <-.
  unfold concat. rewrite !elem_of_app. by do 5 left.
Qed.

(** The entry of feature [i + 1] in the table of the closed-form
    strategy. *)
Lemma independent_entry b i :
  feature_location_t.m_n b < 64 -> i < feature_location_t.m_n b ->
  exists v,
    (independent_feature_name (i + 1), v)
      ∈ feature_location_calculation_t.calculate_independent_features b /\
    forall q, N.testbit v q
              = (q <? 2 ^ feature_location_t.m_n b) && (q <? 64)
                && N.testbit q i.
Proof.
  intros Hn Hi.
  destruct (independent_value _ i Hn Hi) as (v & Hv & _ & Hb).
  exists v. split; [|done].
  apply (list_elem_of_lookup_2 _ (N.to_nat i)).
  unfold feature_location_calculation_t.calculate_independent_features.
  rewrite list_lookup_fmap, range_lookup by lia.
  cbn [fmap option_fmap option_map]. rewrite N.add_0_l, N2Nat.id, Hv.
  do 3 f_equal. unfold wrap16. apply N.mod_small.
  assert (64 < 2 ^ 16) by done. lia.
Qed.

(** C2: for one to six features and every model, the constructor of the
    enumeration strategy returns an object over the base object of that
    taxonomy with its 2^n systems, system [p + 1] holding the independent
    feature [i] exactly when bit [i - 1] of [p] is set.  Its features are
    the independent features 1 .. n and, all in all, exactly the features
    of the systems; the map of isolations has an entry for exactly these
    features.  The difference computed for a feature [f] has in its
    intersection part the systems that contain [f] and in its union part
    the other systems, and its evaluation, the features common to the
    systems of the intersection part without those of the systems of the
    union part, is [f] alone. *)
Theorem isolation_isolates n m :
  1 <= n <= 6 -> 1 <= m <= 19 ->
  exists iso,
    feature_location_isolation_t.new n m = Ok iso /\
    let b := feature_location_isolation_t.base iso in
    let all := feature_location_isolation_t.m_all_features iso in
    let isolations := feature_location_isolation_t.m_feature_isolations iso in
    feature_location_t.new n m = Ok b /\
    N.of_nat (length (feature_location_t.m_all_systems b)) = 2 ^ n /\
    (forall p fs i,
       feature_location_t.m_all_systems b !! p = Some fs -> 1 <= i <= n ->
       (independent_feature_name i ∈ fs
        <-> N.testbit (N.of_nat p) (i - 1) = true)) /\
    (forall i, 1 <= i <= n -> independent_feature_name i ∈ all) /\
    (forall f, f ∈ all
               <-> exists fs, fs ∈ feature_location_t.m_all_systems b /\
                              f ∈ fs) /\
    (forall f, f ∈ all <-> is_Some (isolations !! f)) /\
    forall f,
      f ∈ all ->
      exists d,
        isolations !! f = Some d /\
        (forall p fs,
           feature_location_t.m_all_systems b !! p = Some fs ->
           (system_name (N.of_nat p + 1) ∈ intersections d <-> f ∈ fs) /\
           (system_name (N.of_nat p + 1) ∈ unions d <-> f ∉ fs)) /\
        feature_location_differences_t.evaluate_difference b d = Ok {[ f ]}.
Proof.
  intros Hn Hm.
  destruct (taxonomy_check_sound n m (taxonomy_checked n m Hn Hm))
    as (b & all & call & Hb & Hall & Hcall & Hc).
  destruct (isolation_new_ok n m b all Hb Hall) as (iso & Hiso & <- & <- & Hmap).
  exists iso. split; [done|]. intros b' all' isolations.
  subst b' all' isolations.
  set (b := feature_location_isolation_t.base iso) in *.
  set (all := feature_location_isolation_t.m_all_features iso) in *.
  destruct (new_fields n m b Hb) as (Hbn & HbS & Hraw).
  assert (HS : feature_location_t.m_S b = 2 ^ n)
    by (rewrite HbS; apply power2_pow; lia).
  assert (Hlen : N.of_nat (length (feature_location_t.m_all_systems b))
                 = 2 ^ n)
    by (by rewrite (checked_length _ _ _ _ Hc)).
  assert (Hindep : forall i, 1 <= i <= n -> independent_feature_name i ∈ all).
  { intros i Hi. apply (isolation_names_independent b); [done|].
    rewrite Hraw. apply elem_of_range. lia. }
  split; [done|]. split; [done|]. split; [|split; [done|split; [|split]]].
  - intros p fs i Hfs Hi.
    destruct (independent_entry b (i - 1)) as (v & Hv & Hbits);
      [rewrite Hbn; lia..|].
    replace (i - 1 + 1) with i in Hv by lia.
    pose proof (checked_values _ _ _ _ Hc _ _
                  (calculation_features_independent b call _ Hcall Hv))
      as Hval.
    pose proof (membership_bit (feature_location_t.m_all_systems b)
                  (independent_feature_name i) p) as Hmem.
    rewrite Hfs, <- Hval, Hbits, Hbn in Hmem.
    pose proof (lookup_lt_Some _ _ _ Hfs) as Hp.
    assert (H64 : 2 ^ n <= 2 ^ 6) by (apply N.pow_le_mono_r; lia).
    assert (2 ^ 6 = 64) by done.
    replace (N.of_nat p <? 2 ^ n) with true in Hmem
      by (symmetry; apply N.ltb_lt; lia).
    replace (N.of_nat p <? 64) with true in Hmem
      by (symmetry; apply N.ltb_lt; lia).
    cbn [andb] in Hmem. by rewrite <- contains_elem_of, <- Hmem.
  - intros f. split.
    + intros Hf.
      pose proof (checked_present _ _ _ _ Hc f Hf) as Hpos.
      destruct (nonzero_has_bit
                  (membership (feature_location_t.m_all_systems b) f)
                  (feature_location_t.m_S b))
        as (p & Hp & Hbit); [lia|by apply (checked_below n b all call)|].
      rewrite <- (N2Nat.id p), membership_bit in Hbit.
      destruct (feature_location_t.m_all_systems b !! N.to_nat p)
        as [fs|] eqn:Hfs; [|done].
      exists fs. split; [by apply list_elem_of_lookup_2 in Hfs|].
      by apply contains_elem_of.
    + intros (fs & Hfs & Hf). by apply (checked_closed _ _ _ _ Hc fs).
  - intros f. rewrite Hmap, (checked_isolation _ _ _ _ Hc).
    destruct (decide (f ∈ all)) as [Hf|Hf].
    + split; [by eexists|done].
    + split; [done|]. by intros [? ?].
  - intros f Hf.
    set (e := membership (feature_location_t.m_all_systems b) f).
    exists (feature_location_differences_t.generate_difference b e).
    split; [|split].
    + rewrite Hmap, (checked_isolation _ _ _ _ Hc). by rewrite decide_True.
    + intros p fs Hfs.
      by apply (generated_part_of_system b e p fs f
                  (checked_length _ _ _ _ Hc) (checked_64 _ _ _ _ Hc)).
    + destruct (checked_evaluation _ _ _ _ Hc e) as (-> & _ & _).
      * apply (checked_below _ _ _ _ Hc).
      * unfold e. by rewrite (checked_isolates _ _ _ _ Hc f Hf).
Qed.

Lemma isolation_isolates_witness :
  exists iso,
    feature_location_isolation_t.new 2 8 = Ok iso /\
    let b := feature_location_isolation_t.base iso in
    let all := feature_location_isolation_t.m_all_features iso in
    let isolations := feature_location_isolation_t.m_feature_isolations iso in
    feature_location_t.new 2 8 = Ok b /\
    N.of_nat (length (feature_location_t.m_all_systems b)) = 2 ^ 2 /\
    (forall p fs i,
       feature_location_t.m_all_systems b !! p = Some fs -> 1 <= i <= 2 ->
       (independent_feature_name i ∈ fs
        <-> N.testbit (N.of_nat p) (i - 1) = true)) /\
    (forall i, 1 <= i <= 2 -> independent_feature_name i ∈ all) /\
    (forall f, f ∈ all
               <-> exists fs, fs ∈ feature_location_t.m_all_systems b /\
                              f ∈ fs) /\
    (forall f, f ∈ all <-> is_Some (isolations !! f)) /\
    forall f,
      f ∈ all ->
      exists d,
        isolations !! f = Some d /\
        (forall p fs,
           feature_location_t.m_all_systems b !! p = Some fs ->
           (system_name (N.of_nat p + 1) ∈ intersections d <-> f ∈ fs) /\
           (system_name (N.of_nat p + 1) ∈ unions d <-> f ∉ fs)) /\
        feature_location_differences_t.evaluate_difference b d = Ok {[ f ]}.
Proof. apply (isolation_isolates 2 8); lia. Defined.
